(** * Equivocal: the scene audio engine, embedded and verified

    A shallow embedding of [equivocal/engine.py] (class [SceneAudioEngine]):
    the feature extractor, the aggregator ([_average_features]), the blender
    ([_blend_sounds], [_blend_dict_values]), the prompt matcher
    ([generate_scene_from_text]), the training loop
    ([train_atomic_sounds]) and the interpreter ([listen_internal]).

    Modelling conventions.
    - Numbers.  Python floats, ints and numpy scalars are exact rationals
      ([Qc], canonical fractions with Leibniz equality).  Rounding, infinities
      and NaN are not modelled; [x / 0] is [0] as in [Qcanon].
    - Values.  A feature value is a scalar, a one-dimensional [np.ndarray] or
      a nested [dict]; dictionaries are finite maps keyed by strings.
    - Exceptions.  A function that can raise returns [option]; [None] is
      "an exception was raised".  Where Python itself returns [None] the
      result type is [option (option _)].
    - librosa and the transcendental numpy functions are an interface
      ([Librosa]); the engine is written against it.
    - Orders.  Where the code reads a dictionary's items or lists a set in
      order, the listing is an interface too ([DictOrder], [SetOrder]).
    - Strings.  Prompts are byte strings; [str.lower] and [str.split] are
      modelled on ASCII letters and ASCII whitespace. *)

From Stdlib Require Import QArith Qcanon.
From stdpp Require Import gmap strings list fin_maps numbers option.

#[local] Set Warnings "-register-all".
Local Open Scope Qc_scope.

(** ** Feature values *)

Inductive value :=
| VNum (x : Qc)
| VArr (a : list Qc)
| VDict (d : gmap string value).

Abbreviation dict := (gmap string value).

(** [isinstance(v, dict)], [isinstance(v, np.ndarray)] and the remaining
    (scalar) case, as partial projections. *)
Definition as_num (v : value) : option Qc :=
  match v with VNum x => Some x | _ => None end.
Definition as_arr (v : value) : option (list Qc) :=
  match v with VArr a => Some a | _ => None end.
Definition as_dict (v : value) : option dict :=
  match v with VDict d => Some d | _ => None end.

(** Nesting depth of a value; it bounds the recursion of [_average_features]. *)
Fixpoint depth (v : value) : nat :=
  match v with
  | VDict d => S (map_fold (λ _ v' acc, max (depth v') acc) 0%nat d)
  | _ => 0%nat
  end.

Definition depth_list (ds : list dict) : nat :=
  max_list ((λ d, depth (VDict d)) <$> ds).

(** ** numpy on exact numbers *)

Definition Qc_of_nat (n : nat) : Qc := Qc_of_Z (Z.of_nat n).

Definition np_sum (xs : list Qc) : Qc := foldr Qcplus 0 xs.

Definition np_mean (xs : list Qc) : Qc := np_sum xs / Qc_of_nat (length xs).

(** Component-wise sum of arrays of length [m]. *)
Definition vec_sum (m : nat) (arrs : list (list Qc)) : list Qc :=
  foldr (zip_with Qcplus) (replicate m 0) arrs.

Definition same_length (m : nat) (arrs : list (list Qc)) : Prop :=
  Forall (λ a, length a = m) arrs.

(** The [j]-th components of a list of arrays. *)
Definition column (j : nat) (arrs : list (list Qc)) : list Qc :=
  omap (λ a : list Qc, a !! j) arrs.

(** [float(np.mean(values))] on a list of scalars; a list that mixes scalars
    with arrays or dictionaries raises. *)
Definition np_mean_scalars (values : list value) : option Qc :=
  xs ← mapM as_num values; Some (np_mean xs).

(** [np.mean(values, axis=0)] on a list of arrays; arrays of different
    lengths (an inhomogeneous shape) and non-arrays raise. *)
Definition np_mean_axis0 (values : list value) : option (list Qc) :=
  arrs ← mapM as_arr values;
  match arrs with
  | [] => None
  | a0 :: _ =>
      if decide (same_length (length a0) arrs)
      then Some ((λ s, s / Qc_of_nat (length arrs)) <$> vec_sum (length a0) arrs)
      else None
  end.

(** [np.average(values, weights=weights)]: the shapes must agree and the
    weights must not sum to zero. *)
Definition np_average (values : list value) (weights : list Qc) : option Qc :=
  xs ← mapM as_num values;
  if decide (length xs = length weights ∧ np_sum weights ≠ 0)
  then Some (np_sum (zip_with Qcmult xs weights) / np_sum weights)
  else None.

(** [np.average(values, axis=0, weights=weights)] on a list of arrays. *)
Definition np_average_axis0 (values : list value) (weights : list Qc)
    : option (list Qc) :=
  arrs ← mapM as_arr values;
  match arrs with
  | [] => None
  | a0 :: _ =>
      if decide (same_length (length a0) arrs
                 ∧ length arrs = length weights ∧ np_sum weights ≠ 0)
      then Some ((λ s, s / np_sum weights) <$>
                 vec_sum (length a0)
                   (zip_with (λ a w, (λ x, x * w) <$> a) arrs weights))
      else None
  end.

(** ** The loop [for key in all_keys: ... blended[key] = ...]

    The body either raises ([None]), skips the key ([Some None], the
    [if values:] test failing) or assigns a value. *)
Definition for_keys (keys : list string)
    (body : string → option (option value)) : option dict :=
  foldr (λ key acc,
           blended ← acc;
           r ← body key;
           Some (match r with
                 | Some v => <[key := v]> blended
                 | None => blended
                 end))
        (Some ∅) keys.

(** [all_keys = set(); for d in ds: all_keys.update(d.keys())] *)
Definition all_keys (ds : list dict) : gset string := ⋃ (dom <$> ds).

(** ** [_average_features]

    The body of the method, with the recursive call [self._average_features]
    as a parameter. *)
Definition average_values (recurse : list dict → option dict)
    (values : list value) : option (option value) :=
  match values with
  | [] => Some None
  | VDict _ :: _ =>
      ds ← mapM as_dict values;
      r ← recurse ds;
      Some (Some (VDict r))
  | VArr _ :: _ => a ← np_mean_axis0 values; Some (Some (VArr a))
  | VNum _ :: _ => x ← np_mean_scalars values; Some (Some (VNum x))
  end.

(** The values of [key] in the dictionaries that contain it:
    [for f in feature_list: if key in f: values.append(f[key])] *)
Definition values_of (key : string) (ds : list dict) : list value :=
  omap (λ d : dict, d !! key) ds.

Definition average_key (recurse : list dict → option dict)
    (feature_list : list dict) (key : string) : option (option value) :=
  average_values recurse (values_of key feature_list).

Definition average_features_body (recurse : list dict → option dict)
    (feature_list : list dict) : option dict :=
  match feature_list with
  | [] => Some ∅
  | _ =>
      for_keys (elements (all_keys feature_list))
               (average_key recurse feature_list)
  end.

Fixpoint average_features_rec (fuel : nat) (feature_list : list dict)
    : option dict :=
  match fuel with
  | O => None
  | S fuel' => average_features_body (average_features_rec fuel') feature_list
  end.

(** The recursion descends one nesting level per call, so the depth of the
    input is always enough fuel (see [average_features_unfold]). *)
Definition average_features (feature_list : list dict) : option dict :=
  average_features_rec (S (depth_list feature_list)) feature_list.

(** ** [_blend_dict_values] and [_blend_sounds] *)

Definition blend_dict_key (ds : list dict) (weights : list Qc) (key : string)
    : option (option value) :=
  let values := values_of key ds in
  match values with
  | [] => Some None
  | VArr _ :: _ =>
      a ← np_average_axis0 values (take (length values) weights);
      Some (Some (VArr a))
  | _ =>
      x ← np_average values (take (length values) weights);
      Some (Some (VNum x))
  end.

(** [dicts] holds the values found under one key; [d.keys()] raises when one
    of them is not a dictionary. *)
Definition blend_dict_values (dicts : list value) (weights : list Qc)
    : option dict :=
  ds ← mapM as_dict dicts;
  for_keys (elements (all_keys ds)) (blend_dict_key ds weights).

(** [weights = [1.0 / len(sound_names)] * len(sound_names)] *)
Definition default_weights (sound_names : list string) : option (list Qc) :=
  match sound_names with
  | [] => None
  | _ => Some (replicate (length sound_names)
                 (1 / Qc_of_nat (length sound_names)))
  end.

(** The values of [key] and the weights that go with them:
    [for lat, weight in zip(latents, weights): if key in lat: ...] *)
Definition select_key (key : string) (latents : list dict) (weights : list Qc)
    : list (value * Qc) :=
  omap (λ p : dict * Qc, (λ v, (v, p.2)) <$> p.1 !! key) (zip latents weights).

Definition blend_key (latents : list dict) (weights : list Qc) (key : string)
    : option (option value) :=
  let selected := select_key key latents weights in
  let values := fst <$> selected in
  let valid_weights := snd <$> selected in
  match values with
  | [] => Some None
  | VDict _ :: _ =>
      r ← blend_dict_values values valid_weights; Some (Some (VDict r))
  | VArr _ :: _ =>
      a ← np_average_axis0 values valid_weights; Some (Some (VArr a))
  | VNum _ :: _ =>
      x ← np_average values valid_weights; Some (Some (VNum x))
  end.

Definition blend_sounds (atomic_sounds : gmap string dict)
    (sound_names : list string) (weights : option (list Qc)) : option dict :=
  weights ← match weights with
            | Some w => Some w
            | None => default_weights sound_names
            end;
  latents ← mapM (λ name, atomic_sounds !! name) sound_names;
  for_keys (elements (all_keys latents)) (blend_key latents weights).

(** ** Strings: [str.lower], [str.split] and the [in] test

    Strings are byte strings; [lower] and [split] act on ASCII letters and
    ASCII whitespace, other bytes are left as they are. *)

Definition lower_ascii (c : Ascii.ascii) : Ascii.ascii :=
  let n := Ascii.nat_of_ascii c in
  if (65 <=? n)%nat && (n <=? 90)%nat then Ascii.ascii_of_nat (n + 32) else c.

Fixpoint lower (s : string) : string :=
  match s with
  | EmptyString => EmptyString
  | String c s' => String (lower_ascii c) (lower s')
  end.

(** Tab, line feed, vertical tab, form feed, carriage return, the four
    separators 0x1c-0x1f and the space. *)
Definition is_whitespace (c : Ascii.ascii) : bool :=
  let n := Ascii.nat_of_ascii c in
  ((9 <=? n)%nat && (n <=? 13)%nat) || ((28 <=? n)%nat && (n <=? 32)%nat).

(** [s.split()]: maximal runs of non-whitespace characters. [cur] is the
    word being read. *)
Fixpoint split_from (cur : string) (s : string) : list string :=
  match s with
  | EmptyString => match cur with EmptyString => [] | _ => [cur] end
  | String c s' =>
      if is_whitespace c
      then match cur with
           | EmptyString => split_from EmptyString s'
           | _ => cur :: split_from EmptyString s'
           end
      else split_from (cur +:+ String c EmptyString) s'
  end.

Definition split (s : string) : list string := split_from EmptyString s.

(** [word in sound_name]: [word] occurs in [s] as a contiguous substring. *)
Fixpoint contains (word s : string) : bool :=
  String.prefix word s ||
  match s with
  | EmptyString => false
  | String _ s' => contains word s'
  end.

(** ** The static semantic map of [generate_scene_from_text] *)

Definition semantic_table : list (string * list string) :=
  [ (* Environments *)
    ("cafe", ["cafe_ambience"; "cafe_chatter"; "espresso_machine"]);
    ("coffee", ["cafe_ambience"; "espresso_machine"]);
    ("coffeeshop", ["cafe_ambience"; "cafe_chatter"; "espresso_machine"]);
    ("restaurant", ["cafe_ambience"; "cafe_chatter"]);
    ("indoor", ["cafe_ambience"]);
    ("inside", ["cafe_ambience"]);
    ("forest", ["forest_ambience"; "bird_chirp"]);
    ("woods", ["forest_ambience"; "bird_chirp"]);
    ("trees", ["forest_ambience"]);
    ("nature", ["forest_ambience"; "bird_chirp"]);
    ("outdoor", ["forest_ambience"]);
    ("outside", ["forest_ambience"]);
    ("wind", ["forest_ambience"]);
    ("breeze", ["forest_ambience"]);
    ("leaves", ["forest_ambience"]);
    ("underwater", ["underwater_ambience"; "whale_song"; "dolphin_clicks"]);
    ("ocean", ["underwater_ambience"; "whale_song"; "dolphin_clicks"]);
    ("sea", ["underwater_ambience"; "whale_song"]);
    ("aquatic", ["underwater_ambience"; "whale_song"; "dolphin_clicks"]);
    ("deep", ["underwater_ambience"; "whale_song"]);
    ("water", ["underwater_ambience"]);
    ("marine", ["underwater_ambience"; "whale_song"; "dolphin_clicks"]);
    (* Animals *)
    ("whale", ["whale_song"]);
    ("whales", ["whale_song"]);
    ("humpback", ["whale_song"]);
    ("dolphin", ["dolphin_clicks"]);
    ("dolphins", ["dolphin_clicks"]);
    ("seal", ["sealion_shrimp"]);
    ("sealion", ["sealion_shrimp"]);
    ("sea-lion", ["sealion_shrimp"]);
    ("bird", ["bird_chirp"]);
    ("birds", ["bird_chirp"]);
    ("chirp", ["bird_chirp"]);
    ("chirping", ["bird_chirp"]);
    ("singing", ["bird_chirp"; "whale_song"]);
    ("song", ["bird_chirp"; "whale_song"]);
    (* Events/Actions *)
    ("thunder", ["thunder"]);
    ("thunderstorm", ["thunder"; "forest_ambience"]);
    ("storm", ["thunder"; "forest_ambience"]);
    ("lightning", ["thunder"]);
    ("rain", ["forest_ambience"]);
    ("raining", ["forest_ambience"]);
    ("espresso", ["espresso_machine"]);
    ("steam", ["espresso_machine"]);
    ("hiss", ["espresso_machine"]);
    ("machine", ["espresso_machine"]);
    ("brewing", ["espresso_machine"]);
    ("chatter", ["cafe_chatter"]);
    ("talking", ["cafe_chatter"]);
    ("conversation", ["cafe_chatter"]);
    ("voices", ["cafe_chatter"]);
    ("people", ["cafe_chatter"]);
    ("crowd", ["cafe_chatter"]);
    ("clicks", ["dolphin_clicks"]);
    ("clicking", ["dolphin_clicks"]);
    ("echolocation", ["dolphin_clicks"]);
    (* Qualities *)
    ("peaceful", ["underwater_ambience"; "forest_ambience"]);
    ("calm", ["forest_ambience"; "underwater_ambience"]);
    ("quiet", ["forest_ambience"; "underwater_ambience"]);
    ("serene", ["forest_ambience"; "underwater_ambience"]);
    ("tranquil", ["forest_ambience"; "underwater_ambience"]);
    ("busy", ["cafe_ambience"; "cafe_chatter"]);
    ("active", ["cafe_chatter"; "bird_chirp"]);
    ("lively", ["cafe_ambience"; "cafe_chatter"; "bird_chirp"]);
    ("dramatic", ["thunder"; "whale_song"]);
    ("intense", ["thunder"; "whale_song"]);
    ("powerful", ["thunder"; "whale_song"]);
    ("gentle", ["forest_ambience"; "bird_chirp"]);
    ("soft", ["forest_ambience"]);
    ("loud", ["thunder"; "espresso_machine"]) ].

Definition semantic_map : gmap string (list string) :=
  list_to_map semantic_table.

(** ** The engine and [generate_scene_from_text] *)

Record engine := Engine {
  sr : Z;
  atomic_sounds : gmap string dict;
  soundscapes : gmap string dict;
  semantic_vocabulary : gmap string dict
}.

(** The dictionary [{'latent': ..., 'components': ..., 'prompt': ...}]. *)
Record scene := Scene {
  latent : dict;
  components : list string;
  prompt : string
}.

(** Direct semantic mapping:
    [if word in semantic_map: for sound in semantic_map[word]:
       if sound in self.atomic_sounds: matched_sounds.add(sound)] *)
Definition add_semantic (atomic : gmap string dict) (word : string)
    (matched_sounds : gset string) : gset string :=
  match semantic_map !! word with
  | Some sounds =>
      foldl (λ acc sound,
               if decide (is_Some (atomic !! sound)) then acc ∪ {[sound]} else acc)
            matched_sounds sounds
  | None => matched_sounds
  end.

(** Substring matching in sound names:
    [for sound_name in self.atomic_sounds:
       if word in sound_name: matched_sounds.add(sound_name)] *)
Definition add_substring (atomic : gmap string dict) (word : string)
    (matched_sounds : gset string) : gset string :=
  matched_sounds ∪
  filter (λ sound_name, contains word sound_name = true) (dom atomic).

Definition match_words (atomic : gmap string dict) (words : list string)
    : gset string :=
  foldl (λ matched word, add_substring atomic word (add_semantic atomic word matched))
        ∅ words.

(** [list(matched_sounds)]: a Python set lists its elements in an order
    that follows the hashes of the strings, which change from one process
    to the next, and the insertions.  The listing is an interface, known
    only to enumerate the set. *)
Class SetOrder := {
  list_of_set : gset string → list string
}.

Class SetOrderLaw (SO : SetOrder) : Prop := {
  list_of_set_perm : ∀ X : gset string, list_of_set X ≡ₚ elements X
}.

(** The method reads [self] and never assigns to it; the engine is returned
    next to the result to make that explicit.  The outer [option] is [None]
    when an exception escapes, the inner one is Python's [None].
    [matched_by_word] only feeds the printed report and is left out. *)
Definition generate_scene_from_text {SO : SetOrder}
    (self : engine) (prompt : string) : option (option scene) * engine :=
  let words := split (lower prompt) in
  let matched_sounds := match_words (atomic_sounds self) words in
  if decide (matched_sounds = ∅) then (Some None, self)
  else
    let matched_sounds := list_of_set matched_sounds in
    (latent ← blend_sounds (atomic_sounds self) matched_sounds None;
     Some (Some (Scene latent matched_sounds prompt)),
     self).

(** ** The signal-processing interface

    The librosa routines and the numpy functions that have no rational
    counterpart. A librosa routine may raise (for instance on an empty or
    non-finite signal), hence [option]. A matrix is the list of its rows. *)

Abbreviation audio := (list Qc).
Abbreviation matrix := (list (list Qc)).

Class Librosa := {
  chroma_cqt : audio → Z → option matrix;
  rms : audio → option matrix;
  onset_strength : audio → Z → option (list Qc);
  hpss : audio → option (audio * audio);
  spectral_centroid : audio → Z → option matrix;
  spectral_flatness : audio → option matrix;
  mfcc : audio → Z → nat → option matrix;
  onset_detect : audio → Z → option (list Z);
  piptrack : audio → Z → option (matrix * matrix);
  spectral_rolloff : audio → Z → Qc → option matrix;
  zero_crossing_rate : audio → option matrix;
  np_tanh : Qc → Qc;
  np_log : Qc → Qc;
  np_polyfit : list Qc → list Qc → nat → option (list Qc)
}.

(** What the engine relies on: [tanh] maps into [[-1, 1]] and [mfcc] returns
    one row per requested coefficient. *)
Class LibrosaContract (L : Librosa) : Prop := {
  np_tanh_range : ∀ x : Qc, -1 ≤ np_tanh x ∧ np_tanh x ≤ 1;
  mfcc_rows : ∀ (y : audio) (rate : Z) (n_mfcc : nat) (m : matrix),
      mfcc y rate n_mfcc = Some m → length m = n_mfcc
}.

(** ** numpy helpers used by the extractor *)

Definition eps : Qc := Q2Qc (1 # 10000000000).

Definition np_var (xs : list Qc) : Qc :=
  np_mean ((λ x, (x - np_mean xs) * (x - np_mean xs)) <$> xs).

Fixpoint np_diff (xs : list Z) : list Z :=
  match xs with
  | x :: (y :: _) as xs' => (y - x)%Z :: np_diff xs'
  | _ => []
  end.

(** [np.sum(x**2)], the energy of a signal. *)
Definition sum_squares (xs : list Qc) : Qc := np_sum ((λ x, x * x) <$> xs).

Definition Qc_max (x y : Qc) : Qc := if decide (x < y) then y else x.
Definition Qc_min (x y : Qc) : Qc := if decide (y < x) then y else x.

Definition np_max (xs : list Qc) : option Qc :=
  match xs with [] => None | x :: xs' => Some (foldl Qc_max x xs') end.
Definition np_min (xs : list Qc) : option Qc :=
  match xs with [] => None | x :: xs' => Some (foldl Qc_min x xs') end.

(** [np.clip(x, lo, hi)] is [minimum(hi, maximum(x, lo))]. *)
Definition np_clip (x lo hi : Qc) : Qc := Qc_min hi (Qc_max x lo).

(** First index of the largest entry; raises on an empty array. *)
Fixpoint argmax_from (best : Qc) (best_i i : nat) (xs : list Qc) : nat :=
  match xs with
  | [] => best_i
  | x :: xs' =>
      if decide (best < x) then argmax_from x i (S i) xs'
      else argmax_from best best_i (S i) xs'
  end.
Definition np_argmax (xs : list Qc) : option nat :=
  match xs with [] => None | x :: xs' => Some (argmax_from x 0 1 xs') end.

(** ** The feature extractor *)

Section Extractor.
Context {L : Librosa}.

Definition compute_valence (audio : audio) (sr : Z) : option Qc :=
  chroma ← chroma_cqt audio sr;
  major ← chroma !! 4%nat;
  minor ← chroma !! 3%nat;
  let major_energy := np_mean major in
  let minor_energy := np_mean minor in
  let valence := major_energy - minor_energy in
  Some (np_tanh valence).

Definition compute_energy (audio : audio) : option Qc :=
  rms ← rms audio;
  Some (np_mean (concat rms)).

Definition compute_rhythm_complexity (audio : audio) (sr : Z) : option Qc :=
  onset_env ← onset_strength audio sr;
  if decide (1 < length onset_env)%nat then
    let onset_prob := (λ x, x / (np_sum onset_env + eps)) <$> onset_env in
    let entropy := - np_sum ((λ p, p * np_log (p + eps)) <$> onset_prob) in
    Some (entropy / np_log (Qc_of_nat (length onset_env)))
  else Some 0.

Definition compute_harmonic_content (audio : audio) (sr : Z) : option Qc :=
  '(harmonic, percussive) ← hpss audio;
  let ratio := sum_squares harmonic / (sum_squares audio + eps) in
  Some ratio.

Definition compute_spectral_motion (audio : audio) (sr : Z) : option Qc :=
  m ← spectral_centroid audio sr;
  centroid ← m !! 0%nat;
  if decide (1 < length centroid)%nat then
    let x := Qc_of_nat <$> seq 0 (length centroid) in
    coeffs ← np_polyfit x centroid 1;
    slope ← coeffs !! 0%nat;
    Some (np_tanh (slope / Qc_of_Z 100))
  else Some 0.

Definition compute_texture (audio : audio) (sr : Z) : option Qc :=
  flatness ← spectral_flatness audio;
  Some (1 - np_mean (concat flatness)).

Definition compute_timbre (audio : audio) (sr : Z) : option (list Qc) :=
  mfccs ← mfcc audio sr 13;
  Some (fmap (M:=list) np_mean mfccs).

Definition compute_onset_structure (audio : audio) (sr : Z) : option dict :=
  onset_frames ← onset_detect audio sr;
  if decide (1 < length onset_frames)%nat then
    let iois := Qc_of_Z <$> np_diff onset_frames in
    Some {[ "mean_ioi" := VNum (np_mean iois);
            "ioi_variance" := VNum (np_var iois);
            "num_onsets" := VNum (Qc_of_nat (length onset_frames)) ]}
  else
    Some {[ "mean_ioi" := VNum 0; "ioi_variance" := VNum 0;
            "num_onsets" := VNum 0 ]}.

(** One step of the loop over frames: the pitch of the strongest bin of
    frame [t], kept when it is positive. *)
Definition pitch_at (pitches magnitudes : matrix) (t : nat)
    : option (option Qc) :=
  col ← mapM (λ row : list Qc, row !! t) magnitudes;
  index ← np_argmax col;
  row ← pitches !! index;
  pitch ← row !! t;
  Some (if decide (0 < pitch) then Some pitch else None).

Definition compute_pitch_profile (audio : audio) (sr : Z) : option dict :=
  '(pitches, magnitudes) ← piptrack audio sr;
  let frames := length (default [] (head pitches)) in
  picked ← mapM (pitch_at pitches magnitudes) (seq 0 frames);
  let pitch_track := omap id picked in
  match np_max pitch_track, np_min pitch_track with
  | Some hi, Some lo =>
      Some {[ "mean_pitch" := VNum (np_mean pitch_track);
              "pitch_range" := VNum (hi - lo);
              "pitch_variance" := VNum (np_var pitch_track) ]}
  | _, _ =>
      Some {[ "mean_pitch" := VNum 0; "pitch_range" := VNum 0;
              "pitch_variance" := VNum 0 ]}
  end.

Definition compute_spatial_quality (audio : audio) (sr : Z) : option Qc :=
  rolloff ← spectral_rolloff audio sr (Q2Qc (85 # 100));
  zcr ← zero_crossing_rate audio;
  let openness := np_mean (concat rolloff) / (Qc_of_Z sr / Qc_of_Z 2)
                  + np_mean (concat zcr) in
  Some (np_clip openness 0 1).

Definition extract_semantic_features (audio : audio) (sr : Z) : option dict :=
  emotional_valence ← compute_valence audio sr;
  energy_level ← compute_energy audio;
  temporal_complexity ← compute_rhythm_complexity audio sr;
  harmonic_richness ← compute_harmonic_content audio sr;
  spectral_trajectory ← compute_spectral_motion audio sr;
  textural_density ← compute_texture audio sr;
  timbre_vector ← compute_timbre audio sr;
  onset_pattern ← compute_onset_structure audio sr;
  pitch_profile ← compute_pitch_profile audio sr;
  spatial_openness ← compute_spatial_quality audio sr;
  Some (<["spatial_openness" := VNum spatial_openness]>
       (<["pitch_profile" := VDict pitch_profile]>
       (<["onset_pattern" := VDict onset_pattern]>
       (<["timbre_vector" := VArr timbre_vector]>
       (<["textural_density" := VNum textural_density]>
       (<["spectral_trajectory" := VNum spectral_trajectory]>
       (<["harmonic_richness" := VNum harmonic_richness]>
       (<["temporal_complexity" := VNum temporal_complexity]>
       (<["energy_level" := VNum energy_level]>
       (<["emotional_valence" := VNum emotional_valence]> ∅)))))))))).

(** ** [train_atomic_sounds]

    The directory tree as the loop sees it: a tier path that does not
    exist is [None]; an entry of a tier has a name, may or may not be a
    directory, and lists its [*.wav] files, each with what [librosa.load]
    makes of it at the engine's sample rate ([None] when loading raises). *)

Record wav_file := WavFile {
  wav_name : string;
  wav_audio : option audio
}.

Record dir_entry := DirEntry {
  entry_name : string;
  entry_is_dir : bool;
  entry_wavs : list wav_file
}.

(** The body of [try: ... except Exception: continue] for one file:
    [None] when loading or extraction raised and the file is skipped. *)
Definition process_file (sr : Z) (audio_file : wav_file) : option dict :=
  audio ← wav_audio audio_file;
  extract_semantic_features audio sr.

Definition category_samples (sr : Z) (category_dir : dir_entry) : list dict :=
  omap (process_file sr) (entry_wavs category_dir).

Definition learn_category (self : engine) (category_dir : dir_entry)
    : option engine :=
  if entry_is_dir category_dir then
    match category_samples (sr self) category_dir with
    | [] => Some self
    | samples =>
        prototype ← average_features samples;
        Some (Engine (sr self)
                (<[entry_name category_dir := prototype]> (atomic_sounds self))
                (soundscapes self) (semantic_vocabulary self))
    end
  else Some self.

(** A loop whose body may raise. *)
Definition for_each {A : Type} (body : engine → A → option engine)
    (self : engine) (items : list A) : option engine :=
  foldl (λ acc x, e ← acc; body e x) (Some self) items.

Definition learn_tier (self : engine) (tier : option (list dir_entry))
    : option engine :=
  match tier with
  | None => Some self
  | Some entries => for_each learn_category self entries
  end.

Definition train_atomic_sounds (self : engine)
    (tier1 tier2 tier3 : option (list dir_entry)) : option engine :=
  for_each learn_tier self [tier1; tier2; tier3].

(** The entries the three loops visit, in order. *)
Definition processed_entries (tier1 tier2 tier3 : option (list dir_entry))
    : list dir_entry :=
  default [] tier1 ++ default [] tier2 ++ default [] tier3.

(** An entry contributes when it is a directory with at least one file
    that loads and extracts. *)
Definition has_sample (sr : Z) (category_dir : dir_entry) : Prop :=
  entry_is_dir category_dir = true ∧
  ∃ audio_file, audio_file ∈ entry_wavs category_dir ∧
                is_Some (process_file sr audio_file).

(** The same tree with the files that fail to load or extract removed. *)
Definition without_failed (sr : Z) (category_dir : dir_entry) : dir_entry :=
  DirEntry (entry_name category_dir) (entry_is_dir category_dir)
           (filter (λ audio_file, is_Some (process_file sr audio_file))
                   (entry_wavs category_dir)).

Definition tier_without_failed (sr : Z) (tier : option (list dir_entry))
    : option (list dir_entry) :=
  fmap (M:=list) (without_failed sr) <$> tier.

End Extractor.

(** ** What the aggregator is meant to compute

    The element-wise mean of a non-empty list of values, in the words of
    the specification: scalars are averaged as numbers, arrays component by
    component, and dictionaries key by key, each key over the values of the
    dictionaries that contain it. *)
Inductive elementwise_mean : list value → value → Prop :=
| mean_scalars xs :
    xs ≠ [] →
    elementwise_mean (VNum <$> xs) (VNum (np_mean xs))
| mean_arrays arrs a m :
    arrs ≠ [] → same_length m arrs → length a = m →
    (∀ j, (j < m)%nat → a !! j = Some (np_mean (column j arrs))) →
    elementwise_mean (VArr <$> arrs) (VArr a)
| mean_dicts ds r :
    ds ≠ [] →
    (∀ key, key ∉ all_keys ds → r !! key = None) →
    (∀ key, key ∈ all_keys ds →
       ∃ v, r !! key = Some v ∧
            elementwise_mean (values_of key ds) v) →
    elementwise_mean (VDict <$> ds) (VDict r).

(** ** What the blender is meant to compute

    The weighted average of values paired with their weights: the weights
    of the values that take part are renormalised (the sum is divided by
    their total), arrays are blended component by component, and
    dictionaries key by key over the dictionaries that contain the key,
    each with its own weight. *)
Definition weighted_average (xws : list (Qc * Qc)) : Qc :=
  np_sum (zip_with Qcmult (xws.*1) (xws.*2)) / np_sum (xws.*2).

Inductive weighted_mean : list (value * Qc) → value → Prop :=
| wmean_scalars xws :
    np_sum (xws.*2) ≠ 0 →
    weighted_mean (prod_map VNum id <$> xws) (VNum (weighted_average xws))
| wmean_arrays aws a m :
    aws ≠ [] → same_length m (aws.*1) → np_sum (aws.*2) ≠ 0 → length a = m →
    (∀ j, (j < m)%nat →
       a !! j = Some (weighted_average (zip (column j (aws.*1)) (aws.*2)))) →
    weighted_mean (prod_map VArr id <$> aws) (VArr a)
| wmean_dicts dws r :
    dws ≠ [] →
    (∀ key, key ∉ all_keys (dws.*1) → r !! key = None) →
    (∀ key, key ∈ all_keys (dws.*1) →
       ∃ v, r !! key = Some v ∧
            weighted_mean (select_key key (dws.*1) (dws.*2)) v) →
    weighted_mean (prod_map VDict id <$> dws) (VDict r).

(** One word matches one learned sound: through the semantic map, or because
    the word occurs in the sound's name. *)
Definition semantic_match (word sound : string) : Prop :=
  ∃ sounds, semantic_map !! word = Some sounds ∧ sound ∈ sounds.

Definition word_matches (atomic : gmap string dict) (word sound : string) : Prop :=
  is_Some (atomic !! sound) ∧
  (semantic_match word sound ∨ contains word sound = true).

(** The reading of "substring matching as a fallback" in which the sound
    names are searched only for a word that the semantic map did not
    resolve to a learned sound. *)
Definition semantic_hits (atomic : gmap string dict) (word : string) : gset string :=
  list_to_set (filter (λ sound, is_Some (atomic !! sound))
                      (default [] (semantic_map !! word))).

Definition fallback_match_word (atomic : gmap string dict) (word : string)
    : gset string :=
  if decide (semantic_hits atomic word = ∅)
  then filter (λ sound_name, contains word sound_name = true) (dom atomic)
  else semantic_hits atomic word.

Definition fallback_match_words (atomic : gmap string dict) (words : list string)
    : gset string :=
  ⋃ (fallback_match_word atomic <$> words).

(** The harmonic-percussive ratio as the specification words it: the energy
    of the harmonic component over the energy of the percussive one. *)
Definition harmonic_percussive_ratio (harmonic percussive : audio) : Qc :=
  sum_squares harmonic / sum_squares percussive.

(** ** Shapes of feature dictionaries

    The extractor always produces the same layout: scalars, one array of a
    fixed length, and two dictionaries of scalars.  A schema records such a
    layout; it is the invariant of the learned prototypes. *)
Inductive kind := KNum | KArr (n : nat).
Inductive field := FLeaf (k : kind) | FDict (fields : gmap string kind).

Definition has_kind (k : kind) (v : value) : bool :=
  match k, v with
  | KNum, VNum _ => true
  | KArr n, VArr a => bool_decide (length a = n)
  | _, _ => false
  end.

Definition check_entry {A} (check : A → value → bool)
    (s : option A) (v : option value) : option bool :=
  match s, v with
  | Some s', Some v' => Some (check s' v')
  | None, None => None
  | _, _ => Some false
  end.

(** [d] has exactly the keys of [S], each with a value of the right shape. *)
Definition conforms {A} (check : A → value → bool) (S : gmap string A)
    (d : dict) : Prop :=
  map_Forall (λ _ (ok : bool), ok = true) (merge (check_entry check) S d).

#[global] Instance conforms_dec {A} (check : A → value → bool) S d :
  Decision (conforms check S d).
Proof. unfold conforms. apply _. Defined.

Definition has_field (f : field) (v : value) : bool :=
  match f, v with
  | FLeaf k, _ => has_kind k v
  | FDict fields, VDict d => bool_decide (conforms has_kind fields d)
  | FDict _, _ => false
  end.

Definition feature_schema : gmap string field :=
  <["spatial_openness" := FLeaf KNum]>
  (<["pitch_profile" := FDict {[ "mean_pitch" := KNum; "pitch_range" := KNum;
                                 "pitch_variance" := KNum ]}]>
  (<["onset_pattern" := FDict {[ "mean_ioi" := KNum; "ioi_variance" := KNum;
                                 "num_onsets" := KNum ]}]>
  (<["timbre_vector" := FLeaf (KArr 13)]>
  (<["textural_density" := FLeaf KNum]>
  (<["spectral_trajectory" := FLeaf KNum]>
  (<["harmonic_richness" := FLeaf KNum]>
  (<["temporal_complexity" := FLeaf KNum]>
  (<["energy_level" := FLeaf KNum]>
  (<["emotional_valence" := FLeaf KNum]> ∅))))))))).

(** The engine's invariant: every stored prototype has the extractor's
    layout.  [train_atomic_sounds] is the only writer of [atomic_sounds]. *)
Definition learned (self : engine) : Prop :=
  map_Forall (λ _ prototype, conforms has_field feature_schema prototype)
             (atomic_sounds self).

Definition ten_keys : gset string :=
  {[ "emotional_valence"; "energy_level"; "temporal_complexity";
     "harmonic_richness"; "spectral_trajectory"; "textural_density";
     "timbre_vector"; "onset_pattern"; "pitch_profile"; "spatial_openness" ]}.

(** ** A small stand-in for librosa

    Used to run the engine on concrete inputs: every routine returns the
    signal itself in the expected layout, [hpss] splits the samples at even
    and odd positions, [tanh] is replaced by clipping to [[-1, 1]], and an
    empty signal makes [chroma_cqt] raise. *)
Fixpoint even_samples (y : audio) : audio :=
  match y with
  | [] => []
  | x :: y' => x :: match y' with [] => [] | _ :: y'' => 0 :: even_samples y'' end
  end.
Definition odd_samples (y : audio) : audio :=
  match y with [] => [] | _ :: y' => 0 :: even_samples y' end.

Definition toy_librosa : Librosa := {|
  chroma_cqt y _ := match y with [] => None | _ => Some (replicate 12 y) end;
  rms y := Some [y];
  onset_strength y _ := Some y;
  hpss y := Some (even_samples y, odd_samples y);
  spectral_centroid y _ := Some [y];
  spectral_flatness y := Some [y];
  mfcc y _ n_mfcc := Some (replicate n_mfcc y);
  onset_detect y _ := Some (Z.of_nat <$> seq 0 (length y));
  piptrack y _ := Some ([y], [y]);
  spectral_rolloff y _ _ := Some [y];
  zero_crossing_rate y := Some [y];
  np_tanh x := np_clip x (-1) 1;
  np_log x := x - 1;
  np_polyfit _ _ deg := Some (replicate (S deg) 0)
|}.

Definition q (a : Z) (b : positive) : Qc := Q2Qc (a # b).

(** ** Concrete inputs

    A sample-rate-22050 engine with nothing learned, a small training tree
    (one file that does not load, one empty clip on which extraction
    raises, an entry that is not a directory and a directory without a
    usable file), and the engine learned from it with [toy_librosa]. *)
Definition fresh_engine : engine := Engine 22050 ∅ ∅ ∅.

Definition thunder_dir : dir_entry :=
  DirEntry "thunder" true [WavFile "t1.wav" (Some [q 1 2; q 1 4])].

Definition whale_dir : dir_entry :=
  DirEntry "whale_song" true
    [WavFile "w1.wav" (Some [q 1 1; q 2 1]);
     WavFile "broken.wav" None;
     WavFile "empty.wav" (Some []);
     WavFile "w2.wav" (Some [q 3 1; q 4 1])].

Definition demo_tier : option (list dir_entry) :=
  Some [thunder_dir; whale_dir;
        DirEntry "notes.txt" false [];
        DirEntry "silence" true [WavFile "broken.wav" None]].

Definition demo_engine : engine :=
  default fresh_engine
    (train_atomic_sounds (L:=toy_librosa) fresh_engine demo_tier None (Some [])).

Definition demo_features : dict :=
  default ∅ (extract_semantic_features (L:=toy_librosa) [q 3 1; q 4 1] 22050).

(** Two listings of a set: its elements in the map's own order, and the
    same list reversed. *)
Definition elements_order : SetOrder := {| list_of_set := elements |}.

Definition reversed_order : SetOrder :=
  {| list_of_set := λ X, reverse (elements X) |}.

Definition demo_scene : scene :=
  match (generate_scene_from_text (SO:=elements_order)
           demo_engine "Whale  THUNDER").1 with
  | Some (Some sc) => sc
  | _ => Scene ∅ [] ""
  end.

(** An engine trained on three categories whose names are those of the
    semantic map; the word "sea" is mapped to two of them and occurs in
    the name of the third. *)
Definition sea_tier : option (list dir_entry) :=
  Some [DirEntry "underwater_ambience" true
          [WavFile "u1.wav" (Some [q 1 2; q 1 4])];
        DirEntry "whale_song" true
          [WavFile "w1.wav" (Some [q 1 1; q 2 1])];
        DirEntry "sealion_shrimp" true
          [WavFile "s1.wav" (Some [q 3 1; q 4 1])]].

Definition sea_engine : engine :=
  default fresh_engine
    (train_atomic_sounds (L:=toy_librosa) fresh_engine sea_tier None None).

(** Three prototypes whose nested dictionaries do not share their keys,
    blended with the weights 1/2, 1/4, 1/4. *)
Definition uneven_sounds : gmap string dict :=
  {[ "a" := {[ "onset_pattern" := VDict {[ "x" := VNum (q 1 1) ]} ]};
     "b" := {[ "onset_pattern" := VDict {[ "y" := VNum (q 2 1) ]} ]};
     "c" := {[ "onset_pattern" := VDict {[ "y" := VNum (q 6 1) ]} ]} ]}.

Definition uneven_weights : list Qc := [q 1 2; q 1 4; q 1 4].

(** The nested value stored under [outer] and then [inner], if any. *)
Definition nested_value (outer inner : string) (d : dict) : option value :=
  v ← d !! outer; sub ← as_dict v; sub !! inner.

(** ** Further definitions: training, prompts, averaging and listening *)

Section TrainingModel.
Context {L : Librosa}.

(** The directory that decides the prototype of [name]: the last processed
    directory of that name with at least one extracted sample. *)
Definition learns (sr : Z) (name : string) (category_dir : dir_entry) : Prop :=
  entry_is_dir category_dir = true ∧ entry_name category_dir = name ∧
  category_samples sr category_dir ≠ [].

#[global] Instance learns_dec sr name c : Decision (learns sr name c).
Proof. unfold learns. apply _. Defined.

Definition last_learned (sr : Z) (entries : list dir_entry) (name : string)
    : option dir_entry :=
  list.last (filter (learns sr name) entries).

End TrainingModel.

(** The prototype that [demo_engine] learned for "thunder". *)
Definition thunder_prototype : dict :=
  default ∅ (atomic_sounds demo_engine !! "thunder").

(** What a caller reads from a result besides the echoed prompt. *)
Definition scene_content (result : option (option scene))
    : option (option (dict * list string)) :=
  fmap (M:=option) (fmap (M:=option) (λ sc, (latent sc, components sc))) result.

(** The characters of a string. *)
Fixpoint chars (s : string) : list Ascii.ascii :=
  match s with
  | EmptyString => []
  | String c s' => c :: chars s'
  end.

(** Values of one kind: all scalars, all arrays of one length, or all
    dictionaries. *)
Definition homogeneous (values : list value) : Prop :=
  (∃ xs, values = VNum <$> xs) ∨
  (∃ m arrs, values = VArr <$> arrs ∧ same_length m arrs) ∨
  (∃ ds, values = VDict <$> ds).

(** ** [listen_internal]

    A Python dictionary lists its items in insertion order, which a finite
    map does not record: the listing is an interface, known only to be an
    enumeration of the dictionary. *)
Class DictOrder := {
  items : dict → list (string * value)
}.

Class DictOrderLaw (O : DictOrder) : Prop := {
  items_perm : ∀ d : dict, items d ≡ₚ map_to_list d
}.

(** The condition [value > t]: the comparison, then the truth value of its
    result.  A one-element array compares like its element; a longer array
    has no truth value, an empty one has none either (numpy 2.2 and later)
    and a dictionary cannot be compared: these raise. *)
Definition exceeds (v : value) (t : Qc) : option bool :=
  match v with
  | VNum x => Some (bool_decide (t < x))
  | VArr [x] => Some (bool_decide (t < x))
  | _ => None
  end.

(** The condition [value < t]. *)
Definition below (v : value) (t : Qc) : option bool :=
  match v with
  | VNum x => Some (bool_decide (x < t))
  | VArr [x] => Some (bool_decide (x < t))
  | _ => None
  end.

(** [latent.get(key, 0)] *)
Definition get_or_zero (latent : dict) (key : string) : value :=
  default (VNum 0) (latent !! key).

(** [if v > hi: a elif v > lo: b else: c] *)
Definition three_levels (v : value) (hi lo : Qc) (a b c : string)
    : option string :=
  exceeds v hi ≫= λ high : bool,
  if high then Some a else
  exceeds v lo ≫= λ mid : bool,
  Some (if mid then b else c).

(** [if v > hi: a elif v < lo: b else: c] *)
Definition two_sided (v : value) (hi lo : Qc) (a b c : string)
    : option string :=
  exceeds v hi ≫= λ high : bool,
  if high then Some a else
  below v lo ≫= λ low : bool,
  Some (if low then b else c).

Definition mood_of (latent : dict) : option string :=
  two_sided (get_or_zero latent "emotional_valence") (q 3 10) (- q 3 10)
    "positive/uplifting" "negative/melancholic" "neutral/ambient".

Definition energy_of (latent : dict) : option string :=
  three_levels (get_or_zero latent "energy_level") (q 15 100) (q 5 100)
    "high (active/intense)" "medium (moderate)" "low (calm/quiet)".

Definition pattern_of (latent : dict) : option string :=
  exceeds (get_or_zero latent "temporal_complexity") (q 5 10) ≫= λ high : bool,
  Some (if high then "complex/unpredictable" else "simple/regular").

Definition character_of (latent : dict) : option string :=
  three_levels (get_or_zero latent "harmonic_richness") (q 6 10) (q 3 10)
    "tonal/melodic" "mixed (tonal + noise)" "noisy/percussive".

Definition evolution_of (latent : dict) : option string :=
  two_sided (get_or_zero latent "spectral_trajectory") (q 1 10) (- q 1 10)
    "brightening (rising energy)" "darkening (falling energy)"
    "stable (unchanging)".

Definition texture_of (latent : dict) : option string :=
  three_levels (get_or_zero latent "textural_density") (q 6 10) (q 3 10)
    "dense/rich (many layers)" "moderate" "sparse/simple (few elements)".

Definition space_of (latent : dict) : option string :=
  three_levels (get_or_zero latent "spatial_openness") (q 6 10) (q 3 10)
    "open/expansive (outdoor feeling)" "medium"
    "enclosed/intimate (indoor feeling)".

Section Listening.
Context {O : DictOrder}.

(** One line of the printed excerpt: a number is formatted; of an array the
    first two entries are read; of a dictionary the first value is
    formatted as a number. *)
Definition excerpt_line (v : value) : option unit :=
  match v with
  | VNum _ => Some ()
  | VArr a => if decide (2 ≤ length a)%nat then Some () else None
  | VDict d =>
      match items d with
      | (_, VNum _) :: _ => Some ()
      | _ => None
      end
  end.

(** [for key, value in list(latent.items())[:7]: ...] *)
Definition print_excerpt (latent : dict) : option (list unit) :=
  mapM excerpt_line ((take 7 (items latent)).*2).

(** The outer [option] is [None] when an exception escapes; the inner one
    is Python's [None], returned for a missing scene. *)
Definition listen_internal (scene_representation : option scene)
    : option (option (gmap string string)) :=
  match scene_representation with
  | None => Some None
  | Some sc =>
      let latent := latent sc in
      mood ← mood_of latent;
      energy ← energy_of latent;
      pattern ← pattern_of latent;
      character ← character_of latent;
      evolution ← evolution_of latent;
      texture ← texture_of latent;
      space ← space_of latent;
      _ ← print_excerpt latent;
      Some (Some (<["space" := space]>
                 (<["texture" := texture]>
                 (<["evolution" := evolution]>
                 (<["character" := character]>
                 (<["pattern" := pattern]>
                 (<["energy" := energy]>
                 (<["mood" := mood]> ∅))))))))
  end.

End Listening.

Definition seven_labels : gset string :=
  {[ "mood"; "energy"; "pattern"; "character"; "evolution"; "texture"; "space" ]}.

(** The descriptors that [listen_internal] reads. *)
Definition seven_descriptors : list string :=
  [ "emotional_valence"; "energy_level"; "temporal_complexity";
    "harmonic_richness"; "spectral_trajectory"; "textural_density";
    "spatial_openness" ].

(** The listing in the map's own order. *)
Definition map_order : DictOrder := {| items := map_to_list |}.

(** The prototypes of the two sounds learned by [demo_engine]. *)
Definition demo_prototypes : list dict :=
  default [] (mapM (λ name, atomic_sounds demo_engine !! name)
                   ["thunder"; "whale_song"]).

(** A scene whose latent holds the seven scalar descriptors of
    [demo_scene] and nothing else. *)
Definition scalar_scene : scene :=
  Scene (filter (λ kv, kv.1 ∈ seven_descriptors) (latent demo_scene))
        ["thunder"] "thunder".

(** What [listen_internal] returns for [demo_scene]. *)
Definition demo_interpretation : gmap string string :=
  default ∅ (mjoin (listen_internal (O:=map_order) (Some demo_scene))).

(** A scene with a dictionary in the place of a descriptor. *)
Definition nested_scene : scene :=
  Scene {[ "energy_level" := VDict ∅ ]} ["thunder"] "thunder".

(** A prompt of a tab and two spaces. *)
Definition blank_prompt : string := String (Ascii.ascii_of_nat 9) "  ".

(** A second directory named "thunder", in a later tier. *)
Definition thunder_again_dir : dir_entry :=
  DirEntry "thunder" true [WavFile "t2.wav" (Some [q 3 1; q 4 1])].

(** The engine trained on [Tier_1/thunder] and [Tier_2/thunder]. *)
Definition twice_trained : engine :=
  default fresh_engine
    (train_atomic_sounds (L:=toy_librosa) fresh_engine
       (Some [thunder_dir]) (Some [thunder_again_dir]) None).

(** The values stored under [outer] and then [inner] in the prototypes that
    have them, each with the weight of its prototype. *)
Definition nested_selected (outer inner : string) (latents : list dict)
    (weights : list Qc) : list (value * Qc) :=
  omap (λ p : dict * Qc, v ← nested_value outer inner p.1; Some (v, p.2))
       (zip latents weights).

(** [uneven_sounds] blended with the default weights. *)
Definition uneven_blend : dict :=
  default ∅ (blend_sounds uneven_sounds ["a"; "b"; "c"] None).

Definition uneven_onsets : dict :=
  default ∅ (uneven_blend !! "onset_pattern" ≫= as_dict).

(** Two samples that share one key and have one key each of their own. *)
Definition partial_samples : list dict :=
  [ {[ "energy_level" := VNum (q 1 2); "bass" := VNum (q 1 1) ]};
    {[ "energy_level" := VNum (q 1 4); "treble" := VNum (q 3 1) ]} ].


(** * Proofs

    ** The key loop and the key sets *)

Lemma for_keys_lookup keys body d :
  for_keys keys body = Some d →
  ∀ k, d !! k = if decide (k ∈ keys) then mjoin (body k) else None.
Proof.
  revert d. induction keys as [|key keys IH]; intros d Hd k; simpl in Hd.
  - injection Hd as <-. rewrite lookup_empty. by rewrite decide_False by set_solver.
  - destruct (for_keys keys body) as [blended|] eqn:Hb; [|done].
    simpl in Hd. destruct (body key) as [r|] eqn:Hr; [|done].
    simpl in Hd. injection Hd as <-.
    specialize (IH _ eq_refl k).
    destruct (decide (k = key)) as [->|Hne].
    + rewrite decide_True by set_solver. rewrite Hr. simpl.
      destruct r as [v|]; simpl.
      * by rewrite lookup_insert_eq.
      * rewrite IH. case_decide; [by rewrite Hr|done].
    + assert (d' : (match r with Some v => <[key:=v]> blended | None => blended end) !! k = blended !! k).
      { destruct r; [by rewrite lookup_insert_ne|done]. }
      rewrite d', IH. repeat case_decide; set_solver.
Qed.

Lemma for_keys_is_Some keys body :
  is_Some (for_keys keys body) ↔ ∀ k, k ∈ keys → is_Some (body k).
Proof.
  induction keys as [|key keys IH]; simpl.
  - split; [set_solver|eauto].
  - split.
    + intros [d Hd] k Hk.
      destruct (for_keys keys body) as [blended|] eqn:Hb; [|done].
      simpl in Hd. destruct (body key) as [r|] eqn:Hr; [|done].
      apply elem_of_cons in Hk as [->|Hk]; [by rewrite Hr|].
      apply IH; eauto.
    + intros H.
      destruct (proj2 IH) as [blended ->]; [set_solver|].
      destruct (H key) as [r ->]; [set_solver|]. simpl. eauto.
Qed.

Lemma for_keys_ext keys body body' :
  (∀ k, k ∈ keys → body k = body' k) → for_keys keys body = for_keys keys body'.
Proof.
  induction keys as [|key keys IH]; intros H; simpl; [done|].
  rewrite IH by set_solver. rewrite (H key) by set_solver. done.
Qed.

Lemma elem_of_all_keys (ds : list dict) k :
  k ∈ all_keys ds ↔ ∃ d, d ∈ ds ∧ is_Some (d !! k).
Proof.
  unfold all_keys. rewrite elem_of_union_list. split.
  - intros (X & HX & Hk). apply list_elem_of_fmap in HX as (d & -> & Hd).
    exists d. split; [done|]. by apply elem_of_dom.
  - intros (d & Hd & Hk). exists (dom d). split; [|by apply elem_of_dom].
    apply list_elem_of_fmap. eauto.
Qed.

Lemma values_nil_iff (ds : list dict) k :
  values_of k ds = [] ↔ k ∉ all_keys ds.
Proof.
  unfold values_of.
  rewrite elem_of_all_keys. induction ds as [|d ds IH]; simpl.
  - split; [|done]. intros _ (d & Hd & _). set_solver.
  - destruct (d !! k) as [v|] eqn:Hv.
    + split; [done|]. intros H. destruct H. exists d. split; [left|]; eauto.
    + rewrite IH. split.
      * intros H (d' & Hd' & Hk). apply elem_of_cons in Hd' as [->|Hd'].
        -- rewrite Hv in Hk. by destruct Hk.
        -- apply H; eauto.
      * intros H (d' & Hd' & Hk). apply H. exists d'. split; [by right|done].
Qed.


Lemma depth_lookup (d : dict) k v : d !! k = Some v → (depth v < depth (VDict d))%nat.
Proof.
  simpl. revert k v.
  apply (map_fold_weak_ind (λ b (m : dict), ∀ k v, m !! k = Some v → (depth v < S b)%nat)).
  - intros k v. by rewrite lookup_empty.
  - intros i x m r Hi IH k v. rewrite lookup_insert. case_decide.
    + intros [= ->]. lia.
    + intros H'. specialize (IH _ _ H'). lia.
Qed.

Lemma depth_list_elem (fl : list dict) d : d ∈ fl → (depth (VDict d) ≤ depth_list fl)%nat.
Proof.
  intros Hd. apply max_list_elem_of_le, list_elem_of_fmap. eauto.
Qed.

Lemma depth_list_lt (fl : list dict) b :
  (0 < b)%nat → (∀ d, d ∈ fl → (depth (VDict d) < b)%nat) → (depth_list fl < b)%nat.
Proof.
  intros Hb H. unfold depth_list. induction fl as [|d fl IH]; simpl; [done|].
  apply Nat.max_lub_lt; [apply H; left|apply IH; intros; apply H; by right].
Qed.

Lemma values_elem (fl : list dict) k v :
  v ∈ values_of k fl ↔ ∃ f, f ∈ fl ∧ f !! k = Some v.
Proof. unfold values_of. by rewrite list_elem_of_omap. Qed.

Lemma mapM_Some_elem {A B} (f : A → option B) l k y :
  mapM f l = Some k → y ∈ k → ∃ x, x ∈ l ∧ f x = Some y.
Proof.
  intros H%mapM_Some. induction H as [|x z l k Hx _ IH]; intros Hy.
  - by apply elem_of_nil in Hy.
  - apply elem_of_cons in Hy as [->|Hy].
    + exists x. split; [left|done].
    + destruct (IH Hy) as (x' & ? & ?). exists x'. split; [by right|done].
Qed.

Lemma depth_list_sub (fl : list dict) k ds :
  fl ≠ [] →
  mapM as_dict (values_of k fl) = Some ds →
  (depth_list ds < depth_list fl)%nat.
Proof.
  intros Hne Hds. apply depth_list_lt.
  - destruct fl as [|f fl]; [done|].
    pose proof (depth_list_elem (f :: fl) f (list_elem_of_here _ _)) as H.
    simpl in H. lia.
  - intros d Hd.
    destruct (mapM_Some_elem _ _ _ _ Hds Hd) as (v & Hv & Hvd).
    destruct v; simpl in Hvd; simplify_eq.
    apply values_elem in Hv as (f & Hf & Hk).
    eapply Nat.lt_le_trans; [exact (depth_lookup _ _ _ Hk)|by apply depth_list_elem].
Qed.

Lemma average_features_body_ext rec1 rec2 fl :
  (∀ k ds, fl ≠ [] → mapM as_dict (values_of k fl) = Some ds →
           rec1 ds = rec2 ds) →
  average_features_body rec1 fl = average_features_body rec2 fl.
Proof.
  intros H. unfold average_features_body. destruct fl as [|f fl]; [done|].
  apply for_keys_ext. intros k _. unfold average_key, average_values.
  destruct (values_of k (f :: fl)) as [|[]] eqn:Hv; try done.
  destruct (mapM as_dict _) as [ds|] eqn:Hds; [|done]. simpl.
  rewrite <-Hv in Hds. by rewrite (H _ _ ltac:(done) Hds).
Qed.

Lemma average_features_rec_fuel n m fl :
  (depth_list fl < n)%nat → (depth_list fl < m)%nat →
  average_features_rec n fl = average_features_rec m fl.
Proof.
  revert m fl. induction n as [|n IH]; intros [|m] fl Hn Hm; try lia.
  simpl. apply average_features_body_ext. intros k ds Hne Hds.
  pose proof (depth_list_sub _ _ _ Hne Hds). apply IH; lia.
Qed.

Lemma average_features_unfold fl :
  average_features fl = average_features_body average_features fl.
Proof.
  unfold average_features at 1. simpl.
  apply average_features_body_ext. intros k ds Hne Hds.
  pose proof (depth_list_sub _ _ _ Hne Hds).
  apply average_features_rec_fuel; lia.
Qed.


Lemma mapM_as_num_inv vs xs : mapM as_num vs = Some xs → vs = VNum <$> xs.
Proof.
  intros H. symmetry. apply (mapM_fmap_Some_inv as_num VNum _ _ H).
  by intros [] y [= ->].
Qed.
Lemma mapM_as_arr_inv vs xs : mapM as_arr vs = Some xs → vs = VArr <$> xs.
Proof.
  intros H. symmetry. apply (mapM_fmap_Some_inv as_arr VArr _ _ H).
  by intros [] y [= ->].
Qed.
Lemma mapM_as_dict_inv vs xs : mapM as_dict vs = Some xs → vs = VDict <$> xs.
Proof.
  intros H. symmetry. apply (mapM_fmap_Some_inv as_dict VDict _ _ H).
  by intros [] y [= ->].
Qed.

Lemma vec_sum_length m arrs : same_length m arrs → length (vec_sum m arrs) = m.
Proof.
  unfold vec_sum. induction 1 as [|a arrs Ha _ IH]; simpl.
  - by rewrite length_replicate.
  - rewrite length_zip_with, IH. lia.
Qed.

Lemma vec_sum_lookup m arrs j :
  same_length m arrs → (j < m)%nat →
  vec_sum m arrs !! j = Some (np_sum (column j arrs)).
Proof.
  intros Hs Hj. unfold vec_sum, column. induction Hs as [|a arrs Ha _ IH]; simpl.
  - by rewrite lookup_replicate_2.
  - rewrite lookup_zip_with, IH.
    destruct (lookup_lt_is_Some_2 a j) as [x Hx]; [lia|].
    by rewrite Hx.
Qed.

Lemma column_length m arrs j :
  same_length m arrs → (j < m)%nat → length (column j arrs) = length arrs.
Proof.
  intros Hs Hj. unfold column. induction Hs as [|a arrs Ha _ IH]; simpl; [done|].
  destruct (lookup_lt_is_Some_2 a j) as [x Hx]; [lia|].
  rewrite Hx. simpl. f_equal. apply IH.
Qed.

#[local] Arguments vec_sum : simpl never.
#[local] Arguments column : simpl never.

Lemma np_mean_axis0_Some values a :
  np_mean_axis0 values = Some a →
  ∃ arrs m, values = VArr <$> arrs ∧ arrs ≠ [] ∧ same_length m arrs ∧
    length a = m ∧ ∀ j, (j < m)%nat → a !! j = Some (np_mean (column j arrs)).
Proof.
  unfold np_mean_axis0. destruct (mapM as_arr values) as [arrs|] eqn:Harrs; [|done].
  simpl. destruct arrs as [|a0 arrs']; [done|].
  case_decide as Hs; [|done]. intros [= <-].
  exists (a0 :: arrs'), (length a0). split; [by apply mapM_as_arr_inv|].
  split; [done|]. split; [done|]. split.
  - by rewrite length_fmap, vec_sum_length.
  - intros j Hj. rewrite list_lookup_fmap, vec_sum_lookup by done. simpl.
    unfold np_mean. by rewrite (column_length _ _ _ Hs Hj).
Qed.

Lemma average_features_Some fl r :
  fl ≠ [] → average_features fl = Some r →
  ∀ key,
    (key ∉ all_keys fl → r !! key = None) ∧
    (key ∈ all_keys fl →
       ∃ v, r !! key = Some v ∧ average_key average_features fl key = Some (Some v)).
Proof.
  intros Hne Hr key. rewrite average_features_unfold in Hr.
  unfold average_features_body in Hr. destruct fl as [|f0 fl0] eqn:Hfl; [done|].
  rewrite <-Hfl in *.
  pose proof (for_keys_lookup _ _ _ Hr key) as Hlook.
  assert (is_Some (for_keys (elements (all_keys fl)) (average_key average_features fl)))
    as Hsome by (rewrite Hr; eauto).
  rewrite for_keys_is_Some in Hsome. specialize (Hsome key).
  rewrite elem_of_elements in Hsome. split; intros Hkey.
  - rewrite Hlook. rewrite decide_False; [done|]. by rewrite elem_of_elements.
  - rewrite Hlook. rewrite decide_True by by rewrite elem_of_elements.
    destruct (Hsome Hkey) as [res Hres]. rewrite Hres. simpl.
    destruct res as [v|]; [eauto|].
    unfold average_key, average_values in Hres.
    destruct (values_of key fl) as [|v0 vs] eqn:Hvals.
    { by apply values_nil_iff in Hvals. }
    destruct v0; simpl in Hres.
    + by destruct (np_mean_scalars _).
    + by destruct (np_mean_axis0 _).
    + destruct (mapM as_dict _); [|done]. simpl in Hres.
      by destruct (average_features _).
Qed.

Lemma average_features_mean_aux n fl r :
  (depth_list fl < n)%nat → fl ≠ [] →
  average_features fl = Some r →
  elementwise_mean (VDict <$> fl) (VDict r).
Proof.
  revert fl r. induction n as [|n IH]; intros fl r Hn Hne Hr; [lia|].
  pose proof (average_features_Some _ _ Hne Hr) as Hkeys.
  constructor; [done|intros key; apply Hkeys|].
  intros key Hkey. destruct (proj2 (Hkeys key) Hkey) as (v & Hv & Hres).
  exists v. split; [done|].
  unfold average_key, average_values in Hres.
  destruct (values_of key fl) as [|v0 vs] eqn:Hvals; [done|].
  rewrite <-Hvals in *.
  assert (values_of key fl ≠ []) as Hvne by by rewrite Hvals.
  clear Hvals. destruct v0.
  - unfold np_mean_scalars in Hres.
    destruct (mapM as_num _) as [xs|] eqn:Hxs; [|done].
    simpl in Hres. injection Hres as <-.
    apply mapM_as_num_inv in Hxs. rewrite Hxs in *. constructor.
    by intros ->.
  - destruct (np_mean_axis0 _) as [a'|] eqn:Ha; [|done].
    simpl in Hres. injection Hres as <-.
    destruct (np_mean_axis0_Some _ _ Ha) as (arrs & m & -> & ? & ? & ? & ?).
    by econstructor.
  - destruct (mapM as_dict _) as [ds|] eqn:Hds; [|done]. simpl in Hres.
    destruct (average_features ds) as [r'|] eqn:Hr'; [|done].
    simpl in Hres. injection Hres as <-.
    pose proof (depth_list_sub _ _ _ Hne Hds) as Hsub.
    apply mapM_as_dict_inv in Hds. rewrite Hds in *.
    apply IH; [lia| |done]. by intros ->.
Qed.

Lemma average_features_mean fl r :
  fl ≠ [] → average_features fl = Some r →
  elementwise_mean (VDict <$> fl) (VDict r).
Proof. apply (average_features_mean_aux (S (depth_list fl))). lia. Qed.

(** ** The extractor *)

(** Inversion of a chain of binds in the option monad. *)
Ltac bind_inv H :=
  repeat match type of H with
  | (?m ≫= _) = Some _ =>
      let E := fresh "E" in
      destruct m eqn:E; simpl in H; [|discriminate H]
  end.

Lemma Qc_max_ge x y : y ≤ Qc_max x y ∧ x ≤ Qc_max x y.
Proof.
  unfold Qc_max. case_decide as H.
  - split; [apply Qcle_refl|by apply Qclt_le_weak].
  - split; [by apply Qcnot_lt_le|apply Qcle_refl].
Qed.

Lemma np_clip_range x lo hi : lo ≤ hi → lo ≤ np_clip x lo hi ∧ np_clip x lo hi ≤ hi.
Proof.
  intros Hlh. unfold np_clip, Qc_min. case_decide as H.
  - split; [apply Qc_max_ge|by apply Qclt_le_weak].
  - split; [done|apply Qcle_refl].
Qed.

Section ExtractorFacts.
Context {L : Librosa}.

Lemma extract_semantic_features_inv audio sr f :
  extract_semantic_features audio sr = Some f →
  ∃ ev el tc hr st td tv op pp so,
    compute_valence audio sr = Some ev ∧
    compute_energy audio = Some el ∧
    compute_rhythm_complexity audio sr = Some tc ∧
    compute_harmonic_content audio sr = Some hr ∧
    compute_spectral_motion audio sr = Some st ∧
    compute_texture audio sr = Some td ∧
    compute_timbre audio sr = Some tv ∧
    compute_onset_structure audio sr = Some op ∧
    compute_pitch_profile audio sr = Some pp ∧
    compute_spatial_quality audio sr = Some so ∧
    f = <["spatial_openness" := VNum so]>
       (<["pitch_profile" := VDict pp]>
       (<["onset_pattern" := VDict op]>
       (<["timbre_vector" := VArr tv]>
       (<["textural_density" := VNum td]>
       (<["spectral_trajectory" := VNum st]>
       (<["harmonic_richness" := VNum hr]>
       (<["temporal_complexity" := VNum tc]>
       (<["energy_level" := VNum el]>
       (<["emotional_valence" := VNum ev]> ∅))))))))).
Proof.
  unfold extract_semantic_features. intros H. bind_inv H.
  injection H as <-. repeat eexists.
Qed.

Lemma extract_keys audio sr f :
  extract_semantic_features audio sr = Some f → dom f = ten_keys.
Proof.
  intros H. apply extract_semantic_features_inv in H
    as (ev & el & tc & hr & st & td & tv & op & pp & so & _ & _ & _ & _ & _ & _ & _ & _ & _ & _ & ->).
  rewrite !dom_insert_L, dom_empty_L. unfold ten_keys. set_solver.
Qed.

Lemma compute_harmonic_content_eq audio sr harmonic percussive :
  hpss audio = Some (harmonic, percussive) →
  compute_harmonic_content audio sr =
    Some (sum_squares harmonic
          / (sum_squares audio + eps)).
Proof. intros H. unfold compute_harmonic_content. by rewrite H. Qed.

Lemma harmonic_richness_lookup audio sr harmonic percussive f :
  hpss audio = Some (harmonic, percussive) →
  extract_semantic_features audio sr = Some f →
  f !! "harmonic_richness" =
    Some (VNum (sum_squares harmonic / (sum_squares audio + eps))).
Proof.
  intros Hh H. apply extract_semantic_features_inv in H
    as (ev & el & tc & hr & st & td & tv & op & pp & so
        & _ & _ & _ & Hhr & _ & _ & _ & _ & _ & _ & ->).
  rewrite (compute_harmonic_content_eq _ _ _ _ Hh) in Hhr. injection Hhr as <-.
  done.
Qed.

Context {LC : LibrosaContract L}.

Lemma compute_valence_range audio sr v :
  compute_valence audio sr = Some v → -1 ≤ v ∧ v ≤ 1.
Proof.
  unfold compute_valence. intros H. bind_inv H. injection H as <-.
  apply np_tanh_range.
Qed.

Lemma compute_spectral_motion_range audio sr v :
  compute_spectral_motion audio sr = Some v → -1 ≤ v ∧ v ≤ 1.
Proof.
  unfold compute_spectral_motion. intros H. bind_inv H.
  case_decide; [|by injection H as <-].
  bind_inv H. injection H as <-. apply np_tanh_range.
Qed.

Lemma compute_spatial_quality_range audio sr v :
  compute_spatial_quality audio sr = Some v → 0 ≤ v ∧ v ≤ 1.
Proof.
  unfold compute_spatial_quality. intros H. bind_inv H. injection H as <-.
  by apply np_clip_range.
Qed.

Lemma extract_ranges audio sr f :
  extract_semantic_features audio sr = Some f →
  ∃ valence trajectory openness,
    f !! "emotional_valence" = Some (VNum valence) ∧
    f !! "spectral_trajectory" = Some (VNum trajectory) ∧
    f !! "spatial_openness" = Some (VNum openness) ∧
    (-1 ≤ valence ∧ valence ≤ 1) ∧
    (-1 ≤ trajectory ∧ trajectory ≤ 1) ∧
    (0 ≤ openness ∧ openness ≤ 1).
Proof.
  intros H. apply extract_semantic_features_inv in H
    as (ev & el & tc & hr & st & td & tv & op & pp & so
        & Hev & _ & _ & _ & Hst & _ & _ & _ & _ & Hso & ->).
  exists ev, st, so. split_and!; try done.
  - by eapply compute_valence_range.
  - by eapply compute_valence_range.
  - by eapply compute_spectral_motion_range.
  - by eapply compute_spectral_motion_range.
  - by eapply compute_spatial_quality_range.
  - by eapply compute_spatial_quality_range.
Qed.
End ExtractorFacts.

(** ** Schemas are preserved by averaging *)

Lemma conforms_lookup {A} (check : A → value → bool) (S : gmap string A) (d : dict) :
  conforms check S d ↔
  ∀ key, match S !! key, d !! key with
         | Some s, Some v => check s v = true
         | None, None => True
         | _, _ => False
         end.
Proof.
  unfold conforms. rewrite map_Forall_lookup. split; intros H key.
  - specialize (H key). rewrite lookup_merge in H.
    destruct (S !! key), (d !! key); simpl in H; try done.
    + by apply H.
    + by specialize (H false eq_refl).
    + by specialize (H false eq_refl).
  - intros ok. specialize (H key). rewrite lookup_merge.
    destruct (S !! key), (d !! key); simpl; intros [= <-]; done.
Qed.

Lemma conforms_key {A} (check : A → value → bool) (S : gmap string A) d key :
  conforms check S d →
  (∀ s, S !! key = Some s → ∃ v, d !! key = Some v ∧ check s v = true) ∧
  (is_Some (d !! key) → is_Some (S !! key)).
Proof.
  intros H. pose proof (proj1 (conforms_lookup _ _ _) H key) as Hk.
  destruct (S !! key) as [s|], (d !! key) as [v|]; split; try done;
    try (intros ? [= ->]; by eauto); try (by intros []); eauto.
Qed.

Lemma conforms_values {A} (check : A → value → bool) (S : gmap string A) fl key s :
  Forall (conforms check S) fl → S !! key = Some s →
  Forall (λ v, check s v = true) (values_of key fl) ∧
  length (values_of key fl) = length fl.
Proof.
  intros Hfl Hs. unfold values_of. induction Hfl as [|d fl Hd _ IH]; simpl; [done|].
  destruct (proj1 (conforms_key _ _ _ key Hd) _ Hs) as (v & -> & Hv).
  destruct IH as [IH1 IH2]. simpl. split; [by constructor|by f_equal].
Qed.

Lemma conforms_all_keys {A} (check : A → value → bool) (S : gmap string A) fl key :
  fl ≠ [] → Forall (conforms check S) fl →
  key ∈ all_keys fl ↔ is_Some (S !! key).
Proof.
  intros Hne Hfl. rewrite elem_of_all_keys. split.
  - intros (d & Hd & Hk). rewrite list.Forall_forall in Hfl.
    by apply (conforms_key _ _ _ key (Hfl _ Hd)).
  - intros [s Hs]. destruct fl as [|d fl]; [done|]. exists d. split; [left|].
    apply Forall_cons_1 in Hfl as [Hd _].
    destruct (proj1 (conforms_key _ _ _ key Hd) _ Hs) as (v & -> & _). eauto.
Qed.

Lemma all_num vs :
  Forall (λ v, has_kind KNum v = true) vs → ∃ xs, vs = VNum <$> xs.
Proof.
  induction 1 as [|v vs Hv _ [xs ->]]; [by exists []|].
  destruct v as [x| |]; try done. by exists (x :: xs).
Qed.

Lemma all_arr n vs :
  Forall (λ v, has_kind (KArr n) v = true) vs →
  ∃ arrs, vs = VArr <$> arrs ∧ same_length n arrs.
Proof.
  induction 1 as [|v vs Hv _ (arrs & -> & Hs)];
    [exists []; split; [done|apply Forall_nil_2]|].
  destruct v as [|a|]; try done. simpl in Hv. apply bool_decide_eq_true in Hv.
  exists (a :: arrs). split; [done|]. by apply Forall_cons_2.
Qed.

Lemma all_dict fields vs :
  Forall (λ v, has_field (FDict fields) v = true) vs →
  ∃ ds, vs = VDict <$> ds ∧ Forall (conforms has_kind fields) ds.
Proof.
  induction 1 as [|v vs Hv _ (ds & -> & Hs)];
    [exists []; split; [done|apply Forall_nil_2]|].
  destruct v as [| |d]; try done. simpl in Hv. apply bool_decide_eq_true in Hv.
  exists (d :: ds). split; [done|]. by constructor.
Qed.

Lemma np_mean_scalars_nums xs : np_mean_scalars (VNum <$> xs) = Some (np_mean xs).
Proof. unfold np_mean_scalars. by rewrite mapM_fmap_Some. Qed.

Lemma np_mean_axis0_arrs n arrs :
  arrs ≠ [] → same_length n arrs →
  ∃ a, np_mean_axis0 (VArr <$> arrs) = Some a ∧ length a = n.
Proof.
  intros Hne Hs. unfold np_mean_axis0. rewrite mapM_fmap_Some by done. simpl.
  destruct arrs as [|a0 arrs]; [done|].
  assert (length a0 = n) as Ha0 by by apply Forall_cons_1 in Hs as [? _].
  rewrite Ha0. rewrite decide_True by done. eexists. split; [done|].
  by rewrite length_fmap, vec_sum_length.
Qed.

Lemma average_values_kind recurse k vs :
  vs ≠ [] → Forall (λ v, has_kind k v = true) vs →
  ∃ v, average_values recurse vs = Some (Some v) ∧ has_kind k v = true.
Proof.
  intros Hne Hvs. destruct k as [|n].
  - destruct (all_num _ Hvs) as [xs ->]. destruct xs as [|x xs]; [done|].
    unfold average_values. rewrite fmap_cons. rewrite <-fmap_cons.
    rewrite np_mean_scalars_nums. simpl. eauto.
  - destruct (all_arr _ _ Hvs) as (arrs & -> & Hs).
    destruct (np_mean_axis0_arrs n arrs) as (a & Ha & Hlen); [by intros ->|done|].
    destruct arrs as [|a0 arrs]; [done|].
    unfold average_values. rewrite fmap_cons. rewrite <-fmap_cons.
    rewrite Ha. simpl. eexists. split; [done|]. by apply bool_decide_eq_true.
Qed.

Lemma average_conforms {A} (check : A → value → bool) (S : gmap string A) :
  (∀ s vs, vs ≠ [] → Forall (λ v, check s v = true) vs →
     ∃ v, average_values average_features vs = Some (Some v) ∧ check s v = true) →
  ∀ fl, fl ≠ [] → Forall (conforms check S) fl →
    ∃ r, average_features fl = Some r ∧ conforms check S r.
Proof.
  intros Hvals fl Hne Hfl.
  assert (∀ key s, S !! key = Some s →
    ∃ v, average_key average_features fl key = Some (Some v) ∧ check s v = true) as Hkey.
  { intros key s Hs. destruct (conforms_values _ _ _ _ _ Hfl Hs) as [Hall Hlen].
    apply Hvals; [|done]. intros Hnil. rewrite Hnil in Hlen.
    by destruct fl. }
  rewrite average_features_unfold. unfold average_features_body.
  destruct fl as [|f0 fl0] eqn:Hfl0; [done|]. rewrite <-Hfl0 in *.
  destruct (proj2 (for_keys_is_Some (elements (all_keys fl))
                     (average_key average_features fl))) as [r Hr].
  { intros key Hk. apply elem_of_elements in Hk.
    apply (conforms_all_keys check S) in Hk as [s Hs]; [|done..].
    destruct (Hkey _ _ Hs) as (v & -> & _). eauto. }
  exists r. split; [done|].
  apply conforms_lookup. intros key. rewrite (for_keys_lookup _ _ _ Hr).
  destruct (S !! key) as [s|] eqn:Hs.
  - rewrite decide_True.
    + destruct (Hkey _ _ Hs) as (v & -> & Hv). done.
    + apply elem_of_elements, (conforms_all_keys check S); eauto.
  - rewrite decide_False; [done|].
    rewrite elem_of_elements, (conforms_all_keys check S) by done.
    rewrite Hs. by intros [].
Qed.

Lemma average_flat fields fl :
  fl ≠ [] → Forall (conforms has_kind fields) fl →
  ∃ r, average_features fl = Some r ∧ conforms has_kind fields r.
Proof. apply average_conforms. intros. by apply average_values_kind. Qed.

Lemma average_values_field f vs :
  vs ≠ [] → Forall (λ v, has_field f v = true) vs →
  ∃ v, average_values average_features vs = Some (Some v) ∧ has_field f v = true.
Proof.
  intros Hne Hvs. destruct f as [k|fields].
  - by apply average_values_kind.
  - destruct (all_dict _ _ Hvs) as (ds & -> & Hds).
    destruct (average_flat fields ds) as (r & Hr & Hc); [by intros ->|done|].
    destruct ds as [|d ds]; [done|].
    unfold average_values. rewrite fmap_cons. rewrite <-fmap_cons.
    rewrite mapM_fmap_Some by done. simpl. rewrite Hr. simpl.
    eexists. split; [done|]. simpl. by apply bool_decide_eq_true.
Qed.

Lemma average_schema S fl :
  fl ≠ [] → Forall (conforms has_field S) fl →
  ∃ r, average_features fl = Some r ∧ conforms has_field S r.
Proof. apply average_conforms. intros. by apply average_values_field. Qed.

(** ** The training loop *)

Ltac solve_conforms :=
  apply conforms_lookup; intros ?key;
  rewrite ?lookup_insert, ?lookup_singleton, ?lookup_empty;
  repeat case_decide; simpl; try done.

Section TrainingFacts.
Context {L : Librosa}.

Lemma compute_onset_structure_shape audio sr d :
  compute_onset_structure audio sr = Some d →
  conforms has_kind {[ "mean_ioi" := KNum; "ioi_variance" := KNum;
                       "num_onsets" := KNum ]} d.
Proof.
  unfold compute_onset_structure. intros H. bind_inv H.
  case_decide; injection H as <-; solve_conforms.
Qed.

Lemma compute_pitch_profile_shape audio sr d :
  compute_pitch_profile audio sr = Some d →
  conforms has_kind {[ "mean_pitch" := KNum; "pitch_range" := KNum;
                       "pitch_variance" := KNum ]} d.
Proof.
  unfold compute_pitch_profile. intros H.
  destruct (piptrack audio sr) as [[pitches magnitudes]|]; [|done]. simpl in H.
  bind_inv H.
  repeat case_match; injection H as <-; solve_conforms.
Qed.

Lemma for_each_None {A} (body : engine → A → option engine) items :
  foldl (λ acc x, e ← acc; body e x) None items = None.
Proof. by induction items. Qed.

Lemma for_each_cons {A} (body : engine → A → option engine) self x items :
  for_each body self (x :: items) = e ← body self x; for_each body e items.
Proof.
  unfold for_each. simpl. destruct (body self x); simpl; [done|].
  apply for_each_None.
Qed.

Lemma for_each_app {A} (body : engine → A → option engine) self l1 l2 :
  for_each body self (l1 ++ l2) = e ← for_each body self l1; for_each body e l2.
Proof.
  revert self. induction l1 as [|x l1 IH]; intros self; [done|].
  rewrite <-app_comm_cons, !for_each_cons.
  destruct (body self x); simpl; [apply IH|done].
Qed.

Lemma for_each_tiers self (tiers : list (option (list dir_entry))) :
  for_each learn_tier self tiers =
  for_each learn_category self (concat (default [] <$> tiers)).
Proof.
  revert self. induction tiers as [|t tiers IH]; intros self; [done|].
  rewrite for_each_cons. rewrite fmap_cons. simpl concat. rewrite for_each_app.
  replace (learn_tier self t) with (for_each learn_category self (default [] t))
    by by destruct t.
  destruct (for_each learn_category self (default [] t)); simpl; [apply IH|done].
Qed.

Lemma train_atomic_sounds_entries self tier1 tier2 tier3 :
  train_atomic_sounds self tier1 tier2 tier3 =
  for_each learn_category self (processed_entries tier1 tier2 tier3).
Proof.
  unfold train_atomic_sounds, processed_entries.
  rewrite for_each_tiers. simpl. by rewrite app_nil_r.
Qed.

(** What one category does to the engine. *)
Lemma learn_category_Some self c self' :
  learn_category self c = Some self' →
  sr self' = sr self ∧
  ((¬ has_sample (sr self) c ∧ self' = self) ∨
   (has_sample (sr self) c ∧
    ∃ prototype, average_features (category_samples (sr self) c) = Some prototype ∧
      atomic_sounds self' = <[entry_name c := prototype]> (atomic_sounds self))).
Proof.
  unfold learn_category, has_sample, category_samples.
  destruct (entry_is_dir c).
  - destruct (omap _ _) as [|s samples] eqn:Hs.
    + intros [= <-]. split; [done|]. left. split; [|done].
      intros (_ & f & Hf & [d Hd]).
      assert (d ∈ omap (process_file (sr self)) (entry_wavs c)) as Hin
        by (apply list_elem_of_omap; eauto).
      rewrite Hs in Hin. by apply elem_of_nil in Hin.
    + intros H. destruct (average_features _) as [p|] eqn:Hp; [|done].
      injection H as <-. split; [done|]. right. split; [|eauto].
      split; [done|].
      assert (s ∈ omap (process_file (sr self)) (entry_wavs c)) as Hin
        by (rewrite Hs; left).
      apply list_elem_of_omap in Hin as (f & ? & ?). eauto.
  - intros [= <-]. split; [done|]. left. split; [|done]. by intros [? _].
Qed.

Lemma category_samples_nonempty sr c :
  has_sample sr c → category_samples sr c ≠ [].
Proof.
  intros (_ & f & Hf & [d Hd]) Hnil.
  assert (d ∈ category_samples sr c) as Hin
    by (apply list_elem_of_omap; eauto).
  rewrite Hnil in Hin. by apply elem_of_nil in Hin.
Qed.

Lemma category_samples_without_failed sr c :
  category_samples sr (without_failed sr c) = category_samples sr c.
Proof.
  unfold category_samples, without_failed. simpl.
  induction (entry_wavs c) as [|f fs IH]; [done|].
  rewrite filter_cons. destruct (process_file sr f) as [d|] eqn:Hf.
  - rewrite decide_True by eauto. simpl. rewrite Hf. by f_equal.
  - rewrite decide_False by (by intros []). simpl. by rewrite Hf.
Qed.

Lemma learn_category_without_failed self c :
  learn_category self (without_failed (sr self) c) = learn_category self c.
Proof.
  unfold learn_category. rewrite category_samples_without_failed. done.
Qed.

Context {LC : LibrosaContract L}.

Lemma compute_timbre_length audio sr tv :
  compute_timbre audio sr = Some tv → length tv = 13%nat.
Proof.
  unfold compute_timbre. intros H. bind_inv H. injection H as <-.
  rewrite length_fmap. by eapply mfcc_rows.
Qed.

Lemma extract_schema audio sr f :
  extract_semantic_features audio sr = Some f →
  conforms has_field feature_schema f.
Proof.
  intros H. apply extract_semantic_features_inv in H
    as (ev & el & tc & hr & st & td & tv & op & pp & so
        & _ & _ & _ & _ & _ & _ & Htv & Hop & Hpp & _ & ->).
  apply compute_timbre_length in Htv.
  apply compute_onset_structure_shape in Hop.
  apply compute_pitch_profile_shape in Hpp.
  unfold feature_schema. solve_conforms;
    by apply bool_decide_eq_true.
Qed.

Lemma category_samples_schema sr c :
  Forall (conforms has_field feature_schema) (category_samples sr c).
Proof.
  apply list.Forall_forall. intros d Hd.
  apply list_elem_of_omap in Hd as (f & _ & Hf).
  unfold process_file in Hf. destruct (wav_audio f); [|done].
  by eapply extract_schema.
Qed.

Lemma learn_category_returns self c : is_Some (learn_category self c).
Proof.
  unfold learn_category. destruct (entry_is_dir c); [|eauto].
  destruct (category_samples (sr self) c) as [|s samples] eqn:Hs; [eauto|].
  destruct (average_schema feature_schema (s :: samples)) as (r & -> & _);
    [done| |by eauto].
  rewrite <-Hs. apply category_samples_schema.
Qed.

Lemma learn_category_learned self c self' :
  learned self → learn_category self c = Some self' → learned self'.
Proof.
  intros Hl H. apply learn_category_Some in H as [_ [[_ ->]|[Hs (p & Hp & Ha)]]]; [done|].
  unfold learned. rewrite Ha. apply map_Forall_insert_2; [|done].
  destruct (average_schema feature_schema (category_samples (sr self) c))
    as (r & Hr & Hc).
  - by apply category_samples_nonempty.
  - apply category_samples_schema.
  - rewrite Hp in Hr. by injection Hr as ->.
Qed.

Lemma for_each_learn_returns self entries :
  is_Some (for_each learn_category self entries).
Proof.
  revert self. induction entries as [|c entries IH]; intros self; [by eexists|].
  rewrite for_each_cons. destruct (learn_category_returns self c) as [e ->].
  apply IH.
Qed.

Lemma for_each_learn_learned self entries self' :
  learned self → for_each learn_category self entries = Some self' →
  learned self'.
Proof.
  revert self. induction entries as [|c entries IH]; intros self Hl.
  - by intros [= <-].
  - rewrite for_each_cons. destruct (learn_category self c) as [e|] eqn:He; [|done].
    simpl. apply IH. by eapply learn_category_learned.
Qed.
End TrainingFacts.

(** ** Training: the learned prototypes *)

Section TrainingTheorems.
Context {L : Librosa}.

Lemma for_each_learn_sr self entries self' :
  for_each learn_category self entries = Some self' → sr self' = sr self.
Proof.
  revert self. induction entries as [|c entries IH]; intros self.
  - by intros [= <-].
  - rewrite for_each_cons. destruct (learn_category self c) as [e|] eqn:He; [|done].
    simpl. intros H. rewrite (IH _ H). by apply learn_category_Some in He as [-> _].
Qed.

Lemma for_each_learn_untouched self entries self' name :
  for_each learn_category self entries = Some self' →
  (∀ c, c ∈ entries → entry_name c = name → ¬ has_sample (sr self) c) →
  atomic_sounds self' !! name = atomic_sounds self !! name.
Proof.
  revert self. induction entries as [|c entries IH]; intros self.
  - by intros [= <-].
  - rewrite for_each_cons. destruct (learn_category self c) as [e|] eqn:He; [|done].
    simpl. intros H Hno.
    apply learn_category_Some in He as [Hsr Hc].
    rewrite (IH _ H).
    + destruct Hc as [[_ ->]|[Hs (p & _ & ->)]]; [done|].
      apply lookup_insert_ne. intros Hn. apply (Hno c); [left|done..].
    + rewrite Hsr. intros c' Hc'. apply Hno. by right.
Qed.

Lemma for_each_learn_dom self entries self' name :
  for_each learn_category self entries = Some self' →
  is_Some (atomic_sounds self' !! name) ↔
  is_Some (atomic_sounds self !! name) ∨
  ∃ c, c ∈ entries ∧ entry_name c = name ∧ has_sample (sr self) c.
Proof.
  revert self. induction entries as [|c entries IH]; intros self.
  - intros [= <-]. split; [eauto|]. intros [?|(c & Hc & _)]; [done|].
    by apply elem_of_nil in Hc.
  - rewrite for_each_cons. destruct (learn_category self c) as [e|] eqn:He; [|done].
    simpl. intros H. rewrite (IH _ H).
    apply learn_category_Some in He as [Hsr Hc]. rewrite Hsr.
    destruct Hc as [[Hno ->]|[Hs (p & _ & ->)]].
    + split.
      * intros [?|(c' & Hc' & ? & ?)]; [by left|].
        right. exists c'. split; [by right|done].
      * intros [?|(c' & Hc' & Hn & Hs)]; [by left|].
        apply elem_of_cons in Hc' as [->|Hc']; [done|].
        right. eauto.
    + rewrite lookup_insert. split.
      * intros [Hi|(c' & Hc' & ? & ?)].
        -- case_decide as Hn; [|by left]. right. exists c. split; [left|done].
        -- right. exists c'. split; [by right|done].
      * intros [?|(c' & Hc' & Hn & Hs')].
        -- left. case_decide; eauto.
        -- apply elem_of_cons in Hc' as [->|Hc'].
           ++ left. rewrite decide_True by done. eauto.
           ++ right. eauto.
Qed.

Lemma for_each_learn_without_failed self entries :
  for_each learn_category self (without_failed (sr self) <$> entries) =
  for_each learn_category self entries.
Proof.
  revert self. induction entries as [|c entries IH]; intros self; [done|].
  rewrite fmap_cons, !for_each_cons, learn_category_without_failed.
  destruct (learn_category self c) as [e|] eqn:He; [|done]. simpl.
  apply learn_category_Some in He as [<- _]. apply IH.
Qed.

Lemma processed_entries_without_failed sr tier1 tier2 tier3 :
  processed_entries (tier_without_failed sr tier1) (tier_without_failed sr tier2)
                    (tier_without_failed sr tier3) =
  without_failed sr <$> processed_entries tier1 tier2 tier3.
Proof.
  unfold processed_entries. rewrite !fmap_app.
  by destruct tier1, tier2, tier3.
Qed.

(** C1. After training, the prototype stored for a category with at least
    one successfully extracted sample is the element-wise mean of the
    samples' feature dictionaries: scalars are averaged as numbers, arrays
    component by component, nested dictionaries key by key, each key over
    the samples that contain it ([elementwise_mean]).  As amended: the
    category is a processed directory with a sample whose name no later
    processed directory with a sample shares; a later one replaces the
    prototype. *)
Theorem trained_prototype_is_elementwise_mean
    self tier1 tier2 tier3 self' before c after :
  train_atomic_sounds self tier1 tier2 tier3 = Some self' →
  processed_entries tier1 tier2 tier3 = before ++ c :: after →
  has_sample (sr self) c →
  (∀ c', c' ∈ after → entry_name c' = entry_name c → ¬ has_sample (sr self) c') →
  ∃ prototype,
    atomic_sounds self' !! entry_name c = Some prototype ∧
    elementwise_mean (VDict <$> category_samples (sr self) c) (VDict prototype).
Proof.
  rewrite train_atomic_sounds_entries. intros Htrain Hsplit Hs Hlast.
  rewrite Hsplit, for_each_app in Htrain.
  destruct (for_each learn_category self before) as [e1|] eqn:He1; [|done].
  simpl in Htrain. rewrite for_each_cons in Htrain.
  destruct (learn_category e1 c) as [e2|] eqn:He2; [|done]. simpl in Htrain.
  apply for_each_learn_sr in He1.
  apply learn_category_Some in He2 as [Hsr2 Hc]. rewrite He1 in *.
  destruct Hc as [[Hno _]|[_ (p & Hp & Ha)]]; [done|].
  exists p. split.
  - rewrite (for_each_learn_untouched _ _ _ _ Htrain).
    + rewrite Ha. apply lookup_insert_eq.
    + by rewrite Hsr2.
  - apply average_features_mean; [|done]. by apply category_samples_nonempty.
Qed.

Context {LC : LibrosaContract L}.

(** C6. Training never stops on a file that fails to load or to extract:
    it returns for every directory tree; a name has a prototype afterwards
    exactly when it had one before or one of its directories has a file
    that was processed successfully; and the files that failed contribute
    nothing, the result being the one obtained from the tree without
    them. *)
Theorem train_skips_failed_samples self tier1 tier2 tier3 :
  ∃ self',
    train_atomic_sounds self tier1 tier2 tier3 = Some self' ∧
    (∀ name,
       is_Some (atomic_sounds self' !! name) ↔
       is_Some (atomic_sounds self !! name) ∨
       ∃ c, c ∈ processed_entries tier1 tier2 tier3 ∧
            entry_name c = name ∧ has_sample (sr self) c) ∧
    train_atomic_sounds self (tier_without_failed (sr self) tier1)
      (tier_without_failed (sr self) tier2)
      (tier_without_failed (sr self) tier3) = Some self'.
Proof.
  destruct (for_each_learn_returns self (processed_entries tier1 tier2 tier3))
    as [self' Htrain].
  exists self'. rewrite !train_atomic_sounds_entries. split; [done|]. split.
  - intros name. by apply for_each_learn_dom.
  - by rewrite processed_entries_without_failed, for_each_learn_without_failed.
Qed.
End TrainingTheorems.

(** ** Averaging a single dictionary *)

Lemma Qc_of_nat_S_neq n : Qc_of_nat (S n) ≠ 0.
Proof.
  unfold Qc_of_nat, Qc_of_Z. intros H. apply (f_equal this) in H. simpl in H.
  unfold inject_Z in H. injection H. lia.
Qed.

Lemma Qc_of_nat_1 : Qc_of_nat 1 = 1.
Proof. by apply Qc_is_canon. Qed.

Lemma Qc_of_nat_succ n : Qc_of_nat (S n) = Qc_of_nat n + 1.
Proof.
  apply Qc_is_canon. unfold Qc_of_nat, Qc_of_Z. simpl.
  rewrite Qred_correct. unfold Qeq, inject_Z. simpl. lia.
Qed.

Lemma np_sum_replicate n c : np_sum (replicate n c) = Qc_of_nat n * c.
Proof.
  induction n as [|n IH]; simpl.
  - replace (Qc_of_nat 0) with (Q2Qc 0) by by apply Qc_is_canon. ring.
  - rewrite IH, Qc_of_nat_succ. ring.
Qed.

Lemma default_weights_sum n :
  np_sum (replicate (S n) (1 / Qc_of_nat (S n))) = 1.
Proof.
  rewrite np_sum_replicate. field. apply Qc_of_nat_S_neq.
Qed.

Lemma np_mean_singleton x : np_mean [x] = x.
Proof. unfold np_mean. simpl. rewrite Qc_of_nat_1. field. done. Qed.

Lemma zip_with_plus_zero (a : list Qc) :
  zip_with Qcplus a (replicate (length a) 0) = a.
Proof. induction a as [|x a IH]; simpl; [done|]. rewrite IH. f_equal. ring. Qed.

Lemma fmap_div_one (a : list Qc) : (λ s, s / Qc_of_nat 1) <$> a = a.
Proof.
  induction a as [|x a IH]; [done|]. rewrite fmap_cons, IH. f_equal.
  rewrite Qc_of_nat_1. field. done.
Qed.

Lemma np_mean_axis0_singleton a : np_mean_axis0 [VArr a] = Some a.
Proof.
  unfold np_mean_axis0. simpl. rewrite decide_True by by apply Forall_singleton.
  unfold vec_sum. simpl. by rewrite zip_with_plus_zero, fmap_div_one.
Qed.

Lemma for_keys_eq keys body (m : dict) :
  (∀ k, k ∈ keys → body k = Some (m !! k)) →
  (∀ k, k ∉ keys → m !! k = None) →
  for_keys keys body = Some m.
Proof.
  intros Hin Hout.
  destruct (proj2 (for_keys_is_Some keys body)) as [r Hr].
  { intros k Hk. rewrite Hin by done. eauto. }
  rewrite Hr. f_equal. apply map_eq. intros k.
  rewrite (for_keys_lookup _ _ _ Hr). case_decide as Hk.
  - by rewrite Hin.
  - by rewrite Hout.
Qed.

Lemma all_keys_singleton (d : dict) k : k ∈ all_keys [d] ↔ is_Some (d !! k).
Proof.
  rewrite elem_of_all_keys. split.
  - intros (d' & Hd & Hk). by apply list_elem_of_singleton in Hd as ->.
  - intros Hk. exists d. split; [left|done].
Qed.

Lemma values_of_singleton key (d : dict) :
  values_of key [d] = match d !! key with Some v => [v] | None => [] end.
Proof. unfold values_of. simpl. by destruct (d !! key). Qed.

Lemma average_features_singleton_aux n d :
  (depth (VDict d) < n)%nat → average_features [d] = Some d.
Proof.
  revert d. induction n as [|n IH]; intros d Hn; [lia|].
  rewrite average_features_unfold. unfold average_features_body.
  apply for_keys_eq.
  - intros k Hk. apply elem_of_elements, all_keys_singleton in Hk as [v Hv].
    unfold average_key. rewrite values_of_singleton, Hv.
    destruct v as [x|a|d']; simpl.
    + unfold np_mean_scalars. simpl. by rewrite np_mean_singleton.
    + by rewrite np_mean_axis0_singleton.
    + rewrite IH; [done|]. apply depth_lookup in Hv. lia.
  - intros k Hk. rewrite elem_of_elements, all_keys_singleton in Hk.
    by apply eq_None_not_Some.
Qed.

Lemma average_features_singleton d : average_features [d] = Some d.
Proof. apply (average_features_singleton_aux (S (depth (VDict d)))). lia. Qed.

(** ** Weighted averages *)

(** *** Selecting the values of a key together with their weights *)

Lemma select_key_fst key (latents : list dict) (weights : list Qc) :
  length latents = length weights →
  (select_key key latents weights).*1 = values_of key latents.
Proof.
  unfold select_key, values_of. revert weights.
  induction latents as [|d ds IH]; intros [|w ws] Hlen; simplify_eq/=; [done|].
  destruct (d !! key); simpl; rewrite IH by done; done.
Qed.

Lemma select_key_snd_const key (latents : list dict) n c :
  (select_key key latents (replicate n c)).*2 =
  replicate (length (select_key key latents (replicate n c))) c.
Proof.
  unfold select_key. revert n.
  induction latents as [|d ds IH]; intros [|n]; simpl; try done.
  destruct (d !! key); simpl; rewrite IH; done.
Qed.

Lemma select_key_zip key (dws : list (dict * Qc)) :
  select_key key (dws.*1) (dws.*2) =
  omap (λ p : dict * Qc, (λ v, (v, p.2)) <$> p.1 !! key) dws.
Proof. unfold select_key. by rewrite zip_fst_snd. Qed.

(** *** [np.average] computes the weighted average *)

Lemma tagged_zip {A} (f : A → value) (xs : list A) (sel : list (value * Qc)) :
  sel.*1 = f <$> xs → sel = prod_map f id <$> zip xs (sel.*2).
Proof.
  intros H. rewrite prod_map_zip, list_fmap_id, <-H. by rewrite zip_fst_snd.
Qed.

Lemma np_average_weighted (sel : list (value * Qc)) x :
  np_average (sel.*1) (sel.*2) = Some x → weighted_mean sel (VNum x).
Proof.
  unfold np_average. intros H.
  destruct (mapM as_num _) as [xs|] eqn:Hxs; [|done]. simpl in H.
  case_decide as Hok; [|done]. destruct Hok as [Hlen Hsum]. injection H as <-.
  apply mapM_as_num_inv in Hxs.
  rewrite (tagged_zip VNum xs sel Hxs) at 1.
  replace (np_sum (zip_with Qcmult xs sel.*2) / np_sum sel.*2)
    with (weighted_average (zip xs (sel.*2))).
  - apply wmean_scalars. by rewrite snd_zip by lia.
  - unfold weighted_average. by rewrite fst_zip, snd_zip by lia.
Qed.

Lemma column_scaled j (arrs : list (list Qc)) (ws : list Qc) m :
  same_length m arrs → (j < m)%nat →
  column j (zip_with (λ a w, (λ x, x * w) <$> a) arrs ws) =
  zip_with Qcmult (column j arrs) ws.
Proof.
  intros Hs Hj. unfold column. revert ws.
  induction Hs as [|a arrs Ha _ IH]; intros [|w ws]; simpl; try done.
  - match goal with |- [] = zip_with _ ?l [] => by destruct l end.
  - destruct (lookup_lt_is_Some_2 a j) as [x Hx]; [lia|].
    rewrite list_lookup_fmap, Hx. simpl. by rewrite IH.
Qed.

Lemma same_length_scaled m (arrs : list (list Qc)) (ws : list Qc) :
  same_length m arrs →
  same_length m (zip_with (λ a w, (λ x, x * w) <$> a) arrs ws).
Proof.
  intros Hs. revert ws. induction Hs as [|a arrs Ha _ IH]; intros [|w ws]; simpl;
    try apply Forall_nil_2.
  apply Forall_cons_2; [by rewrite length_fmap|apply IH].
Qed.

Lemma np_average_axis0_weighted (sel : list (value * Qc)) a :
  np_average_axis0 (sel.*1) (sel.*2) = Some a → weighted_mean sel (VArr a).
Proof.
  unfold np_average_axis0. intros H.
  destruct (mapM as_arr _) as [arrs|] eqn:Harrs; [|done]. simpl in H.
  destruct arrs as [|a0 arrs'] eqn:Ha0; [done|]. rewrite <-Ha0 in *.
  case_decide as Hok; [|done]. destruct Hok as (Hs & Hlen & Hsum). injection H as <-.
  apply mapM_as_arr_inv in Harrs.
  rewrite (tagged_zip VArr arrs sel Harrs) at 1.
  apply (wmean_arrays _ _ (length a0)).
  - intros Hnil. apply (f_equal length) in Hnil.
    rewrite length_zip_with, <-Hlen in Hnil.
    assert (length arrs = S (length arrs')) by by rewrite Ha0.
    simpl in Hnil. lia.
  - by rewrite fst_zip by lia.
  - by rewrite snd_zip by lia.
  - rewrite length_fmap, vec_sum_length; [done|]. by apply same_length_scaled.
  - intros j Hj. rewrite list_lookup_fmap.
    rewrite vec_sum_lookup by (by apply same_length_scaled || done). simpl.
    assert (length (column j arrs) = length (sel.*2)) as Hcol
      by (rewrite <-Hlen; by apply (column_length (length a0))).
    unfold weighted_average.
    rewrite (fst_zip arrs), (snd_zip arrs) by lia.
    rewrite fst_zip, snd_zip by lia.
    by rewrite (column_scaled _ _ _ _ Hs Hj).
Qed.

(** ** The blender computes the weighted mean under equal weights *)

Lemma length_omap_le {A B} (f : A → option B) (l : list A) :
  (length (omap f l) ≤ length l)%nat.
Proof.
  induction l as [|x l IH]; [done|].
  change (omap f (x :: l))
    with (match f x with Some y => y :: omap f l | None => omap f l end).
  destruct (f x); simpl; lia.
Qed.

Lemma for_keys_Some_inv (X : gset string) body r :
  for_keys (elements X) body = Some r →
  ∀ key,
    (key ∉ X → r !! key = None) ∧
    (key ∈ X → ∃ res, body key = Some res ∧ r !! key = res).
Proof.
  intros Hr key. pose proof (for_keys_lookup _ _ _ Hr key) as Hlook.
  assert (is_Some (for_keys (elements X) body)) as Hsome by (rewrite Hr; eauto).
  rewrite for_keys_is_Some in Hsome. specialize (Hsome key).
  rewrite elem_of_elements in Hsome. split; intros Hkey.
  - rewrite Hlook. rewrite decide_False; [done|]. by rewrite elem_of_elements.
  - destruct (Hsome Hkey) as [res Hres]. exists res. split; [done|].
    rewrite Hlook, decide_True by by rewrite elem_of_elements.
    by rewrite Hres.
Qed.

Lemma blend_dict_key_weighted (ds : list dict) c key res :
  key ∈ all_keys ds →
  blend_dict_key ds (replicate (length ds) c) key = Some res →
  ∃ v, res = Some v ∧
       weighted_mean (select_key key ds (replicate (length ds) c)) v.
Proof.
  intros Hkey. unfold blend_dict_key.
  set (sel := select_key key ds (replicate (length ds) c)).
  assert (sel.*1 = values_of key ds) as Hfst
    by (apply select_key_fst; by rewrite length_replicate).
  assert (sel.*2 = take (length (values_of key ds)) (replicate (length ds) c)) as Hsnd.
  { unfold sel. rewrite select_key_snd_const. fold sel.
    rewrite take_replicate. f_equal.
    rewrite <-Hfst, length_fmap.
    assert (length sel ≤ length ds)%nat; [|lia].
    rewrite <-(length_fmap fst sel), Hfst. unfold values_of. apply length_omap_le. }
  rewrite <-Hsnd, <-Hfst.
  destruct (sel.*1) as [|v0 vs] eqn:Hv.
  { symmetry in Hfst. by apply values_nil_iff in Hfst. }
  rewrite <-Hv. intros H. destruct v0.
  - bind_inv H. injection H as <-. eexists. split; [done|].
    by apply np_average_weighted.
  - bind_inv H. injection H as <-. eexists. split; [done|].
    by apply np_average_axis0_weighted.
  - bind_inv H. injection H as <-. eexists. split; [done|].
    by apply np_average_weighted.
Qed.





(** ** Matching and scene generation *)

(** *** The prompt matcher *)

Lemma elem_of_add_semantic (atomic : gmap string dict) word X sound :
  sound ∈ add_semantic atomic word X ↔
  sound ∈ X ∨ (is_Some (atomic !! sound) ∧ semantic_match word sound).
Proof.
  unfold add_semantic, semantic_match.
  destruct (semantic_map !! word) as [sounds|]; last first.
  { split; [by left|]. intros [?|(_ & ? & ? & _)]; done. }
  transitivity (sound ∈ X ∨ (is_Some (atomic !! sound) ∧ sound ∈ sounds)).
  - revert X. induction sounds as [|s sounds IH]; intros X; simpl.
    + split; [by left|]. intros [?|[_ H]]; [done|]. by apply elem_of_nil in H.
    + rewrite IH. case_decide as Hs.
      * rewrite elem_of_union, elem_of_singleton, elem_of_cons. split.
        -- intros [[?| ->]|[? ?]]; eauto.
        -- intros [?|[? [->|?]]]; eauto.
      * rewrite elem_of_cons. split.
        -- intros [?|[? ?]]; eauto.
        -- intros [?|[? [->|?]]]; eauto. done.
  - split.
    + intros [?|[? ?]]; [by left|]. right. eauto.
    + intros [?|(? & l & [= <-] & ?)]; eauto.
Qed.

Lemma elem_of_add_substring (atomic : gmap string dict) word X sound :
  sound ∈ add_substring atomic word X ↔
  sound ∈ X ∨ (is_Some (atomic !! sound) ∧ contains word sound = true).
Proof.
  unfold add_substring. rewrite elem_of_union, elem_of_filter, elem_of_dom.
  tauto.
Qed.

Lemma elem_of_match_words_from (atomic : gmap string dict) words X sound :
  sound ∈ foldl (λ matched word,
                   add_substring atomic word (add_semantic atomic word matched))
                X words ↔
  sound ∈ X ∨ ∃ word, word ∈ words ∧ word_matches atomic word sound.
Proof.
  revert X. induction words as [|w words IH]; intros X; simpl.
  - split; [by left|]. intros [?|(w & Hw & _)]; [done|]. by apply elem_of_nil in Hw.
  - rewrite IH, elem_of_add_substring, elem_of_add_semantic. unfold word_matches.
    split.
    + intros [[[?|[? ?]]|[? ?]]|(w' & ? & ?)].
      * by left.
      * right. exists w. split; [left|]. eauto.
      * right. exists w. split; [left|]. eauto.
      * right. exists w'. split; [by right|done].
    + intros [?|(w' & Hw' & Ha & Hm)]; [by do 3 left|].
      apply elem_of_cons in Hw' as [->|Hw'].
      * left. destruct Hm; [left; right|right]; eauto.
      * right. exists w'. eauto.
Qed.

Lemma elem_of_match_words (atomic : gmap string dict) words sound :
  sound ∈ match_words atomic words ↔
  ∃ word, word ∈ words ∧ word_matches atomic word sound.
Proof.
  unfold match_words. rewrite elem_of_match_words_from. set_solver.
Qed.

(** *** [generate_scene_from_text], case by case *)

Lemma generate_scene_from_text_state {SO : SetOrder} self prompt :
  (generate_scene_from_text self prompt).2 = self.
Proof. unfold generate_scene_from_text. by case_decide. Qed.

Lemma generate_scene_from_text_Some {SO : SetOrder} self text sc :
  (generate_scene_from_text self text).1 = Some (Some sc) →
  match_words (atomic_sounds self) (split (lower text)) ≠ ∅ ∧
  components sc
    = list_of_set (match_words (atomic_sounds self) (split (lower text))) ∧
  prompt sc = text ∧
  blend_sounds (atomic_sounds self) (components sc) None = Some (latent sc).
Proof.
  unfold generate_scene_from_text. case_decide as Hm; simpl; [done|].
  intros H. bind_inv H. by injection H as <-.
Qed.

Lemma generate_scene_from_text_None {SO : SetOrder} self prompt :
  (generate_scene_from_text self prompt).1 = Some None ↔
  match_words (atomic_sounds self) (split (lower prompt)) = ∅.
Proof.
  unfold generate_scene_from_text. case_decide as Hm; simpl; [done|].
  split; [|done]. intros H. by bind_inv H.
Qed.

(** *** Listings of a set *)

Lemma elem_of_list_of_set {SO : SetOrder} {SOL : SetOrderLaw SO}
    (X : gset string) x :
  x ∈ list_of_set X ↔ x ∈ X.
Proof. by rewrite list_of_set_perm, elem_of_elements. Qed.


Lemma list_of_set_nil {SO : SetOrder} {SOL : SetOrderLaw SO}
    (X : gset string) :
  list_of_set X = [] → X = ∅.
Proof.
  intros H. apply leibniz_equiv, elements_empty_inv.
  apply Permutation_nil. rewrite <-H. apply list_of_set_perm.
Qed.

Lemma elements_order_law : SetOrderLaw elements_order.
Proof. split. done. Qed.

Lemma reversed_order_law : SetOrderLaw reversed_order.
Proof. split. intros X. apply reverse_Permutation. Qed.

(** ** The blender on prototypes of one schema *)

(** *** Blending prototypes that share a schema *)

Lemma for_keys_conforms {A} (check : A → value → bool) (S : gmap string A)
    (fl : list dict) body :
  fl ≠ [] → Forall (conforms check S) fl →
  (∀ key s, S !! key = Some s →
     ∃ v, body key = Some (Some v) ∧ check s v = true) →
  ∃ r, for_keys (elements (all_keys fl)) body = Some r ∧ conforms check S r.
Proof.
  intros Hne Hfl Hkey.
  destruct (proj2 (for_keys_is_Some (elements (all_keys fl)) body)) as [r Hr].
  { intros key Hk. apply elem_of_elements in Hk.
    apply (conforms_all_keys check S) in Hk as [s Hs]; [|done..].
    destruct (Hkey _ _ Hs) as (v & -> & _). eauto. }
  exists r. split; [done|].
  apply conforms_lookup. intros key. rewrite (for_keys_lookup _ _ _ Hr).
  destruct (S !! key) as [s|] eqn:Hs.
  - rewrite decide_True.
    + destruct (Hkey _ _ Hs) as (v & -> & Hv). done.
    + apply elem_of_elements, (conforms_all_keys check S); eauto.
  - rewrite decide_False; [done|].
    rewrite elem_of_elements, (conforms_all_keys check S) by done.
    rewrite Hs. by intros [].
Qed.

Lemma select_key_all {A} (check : A → value → bool) (S : gmap string A)
    (latents : list dict) (weights : list Qc) key s :
  Forall (conforms check S) latents → S !! key = Some s →
  length latents = length weights →
  (select_key key latents weights).*1 = values_of key latents ∧
  (select_key key latents weights).*2 = weights.
Proof.
  intros Hl Hs Hlen. split; [by apply select_key_fst|].
  unfold select_key. revert weights Hlen.
  induction Hl as [|d ds Hd _ IH]; intros [|w ws] Hlen; simplify_eq/=; [done|].
  destruct (proj1 (conforms_key _ _ _ key Hd) _ Hs) as (v & -> & _). simpl.
  by rewrite IH.
Qed.

Lemma blend_leaf k (vs : list value) (ws : list Qc) :
  vs ≠ [] → Forall (λ v, has_kind k v = true) vs →
  length vs = length ws → np_sum ws ≠ 0 →
  match k with
  | KNum => ∃ xs, vs = VNum <$> xs ∧ is_Some (np_average vs ws)
  | KArr n => ∃ arrs a, vs = VArr <$> arrs ∧
                        np_average_axis0 vs ws = Some a ∧ length a = n
  end.
Proof.
  intros Hne Hvs Hlen Hsum. destruct k as [|n].
  - destruct (all_num _ Hvs) as [xs ->]. exists xs. split; [done|].
    unfold np_average. rewrite mapM_fmap_Some by done. simpl.
    rewrite length_fmap in Hlen. rewrite decide_True by done. eauto.
  - destruct (all_arr _ _ Hvs) as (arrs & -> & Hs). exists arrs.
    unfold np_average_axis0. rewrite mapM_fmap_Some by done. simpl.
    rewrite length_fmap in Hlen.
    destruct arrs as [|a0 arrs'] eqn:Ha; [done|]. rewrite <-Ha in *.
    assert (length a0 = n) as Ha0.
    { rewrite Ha in Hs. by apply Forall_cons_1 in Hs as [? _]. }
    rewrite Ha0, decide_True by done. eexists. split; [done|]. split; [done|].
    rewrite length_fmap, vec_sum_length; [done|]. by apply same_length_scaled.
Qed.

Lemma blend_dict_key_conforms fields (ds : list dict) (ws : list Qc) key k :
  ds ≠ [] → Forall (conforms has_kind fields) ds → fields !! key = Some k →
  length ds = length ws → np_sum ws ≠ 0 →
  ∃ v, blend_dict_key ds ws key = Some (Some v) ∧ has_kind k v = true.
Proof.
  intros Hne Hds Hk Hlen Hsum.
  destruct (conforms_values _ _ _ _ _ Hds Hk) as [Hall Hvlen].
  unfold blend_dict_key. rewrite Hvlen, Hlen, firstn_all.
  assert (values_of key ds ≠ []) as Hvne.
  { intros Hnil. rewrite Hnil in Hvlen. by destruct ds. }
  pose proof (blend_leaf k _ ws Hvne Hall ltac:(lia) Hsum) as Hleaf.
  destruct k as [|n].
  - destruct Hleaf as (xs & Hxs & [x Hx]). rewrite Hx. rewrite Hxs.
    destruct xs as [|x0 xs]; [by rewrite Hxs in Hvne|]. simpl. eauto.
  - destruct Hleaf as (arrs & a & Harrs & Ha & Hal). rewrite Ha. rewrite Harrs.
    destruct arrs as [|a0 arrs]; [by rewrite Harrs in Hvne|]. simpl.
    eexists. split; [done|]. by apply bool_decide_eq_true.
Qed.

Lemma blend_key_conforms S (latents : list dict) (ws : list Qc) key f :
  latents ≠ [] → Forall (conforms has_field S) latents → S !! key = Some f →
  length latents = length ws → np_sum ws ≠ 0 →
  ∃ v, blend_key latents ws key = Some (Some v) ∧ has_field f v = true.
Proof.
  intros Hne Hl Hf Hlen Hsum.
  destruct (conforms_values _ _ _ _ _ Hl Hf) as [Hall Hvlen].
  destruct (select_key_all _ _ _ ws _ _ Hl Hf Hlen) as [H1 H2].
  unfold blend_key. rewrite H1, H2.
  assert (values_of key latents ≠ []) as Hvne.
  { intros Hnil. rewrite Hnil in Hvlen. by destruct latents. }
  destruct f as [k|fields].
  - pose proof (blend_leaf k _ ws Hvne Hall ltac:(lia) Hsum) as Hleaf.
    destruct k as [|n].
    + destruct Hleaf as (xs & Hxs & [x Hx]). rewrite Hx. rewrite Hxs.
      destruct xs as [|x0 xs]; [by rewrite Hxs in Hvne|]. simpl. eauto.
    + destruct Hleaf as (arrs & a & Harrs & Ha & Hal). rewrite Ha. rewrite Harrs.
      destruct arrs as [|a0 arrs]; [by rewrite Harrs in Hvne|]. simpl.
      eexists. split; [done|]. by apply bool_decide_eq_true.
  - destruct (all_dict _ _ Hall) as (ds & Hds & Hconf).
    assert (ds ≠ []) as Hdne by (intros ->; by rewrite Hds in Hvne).
    assert (length ds = length ws) as Hdlen.
    { rewrite <-Hlen, <-Hvlen, Hds. by rewrite length_fmap. }
    destruct (for_keys_conforms has_kind fields ds (blend_dict_key ds ws))
      as (r & Hr & Hc); [done..| |].
    { intros key' k Hk. by apply (blend_dict_key_conforms fields). }
    assert (blend_dict_values (values_of key latents) ws = Some r) as Hb.
    { unfold blend_dict_values. rewrite Hds, mapM_fmap_Some by done. done. }
    rewrite Hb. rewrite Hds. destruct ds as [|d0 ds]; [done|]. simpl.
    eexists. split; [done|]. by apply bool_decide_eq_true.
Qed.

Lemma blend_sounds_schema S (atomic : gmap string dict) names :
  names ≠ [] →
  (∀ name, name ∈ names →
     ∃ p, atomic !! name = Some p ∧ conforms has_field S p) →
  ∃ r, blend_sounds atomic names None = Some r ∧ conforms has_field S r.
Proof.
  intros Hne Hnames.
  assert (∃ latents, mapM (λ name, atomic !! name) names = Some latents ∧
                     Forall (conforms has_field S) latents) as (latents & Hl & Hconf).
  { clear Hne. induction names as [|n names IH]; [by exists []|].
    destruct (Hnames n) as (p & Hp & Hc); [left|].
    destruct IH as (ls & Hls & Hcs); [intros; apply Hnames; by right|].
    exists (p :: ls). split; [|by constructor].
    rewrite mapM_Some. constructor; [done|]. by apply mapM_Some. }
  pose proof (length_mapM _ _ _ Hl) as Hlen.
  unfold blend_sounds, default_weights.
  destruct names as [|n0 names0] eqn:Hn; [done|]. rewrite <-Hn in *.
  simpl. rewrite Hl. simpl.
  apply for_keys_conforms; [by destruct latents; rewrite ?Hn in Hlen|done|].
  intros key f Hf. apply (blend_key_conforms S); try done.
  - destruct latents; [by rewrite Hn in Hlen|done].
  - by rewrite length_replicate.
  - rewrite Hn. simpl length. rewrite default_weights_sum. done.
Qed.

(** ** One sound *)

(** *** Blending a single sound *)

Lemma single_weight : 1 / Qc_of_nat 1 = 1.
Proof. rewrite Qc_of_nat_1. field. done. Qed.

Lemma np_average_single x : np_average [VNum x] [1] = Some x.
Proof.
  unfold np_average. simpl. f_equal. field. done.
Qed.

Lemma fmap_scale_one (a : list Qc) :
  (λ s, s / (1 + 0)) <$> ((λ x, x * 1) <$> a) = a.
Proof.
  induction a as [|x a IH]; [done|]. rewrite !fmap_cons, IH. f_equal.
  field. done.
Qed.

Lemma np_average_axis0_single a : np_average_axis0 [VArr a] [1] = Some a.
Proof.
  unfold np_average_axis0. simpl. rewrite decide_True.
  - f_equal. unfold vec_sum. simpl.
    rewrite <-(length_fmap (λ x, x * 1) a), zip_with_plus_zero.
    apply fmap_scale_one.
  - split; [by apply Forall_singleton|]. split; [done|]. by rewrite Qcplus_0_r.
Qed.

Lemma select_key_singleton key (d : dict) w :
  select_key key [d] [w] =
  match d !! key with Some v => [(v, w)] | None => [] end.
Proof. unfold select_key. simpl. by destruct (d !! key). Qed.

Lemma blend_dict_values_single fields (d : dict) :
  conforms has_kind fields d → blend_dict_values [VDict d] [1] = Some d.
Proof.
  intros Hc. unfold blend_dict_values. simpl. apply for_keys_eq.
  - intros key Hkey. apply elem_of_elements, all_keys_singleton in Hkey as Hv.
    destruct Hv as [v Hv]. unfold blend_dict_key.
    rewrite values_of_singleton, Hv. simpl.
    destruct (proj2 (conforms_key _ _ _ key Hc)) as [k Hk]; [eauto|].
    destruct (proj1 (conforms_key _ _ _ key Hc) _ Hk) as (v' & Hv' & Hkind).
    rewrite Hv in Hv'. injection Hv' as <-.
    destruct k, v; try done.
    + by rewrite np_average_single.
    + by rewrite np_average_axis0_single.
  - intros key Hkey. rewrite elem_of_elements, all_keys_singleton in Hkey.
    by apply eq_None_not_Some.
Qed.

Lemma blend_sounds_single S (atomic : gmap string dict) name prototype :
  atomic !! name = Some prototype → conforms has_field S prototype →
  blend_sounds atomic [name] None = Some prototype.
Proof.
  intros Hname Hc. unfold blend_sounds, default_weights. simpl.
  rewrite Hname. simpl. rewrite single_weight. apply for_keys_eq.
  - intros key Hkey. apply elem_of_elements, all_keys_singleton in Hkey as Hv.
    destruct Hv as [v Hv]. unfold blend_key.
    rewrite select_key_singleton, Hv. simpl.
    destruct (proj2 (conforms_key _ _ _ key Hc)) as [f Hf]; [eauto|].
    destruct (proj1 (conforms_key _ _ _ key Hc) _ Hf) as (v' & Hv' & Hfield).
    rewrite Hv in Hv'. injection Hv' as <-.
    destruct f as [[|n]|fields], v as [x|a|d]; try done.
    + by rewrite np_average_single.
    + by rewrite np_average_axis0_single.
    + simpl in Hfield. apply bool_decide_eq_true in Hfield.
      by rewrite (blend_dict_values_single fields).
  - intros key Hkey. rewrite elem_of_elements, all_keys_singleton in Hkey.
    by apply eq_None_not_Some.
Qed.

(** ** Blending does not depend on the order of the names *)

Lemma np_sum_Permutation xs ys : xs ≡ₚ ys → np_sum xs = np_sum ys.
Proof.
  unfold np_sum. induction 1 as [|x xs ys _ IH|x y xs|xs ys zs _ IH1 _ IH2];
    simpl; [done|by rewrite IH|ring|congruence].
Qed.

Lemma zip_with_plus_swap (a b l : list Qc) :
  zip_with Qcplus a (zip_with Qcplus b l) = zip_with Qcplus b (zip_with Qcplus a l).
Proof.
  revert b l. induction a as [|x a IH]; intros [|y b] [|z l]; simpl; try done.
  rewrite IH. f_equal. ring.
Qed.

Lemma vec_sum_Permutation m arrs arrs' :
  arrs ≡ₚ arrs' → vec_sum m arrs = vec_sum m arrs'.
Proof.
  unfold vec_sum.
  induction 1 as [|x xs ys _ IH|x y xs|xs ys zs _ IH1 _ IH2];
    simpl; [done|by rewrite IH|apply zip_with_plus_swap|congruence].
Qed.

Lemma all_keys_Permutation (ds ds' : list dict) :
  ds ≡ₚ ds' → all_keys ds = all_keys ds'.
Proof.
  intros Hp. apply set_eq. intros key. rewrite !elem_of_all_keys.
  by setoid_rewrite Hp.
Qed.

Lemma values_of_Permutation key (ds ds' : list dict) :
  ds ≡ₚ ds' → values_of key ds ≡ₚ values_of key ds'.
Proof. intros Hp. unfold values_of. by rewrite Hp. Qed.

Lemma mapM_omap {A B} (f : A → option B) l k :
  mapM f l = Some k → k = omap f l.
Proof.
  intros H%mapM_Some. induction H as [|x y l k Hx _ IH]; [done|].
  simpl. rewrite Hx. simpl. by rewrite IH.
Qed.

Lemma mapM_Permutation {A B} (f : A → option B) l l' :
  l ≡ₚ l' →
  match mapM f l, mapM f l' with
  | Some k, Some k' => k ≡ₚ k'
  | None, None => True
  | _, _ => False
  end.
Proof.
  intros Hp.
  destruct (mapM f l) as [k|] eqn:Hk, (mapM f l') as [k'|] eqn:Hk'.
  - apply mapM_omap in Hk, Hk'. subst. by rewrite Hp.
  - assert (is_Some (mapM f l')) as [? ?]; [|congruence].
    apply mapM_is_Some. rewrite <-Hp. apply mapM_is_Some. eauto.
  - assert (is_Some (mapM f l)) as [? ?]; [|congruence].
    apply mapM_is_Some. rewrite Hp. apply mapM_is_Some. eauto.
  - done.
Qed.

Lemma zip_with_replicate_r {A B C} (f : A → B → C) (l : list A) n c :
  (length l ≤ n)%nat → zip_with f l (replicate n c) = (λ x, f x c) <$> l.
Proof.
  revert n. induction l as [|x l IH]; intros [|n] Hn; simpl in *; try done; [lia|].
  rewrite IH by lia. done.
Qed.

(** With one weight for all, [np.average] does not depend on the order of
    the values. *)
Lemma np_average_Permutation vs vs' c :
  vs ≡ₚ vs' →
  np_average vs (replicate (length vs) c)
  = np_average vs' (replicate (length vs') c).
Proof.
  intros Hp. unfold np_average.
  rewrite <-(Permutation_length Hp).
  pose proof (mapM_Permutation as_num _ _ Hp) as Hm.
  destruct (mapM as_num vs) as [xs|] eqn:Hxs,
           (mapM as_num vs') as [xs'|] eqn:Hxs'; try done.
  simpl. rewrite <-(Permutation_length Hm).
  case_decide as Hok; [|done]. destruct Hok as [Hlen _].
  rewrite length_replicate in Hlen.
  rewrite !zip_with_replicate_r
    by (rewrite <-?(Permutation_length Hm); lia).
  f_equal. f_equal. apply np_sum_Permutation. by rewrite Hm.
Qed.

Lemma same_length_Permutation m arrs arrs' :
  arrs ≡ₚ arrs' → same_length m arrs → same_length m arrs'.
Proof. unfold same_length. by intros ->. Qed.

(** Likewise for arrays, blended component by component. *)
Lemma np_average_axis0_Permutation vs vs' c :
  vs ≡ₚ vs' →
  np_average_axis0 vs (replicate (length vs) c)
  = np_average_axis0 vs' (replicate (length vs') c).
Proof.
  intros Hp. unfold np_average_axis0.
  rewrite <-(Permutation_length Hp).
  pose proof (mapM_Permutation as_arr _ _ Hp) as Hm.
  destruct (mapM as_arr vs) as [arrs|] eqn:Harrs,
           (mapM as_arr vs') as [arrs'|] eqn:Harrs'; try done.
  simpl.
  destruct arrs as [|a0 arrs0] eqn:Ha.
  { apply Permutation_nil in Hm. by rewrite Hm. }
  destruct arrs' as [|a0' arrs0'] eqn:Ha'.
  { symmetry in Hm. by apply Permutation_nil in Hm. }
  rewrite <-Ha, <-Ha' in *.
  assert (same_length (length a0) arrs ↔ same_length (length a0') arrs')
    as Hsame.
  { split; intros Hs.
    - assert (length a0' = length a0) as ->.
      { unfold same_length in Hs. rewrite list.Forall_forall in Hs. apply Hs.
        rewrite Hm, Ha'. left. }
      by apply (same_length_Permutation _ arrs).
    - assert (length a0 = length a0') as ->.
      { unfold same_length in Hs. rewrite list.Forall_forall in Hs. apply Hs.
        rewrite <-Hm, Ha. left. }
      by apply (same_length_Permutation _ arrs'). }
  rewrite <-(Permutation_length Hm).
  case_decide as Hok.
  - destruct Hok as (Hs & Hlen & Hsum).
    rewrite decide_True by (split_and!; [by apply Hsame|done|done]).
    rewrite length_replicate in Hlen.
    assert (length a0' = length a0) as ->.
    { unfold same_length in Hs. rewrite list.Forall_forall in Hs. apply Hs.
      rewrite Hm, Ha'. left. }
    rewrite !zip_with_replicate_r
      by (rewrite <-?(Permutation_length Hm); lia).
    f_equal. f_equal. apply vec_sum_Permutation. by rewrite Hm.
  - rewrite decide_False; [done|].
    intros (Hs & Hlen & Hsum). apply Hok. split_and!; [by apply Hsame|done|done].
Qed.

Lemma conforms_Permutation {A} (check : A → value → bool) S (ds ds' : list dict) :
  ds ≡ₚ ds' → Forall (conforms check S) ds → Forall (conforms check S) ds'.
Proof. by intros ->. Qed.

Lemma all_keys_schema {A} (check : A → value → bool) (S : gmap string A)
    (ds : list dict) key :
  Forall (conforms check S) ds → key ∈ all_keys ds → is_Some (S !! key).
Proof.
  intros Hds (d & Hd & Hk)%elem_of_all_keys.
  rewrite list.Forall_forall in Hds.
  by apply (conforms_key _ _ _ key (Hds _ Hd)).
Qed.

Lemma take_replicate_le {A} n m (c : A) :
  (n ≤ m)%nat → take n (replicate m c) = replicate n c.
Proof. intros H. rewrite take_replicate. f_equal. lia. Qed.

Lemma blend_dict_key_Permutation fields (ds ds' : list dict) c m key :
  ds ≡ₚ ds' → Forall (conforms has_kind fields) ds →
  (length ds ≤ m)%nat → key ∈ all_keys ds →
  blend_dict_key ds (replicate m c) key = blend_dict_key ds' (replicate m c) key.
Proof.
  intros Hp Hds Hm Hkey.
  destruct (all_keys_schema _ _ _ _ Hds Hkey) as [k Hk].
  pose proof (conforms_Permutation _ _ _ _ Hp Hds) as Hds'.
  destruct (conforms_values _ _ _ _ _ Hds Hk) as [Hall Hlen].
  destruct (conforms_values _ _ _ _ _ Hds' Hk) as [Hall' Hlen'].
  pose proof (values_of_Permutation key _ _ Hp) as Hv.
  unfold blend_dict_key.
  rewrite !take_replicate_le
    by (rewrite ?Hlen, ?Hlen', <-?(Permutation_length Hp); lia).
  destruct (values_of key ds) as [|v vs] eqn:E,
           (values_of key ds') as [|v' vs'] eqn:E'.
  - done.
  - by apply Permutation_nil in Hv.
  - symmetry in Hv. by apply Permutation_nil in Hv.
  - apply Forall_cons_1 in Hall as [Hv0 _], Hall' as [Hv0' _].
    destruct k as [|n], v as [x|a|d], v' as [x'|a'|d']; try done.
    + by rewrite (np_average_Permutation _ _ c Hv).
    + by rewrite (np_average_axis0_Permutation _ _ c Hv).
Qed.

Lemma blend_dict_values_Permutation fields (ds ds' : list dict) c :
  ds ≡ₚ ds' → Forall (conforms has_kind fields) ds →
  blend_dict_values (VDict <$> ds) (replicate (length ds) c)
  = blend_dict_values (VDict <$> ds') (replicate (length ds') c).
Proof.
  intros Hp Hds. unfold blend_dict_values.
  rewrite !mapM_fmap_Some by done. simpl.
  rewrite <-(all_keys_Permutation _ _ Hp), <-(Permutation_length Hp).
  apply for_keys_ext. intros key Hkey%elem_of_elements.
  by apply (blend_dict_key_Permutation fields).
Qed.

Lemma omap_as_dict (ds : list dict) : omap as_dict (VDict <$> ds) = ds.
Proof. induction ds as [|d ds IH]; [done|]. simpl. f_equal. apply IH. Qed.

Lemma blend_key_Permutation S (latents latents' : list dict) c key :
  latents ≡ₚ latents' → Forall (conforms has_field S) latents →
  key ∈ all_keys latents →
  blend_key latents (replicate (length latents) c) key
  = blend_key latents' (replicate (length latents') c) key.
Proof.
  intros Hp Hl Hkey.
  destruct (all_keys_schema _ _ _ _ Hl Hkey) as [f Hf].
  pose proof (conforms_Permutation _ _ _ _ Hp Hl) as Hl'.
  destruct (conforms_values _ _ _ _ _ Hl Hf) as [Hall Hlen].
  destruct (conforms_values _ _ _ _ _ Hl' Hf) as [Hall' Hlen'].
  destruct (select_key_all _ _ _ (replicate (length latents) c) _ _ Hl Hf)
    as [H1 H2]; [by rewrite length_replicate|].
  destruct (select_key_all _ _ _ (replicate (length latents') c) _ _ Hl' Hf)
    as [H1' H2']; [by rewrite length_replicate|].
  pose proof (values_of_Permutation key _ _ Hp) as Hv.
  unfold blend_key. rewrite H1, H2, H1', H2', <-Hlen, <-Hlen'.
  destruct (values_of key latents) as [|v vs] eqn:E,
           (values_of key latents') as [|v' vs'] eqn:E'.
  - done.
  - by apply Permutation_nil in Hv.
  - symmetry in Hv. by apply Permutation_nil in Hv.
  - pose proof Hall as Hall0. pose proof Hall' as Hall0'.
    apply Forall_cons_1 in Hall0 as [Hv0 _], Hall0' as [Hv0' _].
    destruct f as [[|n]|fields], v as [x|a|d], v' as [x'|a'|d']; try done.
    + by rewrite (np_average_Permutation _ _ c Hv).
    + by rewrite (np_average_axis0_Permutation _ _ c Hv).
    + destruct (all_dict _ _ Hall) as (ds & Hds & Hconf).
      destruct (all_dict _ _ Hall') as (ds' & Hds' & _).
      rewrite Hds, Hds', !length_fmap.
      rewrite (blend_dict_values_Permutation fields ds ds' c); [done| |done].
      rewrite <-(omap_as_dict ds), <-(omap_as_dict ds'), <-Hds, <-Hds'.
      by rewrite Hv.
Qed.

(** With the default weights the blend of prototypes of one layout does
    not depend on the order in which the names are listed. *)
Lemma blend_sounds_Permutation S (atomic : gmap string dict) names names' :
  map_Forall (λ _ prototype, conforms has_field S prototype) atomic →
  names ≡ₚ names' →
  blend_sounds atomic names None = blend_sounds atomic names' None.
Proof.
  intros Hs Hp. unfold blend_sounds, default_weights.
  destruct names as [|n0 ns] eqn:En, names' as [|n0' ns'] eqn:En'.
  - done.
  - by apply Permutation_nil in Hp.
  - symmetry in Hp. by apply Permutation_nil in Hp.
  - rewrite <-En, <-En' in *. simpl.
    pose proof (mapM_Permutation (λ name, atomic !! name) _ _ Hp) as Hm.
    destruct (mapM _ names) as [latents|] eqn:Hl,
             (mapM _ names') as [latents'|] eqn:Hl'; try done.
    simpl.
    assert (Forall (conforms has_field S) latents) as Hconf.
    { apply list.Forall_forall. intros p Hin.
      destruct (mapM_Some_elem _ _ _ _ Hl Hin) as (name & _ & Hname).
      exact (Hs _ _ Hname). }
    rewrite <-(Permutation_length Hp), <-(all_keys_Permutation _ _ Hm).
    apply for_keys_ext. intros key Hkey%elem_of_elements.
    rewrite (length_mapM _ _ _ Hl).
    rewrite (blend_key_Permutation S latents latents' _ key Hm Hconf Hkey).
    by rewrite <-(Permutation_length Hm).
Qed.

(** ** The concrete engine, and scene generation *)

Lemma default_is_Some {A} (o : option A) (d : A) :
  is_Some o → o = Some (default d o).
Proof. by intros [x ->]. Qed.

(** Decides a closed decidable proposition by evaluation. *)
Ltac by_evaluation := apply (bool_decide_unpack _); vm_compute; exact I.

Lemma toy_librosa_contract : LibrosaContract toy_librosa.
Proof.
  split.
  - intros x. by apply np_clip_range.
  - intros y rate n m [= <-]. apply length_replicate.
Qed.

Lemma fresh_engine_learned : learned fresh_engine.
Proof. apply map_Forall_empty. Qed.

Lemma demo_engine_trained :
  train_atomic_sounds (L:=toy_librosa) fresh_engine demo_tier None (Some [])
  = Some demo_engine.
Proof.
  apply default_is_Some. rewrite train_atomic_sounds_entries.
  apply (for_each_learn_returns (LC:=toy_librosa_contract)).
Qed.

Lemma demo_engine_learned : learned demo_engine.
Proof.
  pose proof demo_engine_trained as H.
  rewrite train_atomic_sounds_entries in H.
  eapply (for_each_learn_learned (LC:=toy_librosa_contract)); [|exact H].
  apply fresh_engine_learned.
Qed.

(** On an engine whose prototypes have the extractor's layout the call
    does not raise. *)
Lemma generate_scene_from_text_returns {SO : SetOrder} {SOL : SetOrderLaw SO}
    self text :
  learned self → is_Some (generate_scene_from_text self text).1.
Proof.
  intros Hl. unfold generate_scene_from_text. case_decide as Hm; simpl; [eauto|].
  destruct (blend_sounds_schema feature_schema (atomic_sounds self)
              (list_of_set (match_words (atomic_sounds self)
                                        (split (lower text)))))
    as (r & Hr & _).
  - intros Hnil. by apply list_of_set_nil in Hnil.
  - intros name Hn. apply elem_of_list_of_set, elem_of_match_words in Hn
      as (w & _ & [p Hp] & _).
    exists p. split; [done|]. by apply (Hl name p).
  - rewrite Hr. simpl. eauto.
Qed.



(** C2. The code does not treat substring matching as a fallback, as
    the claim and the method's own documentation have it: on the engine
    trained on the categories underwater_ambience, whale_song and
    sealion_shrimp, the prompt "sea" is resolved by the semantic map to the
    first two, and the scene still contains "sealion_shrimp", which only
    the substring test finds. *)
Lemma substring_match_is_not_a_fallback :
  ∃ sc, (generate_scene_from_text (SO:=elements_order) sea_engine "sea").1
          = Some (Some sc) ∧
        "sealion_shrimp" ∈ components sc ∧
        "sealion_shrimp" ∉ fallback_match_words (atomic_sounds sea_engine)
                                                (split (lower "sea")).
Proof.
  exists (default (Scene ∅ [] "")
            (mjoin (generate_scene_from_text (SO:=elements_order)
                      sea_engine "sea").1)).
  split; [|split].
  - assert (∀ o : option (option scene),
              is_Some (mjoin o) → o = Some (Some (default (Scene ∅ [] "") (mjoin o))))
      as Hjoin by (by intros [[?|]|] [? ?]).
    apply Hjoin. by_evaluation.
  - by_evaluation.
  - by_evaluation.
Qed.

(** ** Remaining results *)

Lemma demo_features_extracted :
  extract_semantic_features (L:=toy_librosa) [q 3 1; q 4 1] 22050
  = Some demo_features.
Proof. apply default_is_Some. by_evaluation. Qed.

Lemma trained_prototype_is_elementwise_mean_witness :
  ∃ prototype,
    atomic_sounds demo_engine !! "whale_song" = Some prototype ∧
    elementwise_mean
      (VDict <$> category_samples (L:=toy_librosa) 22050 whale_dir)
      (VDict prototype).
Proof.
  apply (trained_prototype_is_elementwise_mean (L:=toy_librosa)
           fresh_engine demo_tier None (Some []) demo_engine
           [thunder_dir] whale_dir
           [DirEntry "notes.txt" false [];
            DirEntry "silence" true [WavFile "broken.wav" None]]).
  - exact demo_engine_trained.
  - reflexivity.
  - split; [reflexivity|].
    exists (WavFile "w1.wav" (Some [q 1 1; q 2 1])). split; [left|].
    by_evaluation.
  - intros c' Hc' Hname.
    apply elem_of_cons in Hc' as [->|Hc']; [discriminate Hname|].
    apply elem_of_cons in Hc' as [->|Hc']; [discriminate Hname|].
    by apply elem_of_nil in Hc'.
Defined.

Lemma fmap_VDict_inj (ds ds' : list dict) :
  VDict <$> ds = VDict <$> ds' → ds = ds'.
Proof.
  revert ds'. induction ds as [|d ds IH]; intros [|d' ds'] H; try done.
  rewrite !fmap_cons in H. injection H as -> H. f_equal. by apply IH.
Qed.

Lemma fmap_VNum_inj (xs xs' : list Qc) :
  VNum <$> xs = VNum <$> xs' → xs = xs'.
Proof.
  revert xs'. induction xs as [|x xs IH]; intros [|x' xs'] H; try done.
  rewrite !fmap_cons in H. injection H as -> H. f_equal. by apply IH.
Qed.

(** The element-wise mean fixes the value of a key that holds scalars. *)
Lemma elementwise_mean_scalar (ds : list dict) (p : dict) key xs :
  elementwise_mean (VDict <$> ds) (VDict p) →
  values_of key ds = VNum <$> xs → xs ≠ [] →
  p !! key = Some (VNum (np_mean xs)).
Proof.
  intros H Hvals Hne.
  inversion H as [ | |ds0 r Hds0 Hout Hin Heq Hr]; subst.
  apply fmap_VDict_inj in Heq as ->.
  destruct (Hin key) as (v & Hv & Hmean).
  { apply dec_stable. rewrite <-values_nil_iff, Hvals. by destruct xs. }
  rewrite Hv. f_equal. rewrite Hvals in Hmean.
  inversion Hmean as [xs1 Hne1 Heq1|arrs a m _ _ _ _ Heq1|ds1 r1 _ _ _ Heq1];
    subst.
  - by apply fmap_VNum_inj in Heq1 as ->.
  - destruct xs, arrs; done.
  - destruct xs, ds1; done.
Qed.

Lemma twice_trained_returns :
  train_atomic_sounds (L:=toy_librosa) fresh_engine
    (Some [thunder_dir]) (Some [thunder_again_dir]) None = Some twice_trained.
Proof.
  apply default_is_Some. rewrite train_atomic_sounds_entries.
  apply (for_each_learn_returns (LC:=toy_librosa_contract)).
Qed.

(** C1 as stated fails: with a directory "thunder" in two tiers, the second
    one replaces the prototype of the first.  What is stored is neither the
    mean of the samples of [Tier_1/thunder], a directory with a sample, nor
    the mean of all the samples of the name. *)
Lemma later_directory_replaces_prototype :
  train_atomic_sounds (L:=toy_librosa) fresh_engine
    (Some [thunder_dir]) (Some [thunder_again_dir]) None = Some twice_trained ∧
  has_sample (L:=toy_librosa) (sr fresh_engine) thunder_dir ∧
  ∃ prototype,
    atomic_sounds twice_trained !! "thunder" = Some prototype ∧
    ¬ elementwise_mean
        (VDict <$> category_samples (L:=toy_librosa) 22050 thunder_dir)
        (VDict prototype) ∧
    ¬ elementwise_mean
        (VDict <$> (category_samples (L:=toy_librosa) 22050 thunder_dir ++
                    category_samples (L:=toy_librosa) 22050 thunder_again_dir))
        (VDict prototype).
Proof.
  split; [apply twice_trained_returns|]. split.
  { split; [done|]. eexists. split; [left|]. by_evaluation. }
  exists (default ∅ (atomic_sounds twice_trained !! "thunder")).
  split; [apply default_is_Some; by_evaluation|]. split.
  - intros H.
    eapply (elementwise_mean_scalar _ _ "energy_level"
              (omap as_num (values_of "energy_level"
                 (category_samples (L:=toy_librosa) 22050 thunder_dir)))) in H;
      [|vm_compute; reflexivity|by_evaluation].
    apply (f_equal (λ o, o ≫= as_num)) in H. revert H. by_evaluation.
  - intros H.
    eapply (elementwise_mean_scalar _ _ "energy_level"
              (omap as_num (values_of "energy_level"
                 (category_samples (L:=toy_librosa) 22050 thunder_dir ++
                  category_samples (L:=toy_librosa) 22050 thunder_again_dir))))
      in H; [|vm_compute; reflexivity|by_evaluation].
    apply (f_equal (λ o, o ≫= as_num)) in H. revert H. by_evaluation.
Qed.

Lemma train_skips_failed_samples_witness :
  ∃ self',
    train_atomic_sounds (L:=toy_librosa) fresh_engine demo_tier None (Some [])
      = Some self' ∧
    (∀ name,
       is_Some (atomic_sounds self' !! name) ↔
       is_Some (atomic_sounds fresh_engine !! name) ∨
       ∃ c, c ∈ processed_entries demo_tier None (Some []) ∧
            entry_name c = name ∧ has_sample (L:=toy_librosa) (sr fresh_engine) c) ∧
    train_atomic_sounds (L:=toy_librosa) fresh_engine
      (tier_without_failed (L:=toy_librosa) (sr fresh_engine) demo_tier)
      (tier_without_failed (L:=toy_librosa) (sr fresh_engine) None)
      (tier_without_failed (L:=toy_librosa) (sr fresh_engine) (Some []))
      = Some self'.
Proof.
  exact (train_skips_failed_samples (L:=toy_librosa) (LC:=toy_librosa_contract)
           fresh_engine demo_tier None (Some [])).
Defined.

Section ExtractorTheorems.
Context {L : Librosa}.

(** C3. Whenever the extractor returns, the dictionary has exactly the ten
    keys emotional_valence, energy_level, temporal_complexity,
    harmonic_richness, spectral_trajectory, textural_density,
    timbre_vector, onset_pattern, pitch_profile and spatial_openness,
    whatever the clip. *)
Theorem extract_semantic_features_keys audio sr f :
  extract_semantic_features audio sr = Some f →
  dom f = ten_keys ∧ size (dom f) = 10%nat.
Proof.
  intros H. rewrite (extract_keys _ _ _ H). split; [done|].
  by vm_compute.
Qed.

(** C5, as amended. The harmonic_richness descriptor is the energy of the
    harmonic component divided by the energy of the whole clip plus
    [1e-10]; the percussive component does not enter. *)
Theorem harmonic_richness_is_harmonic_share audio sr harmonic percussive f :
  hpss audio = Some (harmonic, percussive) →
  extract_semantic_features audio sr = Some f →
  f !! "harmonic_richness" =
    Some (VNum (sum_squares harmonic / (sum_squares audio + eps))).
Proof.
  apply harmonic_richness_lookup.
Qed.

Context {LC : LibrosaContract L}.

(** C8. The extracted emotional_valence and spectral_trajectory lie in
    [[-1, 1]] and spatial_openness lies in [[0, 1]], given that [tanh]
    maps into [[-1, 1]]. *)
Theorem extract_semantic_features_ranges audio sr f :
  extract_semantic_features audio sr = Some f →
  ∃ valence trajectory openness,
    f !! "emotional_valence" = Some (VNum valence) ∧
    f !! "spectral_trajectory" = Some (VNum trajectory) ∧
    f !! "spatial_openness" = Some (VNum openness) ∧
    (-1 ≤ valence ∧ valence ≤ 1) ∧
    (-1 ≤ trajectory ∧ trajectory ≤ 1) ∧
    (0 ≤ openness ∧ openness ≤ 1).
Proof. apply extract_ranges. Qed.

End ExtractorTheorems.

Lemma extract_semantic_features_keys_witness :
  dom demo_features = ten_keys ∧ size (dom demo_features) = 10%nat.
Proof.
  apply (extract_semantic_features_keys (L:=toy_librosa) [q 3 1; q 4 1] 22050).
  exact demo_features_extracted.
Defined.

Lemma harmonic_richness_is_harmonic_share_witness :
  demo_features !! "harmonic_richness" =
    Some (VNum (sum_squares [q 3 1; 0] / (sum_squares [q 3 1; q 4 1] + eps))).
Proof.
  apply (harmonic_richness_is_harmonic_share (L:=toy_librosa)
           [q 3 1; q 4 1] 22050 [q 3 1; 0] [0; q 4 1]).
  - reflexivity.
  - exact demo_features_extracted.
Defined.

(** C5 as stated fails: on a clip whose harmonic part has energy 9 and
    whose percussive part has energy 16 the descriptor is not 9/16. *)
Lemma harmonic_richness_is_not_harmonic_percussive_ratio :
  ∃ harmonic percussive f r,
    hpss (Librosa:=toy_librosa) [q 3 1; q 4 1] = Some (harmonic, percussive) ∧
    extract_semantic_features (L:=toy_librosa) [q 3 1; q 4 1] 22050 = Some f ∧
    f !! "harmonic_richness" = Some (VNum r) ∧
    r ≠ harmonic_percussive_ratio harmonic percussive.
Proof.
  exists [q 3 1; 0], [0; q 4 1], demo_features,
    (sum_squares [q 3 1; 0] / (sum_squares [q 3 1; q 4 1] + eps)).
  split; [reflexivity|]. split; [exact demo_features_extracted|]. split.
  - apply (harmonic_richness_lookup (L:=toy_librosa)
             [q 3 1; q 4 1] 22050 [q 3 1; 0] [0; q 4 1]);
      [reflexivity|exact demo_features_extracted].
  - intros H. apply (f_equal this) in H. vm_compute in H. discriminate H.
Qed.

Lemma extract_semantic_features_ranges_witness :
  ∃ valence trajectory openness,
    demo_features !! "emotional_valence" = Some (VNum valence) ∧
    demo_features !! "spectral_trajectory" = Some (VNum trajectory) ∧
    demo_features !! "spatial_openness" = Some (VNum openness) ∧
    (-1 ≤ valence ∧ valence ≤ 1) ∧
    (-1 ≤ trajectory ∧ trajectory ≤ 1) ∧
    (0 ≤ openness ∧ openness ≤ 1).
Proof.
  apply (extract_semantic_features_ranges (L:=toy_librosa)
           (LC:=toy_librosa_contract) [q 3 1; q 4 1] 22050).
  exact demo_features_extracted.
Defined.

(** ** Nested values under the default weights *)

Lemma zip_replicate {A B} (l : list A) (c : B) :
  zip l (replicate (length l) c) = (λ x, (x, c)) <$> l.
Proof. induction l as [|x l IH]; [done|]. simpl. by rewrite IH. Qed.

(** Under one weight for all, the pairs that [_blend_dict_values] averages
    for a nested key are the nested values of the prototypes that have
    them, each with its prototype's weight. *)
Lemma nested_selected_const outer inner (latents : list dict) c (ds : list dict) :
  values_of outer latents = VDict <$> ds →
  select_key inner ds (replicate (length ds) c)
  = nested_selected outer inner latents (replicate (length latents) c).
Proof.
  unfold select_key, nested_selected. rewrite !zip_replicate.
  unfold values_of, nested_value. revert ds.
  induction latents as [|d latents IH]; intros ds; simpl.
  - by destruct ds.
  - destruct (d !! outer) as [[x|a|sub]|]; simpl; intros Hds.
    + by destruct ds.
    + by destruct ds.
    + destruct ds as [|sub' ds]; [done|]. injection Hds as <- Hds. simpl.
      destruct (sub !! inner); simpl; [f_equal|]; by apply IH.
    + by apply IH.
Qed.

(** C4. With the default weights, the only ones the engine passes, each
    nested value of a blend is the weighted average over exactly the
    prototypes whose sub-dictionary contains the key, each with its own
    blend weight, also when the sub-dictionaries do not share their keys. *)
Theorem blend_nested_default_weights
    (atomic : gmap string dict) names r outer sub inner v :
  blend_sounds atomic names None = Some r →
  r !! outer = Some (VDict sub) → sub !! inner = Some v →
  ∃ latents,
    mapM (λ name, atomic !! name) names = Some latents ∧
    weighted_mean
      (nested_selected outer inner latents
         (replicate (length names) (1 / Qc_of_nat (length names))))
      v.
Proof.
  unfold blend_sounds, default_weights. intros H Hsub Hv.
  destruct names as [|n0 names0] eqn:Hnames; [done|]. rewrite <-Hnames in *.
  simpl in H.
  destruct (mapM _ names) as [latents|] eqn:Hl; [|done]. simpl in H.
  exists latents. split; [done|].
  pose proof (length_mapM _ _ _ Hl) as Hlen. rewrite Hlen in H |- *.
  set (c := 1 / Qc_of_nat (length latents)) in *.
  assert (outer ∈ all_keys latents) as Hkey.
  { apply dec_stable. intros Hno.
    rewrite (proj1 (for_keys_Some_inv _ _ _ H outer) Hno) in Hsub. done. }
  destruct (proj2 (for_keys_Some_inv _ _ _ H outer) Hkey) as (res & Hres & Hr).
  rewrite Hsub in Hr. subst res.
  unfold blend_key in Hres.
  set (sel := select_key outer latents (replicate (length latents) c)) in *.
  assert (sel.*1 = values_of outer latents) as Hfst
    by (apply select_key_fst; by rewrite length_replicate).
  assert (sel.*2 = replicate (length sel) c) as Hsnd
    by apply select_key_snd_const.
  assert (blend_dict_values (sel.*1) (sel.*2) = Some sub) as Hb.
  { destruct (sel.*1) as [|[x|a|d] vs]; simplify_eq/=.
    - destruct (np_average _ _); simplify_eq/=.
    - destruct (np_average_axis0 _ _); simplify_eq/=.
    - by destruct (blend_dict_values _ _); simplify_eq/=. }
  unfold blend_dict_values in Hb.
  destruct (mapM as_dict (sel.*1)) as [ds|] eqn:Hds; [|done]. simpl in Hb.
  apply mapM_as_dict_inv in Hds.
  assert (length ds = length sel) as Hlds
    by (rewrite <-(length_fmap fst sel), Hds; by rewrite length_fmap).
  assert (inner ∈ all_keys ds) as Hinner.
  { apply dec_stable. intros Hno.
    rewrite (proj1 (for_keys_Some_inv _ _ _ Hb inner) Hno) in Hv. done. }
  destruct (proj2 (for_keys_Some_inv _ _ _ Hb inner) Hinner)
    as (res & Hres' & Hr').
  rewrite Hv in Hr'. subst res. rewrite Hsnd, <-Hlds in Hres'.
  destruct (blend_dict_key_weighted _ _ _ _ Hinner Hres') as (v' & [= <-] & Hw).
  rewrite <-(nested_selected_const outer inner latents c ds); [done|].
  by rewrite <-Hfst.
Qed.

Lemma blend_nested_default_weights_witness :
  ∃ latents,
    mapM (λ name, uneven_sounds !! name) ["a"; "b"; "c"] = Some latents ∧
    weighted_mean
      (nested_selected "onset_pattern" "y" latents
         (replicate 3 (1 / Qc_of_nat 3)))
      (default (VNum 0) (uneven_onsets !! "y")).
Proof.
  apply (blend_nested_default_weights uneven_sounds ["a"; "b"; "c"]
           uneven_blend "onset_pattern" uneven_onsets "y").
  - apply default_is_Some. by_evaluation.
  - unfold uneven_onsets.
    destruct (uneven_blend !! "onset_pattern") as [[x|a|d]|] eqn:E;
      try (exfalso; revert E; vm_compute; discriminate).
    done.
  - apply default_is_Some. by_evaluation.
Defined.

(** Explicit weights are outside what the engine passes.  With explicit
    weights that differ, on prototypes whose nested dictionaries do not
    share their keys, [_blend_dict_values] takes [weights[:len(values)]],
    the first weights rather than those of the dictionaries that hold the
    key: for [uneven_sounds] with the weights 1/2, 1/4, 1/4 the nested
    value under "y" is 10/3, where the weights 1/4 and 1/4 of the two
    prototypes that hold "y" give 4. *)
Remark blend_nested_weights_misaligned :
  (r ← blend_sounds uneven_sounds ["a"; "b"; "c"] (Some uneven_weights);
   v ← nested_value "onset_pattern" "y" r;
   x ← as_num v; Some (this x)) = Some (10 # 3)%Q ∧
  this (weighted_average [(q 2 1, q 1 4); (q 6 1, q 1 4)]) = (4 # 1)%Q.
Proof. split; vm_compute; reflexivity. Qed.

(** C7, as amended. Scene generation is stateless, and its result is
    determined by the learned sounds and the prompt up to the order in
    which the matched set is listed.  For two listings of sets (two calls,
    possibly in two processes) and two engines with the same
    [atomic_sounds], whose prototypes have the extractor's layout: each
    call leaves its engine as it was; both return [None] or both return a
    scene; the two scenes have the same latent, the same prompt and the
    same components in some order; and they are equal when the two
    listings agree. *)
Theorem generate_scene_deterministic_up_to_order
    (O1 O2 : SetOrder) (L1 : SetOrderLaw O1) (L2 : SetOrderLaw O2)
    self1 self2 text :
  learned self1 → atomic_sounds self1 = atomic_sounds self2 →
  (generate_scene_from_text (SO:=O1) self1 text).2 = self1 ∧
  (generate_scene_from_text (SO:=O2) self2 text).2 = self2 ∧
  match (generate_scene_from_text (SO:=O1) self1 text).1,
        (generate_scene_from_text (SO:=O2) self2 text).1 with
  | Some None, Some None => True
  | Some (Some sc1), Some (Some sc2) =>
      latent sc1 = latent sc2 ∧ prompt sc1 = prompt sc2 ∧
      components sc1 ≡ₚ components sc2 ∧
      ((∀ X, @list_of_set O1 X = @list_of_set O2 X) → sc1 = sc2)
  | _, _ => False
  end.
Proof.
  intros Hl Ha.
  split; [apply generate_scene_from_text_state|].
  split; [apply generate_scene_from_text_state|].
  assert (learned self2) as Hl2 by (unfold learned; by rewrite <-Ha).
  destruct (generate_scene_from_text_returns (SO:=O1) self1 text Hl)
    as [r1 H1].
  destruct (generate_scene_from_text_returns (SO:=O2) self2 text Hl2)
    as [r2 H2].
  rewrite H1, H2. destruct r1 as [sc1|], r2 as [sc2|].
  - apply generate_scene_from_text_Some in H1 as (_ & Hc1 & Hp1 & Hb1).
    apply generate_scene_from_text_Some in H2 as (_ & Hc2 & Hp2 & Hb2).
    rewrite <-Ha in Hc2, Hb2.
    assert (components sc1 ≡ₚ components sc2) as Hperm
      by (by rewrite Hc1, Hc2, !list_of_set_perm).
    assert (latent sc1 = latent sc2) as Hlat.
    { rewrite (blend_sounds_Permutation feature_schema _ _ _ Hl Hperm) in Hb1.
      congruence. }
    split_and!; [done|congruence|done|].
    intros Hsame. destruct sc1, sc2; simpl in *. f_equal; [done| |congruence].
    by rewrite Hc1, Hc2, Hsame.
  - apply generate_scene_from_text_Some in H1 as (Hne & _).
    apply generate_scene_from_text_None in H2. by rewrite <-Ha in H2.
  - apply generate_scene_from_text_None in H1.
    apply generate_scene_from_text_Some in H2 as (Hne & _).
    by rewrite <-Ha in Hne.
  - done.
Qed.

Lemma generate_scene_deterministic_up_to_order_witness :
  (generate_scene_from_text (SO:=elements_order) demo_engine
     "Whale  THUNDER").2 = demo_engine ∧
  (generate_scene_from_text (SO:=reversed_order)
     (Engine 44100 (atomic_sounds demo_engine) ∅ ∅) "Whale  THUNDER").2
    = Engine 44100 (atomic_sounds demo_engine) ∅ ∅ ∧
  match (generate_scene_from_text (SO:=elements_order) demo_engine
           "Whale  THUNDER").1,
        (generate_scene_from_text (SO:=reversed_order)
           (Engine 44100 (atomic_sounds demo_engine) ∅ ∅)
           "Whale  THUNDER").1 with
  | Some None, Some None => True
  | Some (Some sc1), Some (Some sc2) =>
      latent sc1 = latent sc2 ∧ prompt sc1 = prompt sc2 ∧
      components sc1 ≡ₚ components sc2 ∧
      ((∀ X, @list_of_set elements_order X = @list_of_set reversed_order X) →
       sc1 = sc2)
  | _, _ => False
  end.
Proof.
  apply (generate_scene_deterministic_up_to_order
           elements_order reversed_order
           elements_order_law reversed_order_law
           demo_engine (Engine 44100 (atomic_sounds demo_engine) ∅ ∅)
           "Whale  THUNDER").
  - apply demo_engine_learned.
  - reflexivity.
Defined.

(** C7 as stated fails: the components list follows the order in which the
    set of matched sounds is listed.  On the same engine and the same
    prompt, two listings of that set give the two components in different
    orders. *)
Lemma components_order_follows_the_set_order :
  SetOrderLaw elements_order ∧ SetOrderLaw reversed_order ∧
  ∃ sc1 sc2,
    (generate_scene_from_text (SO:=elements_order) demo_engine
       "Whale  THUNDER").1 = Some (Some sc1) ∧
    (generate_scene_from_text (SO:=reversed_order) demo_engine
       "Whale  THUNDER").1 = Some (Some sc2) ∧
    components sc1 ≠ components sc2.
Proof.
  split; [apply elements_order_law|]. split; [apply reversed_order_law|].
  assert (∀ o : option (option scene),
            is_Some (mjoin o) →
            o = Some (Some (default (Scene ∅ [] "") (mjoin o))))
    as Hjoin by (by intros [[?|]|] [? ?]).
  eexists _, _. split; [apply Hjoin; by_evaluation|].
  split; [apply Hjoin; by_evaluation|].
  by_evaluation.
Qed.

(** C9. On an engine whose prototypes were learned by training, scene
    generation does not raise and leaves the engine unchanged; it returns
    [None] exactly when no word of the prompt matches a learned sound, and
    otherwise a scene with the prompt and a non-empty list of components,
    each a key of [atomic_sounds]. *)
Theorem generate_scene_none_iff_no_match
    {SO : SetOrder} {SOL : SetOrderLaw SO} self text :
  learned self →
  (generate_scene_from_text self text).2 = self ∧
  match (generate_scene_from_text self text).1 with
  | None => False
  | Some None =>
      ∀ word sound, word ∈ split (lower text) →
                    ¬ word_matches (atomic_sounds self) word sound
  | Some (Some sc) =>
      (∃ word sound, word ∈ split (lower text) ∧
                     word_matches (atomic_sounds self) word sound) ∧
      components sc ≠ [] ∧
      (∀ sound, sound ∈ components sc → is_Some (atomic_sounds self !! sound)) ∧
      prompt sc = text
  end.
Proof.
  intros Hl. split; [apply generate_scene_from_text_state|].
  destruct (generate_scene_from_text self text).1 as [[sc|]|] eqn:Hg.
  - apply generate_scene_from_text_Some in Hg as (Hne & Hc & Hp & _).
    assert (∀ sound, sound ∈ components sc ↔
              ∃ word, word ∈ split (lower text) ∧
                      word_matches (atomic_sounds self) word sound) as Hin.
    { intros sound. by rewrite Hc, elem_of_list_of_set, elem_of_match_words. }
    assert (components sc ≠ []) as Hcne.
    { rewrite Hc. intros Hnil. by apply list_of_set_nil in Hnil. }
    split; [|split; [done|split; [|done]]].
    + destruct (components sc) as [|s0 ss] eqn:Hs; [done|].
      destruct (proj1 (Hin s0)) as (w & Hw & Hm); [left|]. eauto.
    + intros sound Hs. apply Hin in Hs as (w & _ & Ha & _). done.
  - apply generate_scene_from_text_None in Hg. intros word sound Hw Hm.
    assert (sound ∈ match_words (atomic_sounds self) (split (lower text))) as Hin
      by (apply elem_of_match_words; eauto).
    rewrite Hg in Hin. by apply not_elem_of_empty in Hin.
  - destruct (generate_scene_from_text_returns self text Hl) as [r Hr].
    by rewrite Hg in Hr.
Qed.

Lemma generate_scene_none_iff_no_match_witness :
  (generate_scene_from_text (SO:=elements_order) demo_engine
     "Whale  THUNDER").2 = demo_engine ∧
  match (generate_scene_from_text (SO:=elements_order) demo_engine
           "Whale  THUNDER").1 with
  | None => False
  | Some None =>
      ∀ word sound, word ∈ split (lower "Whale  THUNDER") →
                    ¬ word_matches (atomic_sounds demo_engine) word sound
  | Some (Some sc) =>
      (∃ word sound, word ∈ split (lower "Whale  THUNDER") ∧
                     word_matches (atomic_sounds demo_engine) word sound) ∧
      components sc ≠ [] ∧
      (∀ sound, sound ∈ components sc →
                is_Some (atomic_sounds demo_engine !! sound)) ∧
      prompt sc = "Whale  THUNDER"
  end.
Proof.
  exact (generate_scene_none_iff_no_match (SOL:=elements_order_law)
           demo_engine "Whale  THUNDER" demo_engine_learned).
Defined.

(** C10. Averaging a one-element list returns the dictionary itself, and
    blending the one-element list of a learned sound with the default
    weights returns that sound's prototype. *)
Theorem single_sound_identity :
  (∀ features : dict, average_features [features] = Some features) ∧
  (∀ self name prototype,
     learned self →
     atomic_sounds self !! name = Some prototype →
     blend_sounds (atomic_sounds self) [name] None = Some prototype).
Proof.
  split; [apply average_features_singleton|].
  intros self name prototype Hl Hname.
  apply (blend_sounds_single feature_schema); [done|]. by apply (Hl name).
Qed.

Lemma single_sound_identity_witness :
  average_features [demo_features] = Some demo_features ∧
  blend_sounds (atomic_sounds demo_engine) ["thunder"] None
    = Some (default ∅ (atomic_sounds demo_engine !! "thunder")).
Proof.
  split.
  - apply (proj1 single_sound_identity).
  - apply (proj2 single_sound_identity demo_engine "thunder" _ demo_engine_learned).
    apply default_is_Some. by_evaluation.
Defined.

(** ** Further properties of the engine *)

Lemma conforms_dom {A} (check : A → value → bool) (S : gmap string A) (d : dict) :
  conforms check S d → dom d = dom S.
Proof.
  intros H. apply set_eq. intros key. rewrite !elem_of_dom.
  pose proof (proj1 (conforms_lookup _ _ _) H key) as Hk.
  destruct (S !! key), (d !! key); try done; split; intros []; done.
Qed.

Lemma dom_feature_schema : dom feature_schema = ten_keys.
Proof.
  unfold feature_schema, ten_keys. rewrite !dom_insert_L, dom_empty_L. set_solver.
Qed.

Section TrainingExtras.
Context {L : Librosa}.

Lemma learn_category_fields self c self' :
  learn_category self c = Some self' →
  sr self' = sr self ∧ soundscapes self' = soundscapes self ∧
  semantic_vocabulary self' = semantic_vocabulary self.
Proof.
  unfold learn_category. destruct (entry_is_dir c); [|by intros [= <-]].
  destruct (category_samples _ _); [by intros [= <-]|].
  intros H. bind_inv H. by injection H as <-.
Qed.

Lemma for_each_learn_fields self entries self' :
  for_each learn_category self entries = Some self' →
  sr self' = sr self ∧ soundscapes self' = soundscapes self ∧
  semantic_vocabulary self' = semantic_vocabulary self.
Proof.
  revert self. induction entries as [|c entries IH]; intros self.
  - by intros [= <-].
  - rewrite for_each_cons. destruct (learn_category self c) as [e|] eqn:He; [|done].
    simpl. intros H. apply IH in H as (-> & -> & ->).
    by apply learn_category_fields in He.
Qed.

Lemma has_sample_learns sr c name :
  learns sr name c ↔ has_sample sr c ∧ entry_name c = name.
Proof.
  unfold learns, has_sample. split.
  - intros (Hd & Hn & Hs). split; [|done]. split; [done|].
    destruct (category_samples sr c) as [|d ds] eqn:E; [done|].
    assert (d ∈ category_samples sr c) as Hin by (rewrite E; left).
    apply list_elem_of_omap in Hin as (f & ? & ?). eauto.
  - intros [Hs Hn]. split; [apply Hs|]. split; [done|].
    by apply category_samples_nonempty.
Qed.

Lemma last_learned_cons sr c entries name :
  last_learned sr (c :: entries) name =
  match last_learned sr entries name with
  | Some c' => Some c'
  | None => if decide (learns sr name c) then Some c else None
  end.
Proof.
  unfold last_learned. rewrite filter_cons. case_decide; [|by destruct (list.last _)].
  destruct (filter _ entries) as [|c' l] eqn:E; [done|].
  rewrite last_cons. by destruct (list.last (c' :: l)) eqn:E'; [|by apply last_None in E'].
Qed.

(** The engine after the loop, sound by sound. *)
Lemma for_each_learn_lookup self entries self' name :
  for_each learn_category self entries = Some self' →
  atomic_sounds self' !! name =
  match last_learned (sr self) entries name with
  | Some c => average_features (category_samples (sr self) c)
  | None => atomic_sounds self !! name
  end.
Proof.
  revert self. induction entries as [|c entries IH]; intros self.
  - by intros [= <-].
  - rewrite for_each_cons. destruct (learn_category self c) as [e|] eqn:He; [|done].
    simpl. intros H. rewrite (IH _ H), last_learned_cons.
    apply learn_category_Some in He as [Hsr Hc]. rewrite Hsr.
    destruct (last_learned (sr self) entries name) as [c'|]; [done|].
    destruct Hc as [[Hno ->]|[Hs (p & Hp & ->)]].
    + rewrite decide_False; [done|]. rewrite has_sample_learns. by intros [? _].
    + case_decide as Hl.
      * destruct Hl as (_ & -> & _). by rewrite lookup_insert_eq.
      * rewrite lookup_insert_ne; [done|]. intros Hn. apply Hl.
        by apply has_sample_learns.
Qed.

(** X1. Training changes nothing but the learned sounds: the sample rate,
    the soundscapes and the semantic vocabulary are kept, and so is the
    entry of every name for which no processed directory yields a sample. *)
Theorem train_keeps_other_state self tier1 tier2 tier3 self' :
  train_atomic_sounds self tier1 tier2 tier3 = Some self' →
  sr self' = sr self ∧ soundscapes self' = soundscapes self ∧
  semantic_vocabulary self' = semantic_vocabulary self ∧
  ∀ name,
    (∀ c, c ∈ processed_entries tier1 tier2 tier3 →
          entry_name c = name → ¬ has_sample (sr self) c) →
    atomic_sounds self' !! name = atomic_sounds self !! name.
Proof.
  rewrite train_atomic_sounds_entries. intros H.
  destruct (for_each_learn_fields _ _ _ H) as (? & ? & ?).
  split_and!; try done. intros name Hno.
  by apply (for_each_learn_untouched _ _ _ _ H).
Qed.

Context {LC : LibrosaContract L}.

(** X2. After training an engine whose prototypes have the extractor's
    layout, every stored prototype has it again: exactly the ten keys,
    with a timbre vector of 13 entries. *)
Theorem train_establishes_layout self tier1 tier2 tier3 self' :
  learned self →
  train_atomic_sounds self tier1 tier2 tier3 = Some self' →
  ∀ name prototype,
    atomic_sounds self' !! name = Some prototype →
    conforms has_field feature_schema prototype ∧
    dom prototype = ten_keys ∧
    ∃ timbre, prototype !! "timbre_vector" = Some (VArr timbre) ∧
              length timbre = 13%nat.
Proof.
  rewrite train_atomic_sounds_entries. intros Hl H name p Hp.
  pose proof (for_each_learn_learned _ _ _ Hl H name p Hp) as Hc.
  simpl in Hc. split; [done|]. split.
  - by rewrite (conforms_dom _ _ _ Hc), dom_feature_schema.
  - destruct (proj1 (conforms_key _ _ _ "timbre_vector" Hc) (FLeaf (KArr 13)))
      as (v & Hv & Hk); [done|].
    destruct v as [|a|]; try done. simpl in Hk. apply bool_decide_eq_true in Hk.
    eauto.
Qed.

(** X3. Training is idempotent: run again on the same directories,
    starting from the engine it returned, it returns that engine
    unchanged. *)
Theorem train_idempotent self tier1 tier2 tier3 self' :
  train_atomic_sounds self tier1 tier2 tier3 = Some self' →
  train_atomic_sounds self' tier1 tier2 tier3 = Some self'.
Proof.
  rewrite !train_atomic_sounds_entries. intros H.
  destruct (for_each_learn_returns self' (processed_entries tier1 tier2 tier3))
    as [self'' H'].
  rewrite H'. f_equal.
  destruct (for_each_learn_fields _ _ _ H) as (Hsr & _ & _).
  destruct (for_each_learn_fields _ _ _ H') as (Hsr' & Hs' & Hv').
  assert (atomic_sounds self'' = atomic_sounds self') as Ha.
  { apply map_eq. intros name.
    rewrite (for_each_learn_lookup _ _ _ name H'), Hsr.
    rewrite (for_each_learn_lookup _ _ _ name H).
    by destruct (last_learned _ _ _). }
  destruct self'', self'; simpl in *. by subst.
Qed.

End TrainingExtras.

Lemma train_keeps_other_state_witness :
  sr demo_engine = sr fresh_engine ∧
  soundscapes demo_engine = soundscapes fresh_engine ∧
  semantic_vocabulary demo_engine = semantic_vocabulary fresh_engine ∧
  ∀ name,
    (∀ c, c ∈ processed_entries demo_tier None (Some []) →
          entry_name c = name →
          ¬ has_sample (L:=toy_librosa) (sr fresh_engine) c) →
    atomic_sounds demo_engine !! name = atomic_sounds fresh_engine !! name.
Proof.
  exact (train_keeps_other_state (L:=toy_librosa) fresh_engine demo_tier None
           (Some []) demo_engine demo_engine_trained).
Defined.

Lemma train_establishes_layout_witness :
  conforms has_field feature_schema thunder_prototype ∧
  dom thunder_prototype = ten_keys ∧
  ∃ timbre, thunder_prototype !! "timbre_vector" = Some (VArr timbre) ∧
            length timbre = 13%nat.
Proof.
  apply (train_establishes_layout (L:=toy_librosa) (LC:=toy_librosa_contract)
           fresh_engine demo_tier None (Some []) demo_engine
           fresh_engine_learned demo_engine_trained "thunder").
  apply default_is_Some. by_evaluation.
Defined.

Lemma train_idempotent_witness :
  train_atomic_sounds (L:=toy_librosa) demo_engine demo_tier None (Some [])
  = Some demo_engine.
Proof.
  exact (train_idempotent (L:=toy_librosa) (LC:=toy_librosa_contract)
           fresh_engine demo_tier None (Some []) demo_engine demo_engine_trained).
Defined.

Lemma lower_ascii_idemp c : lower_ascii (lower_ascii c) = lower_ascii c.
Proof. by destruct c as [[] [] [] [] [] [] [] []]. Qed.

Lemma lower_idemp s : lower (lower s) = lower s.
Proof.
  induction s as [|c s IH]; [done|]. simpl. by rewrite lower_ascii_idemp, IH.
Qed.

Lemma lower_ascii_whitespace c :
  is_whitespace c = true → lower_ascii c = c.
Proof. by destruct c as [[] [] [] [] [] [] [] []]. Qed.

Lemma split_from_blank s :
  Forall (λ c, is_whitespace c = true) (chars (lower s)) →
  split_from EmptyString (lower s) = [].
Proof.
  induction s as [|c s IH]; [done|]. simpl. intros H.
  apply Forall_cons_1 in H as [Hc Hs]. rewrite Hc. by apply IH.
Qed.

Lemma chars_lower_blank s :
  Forall (λ c, is_whitespace c = true) (chars s) →
  Forall (λ c, is_whitespace c = true) (chars (lower s)).
Proof.
  induction s as [|c s IH]; [done|]. simpl. intros H.
  apply Forall_cons_1 in H as [Hc Hs].
  apply Forall_cons_2; [by rewrite lower_ascii_whitespace|by apply IH].
Qed.

Lemma match_words_empty_atomic words : match_words ∅ words = ∅.
Proof.
  apply set_eq. intros sound. rewrite elem_of_match_words. split.
  - intros (w & _ & [? Hs] & _). by rewrite lookup_empty in Hs.
  - intros H. by apply not_elem_of_empty in H.
Qed.

(** X4. The prompt's letter case does not matter: the lower-cased prompt
    gives the same outcome, with the same latent and the same components. *)
Theorem generate_scene_ignores_case {SO : SetOrder} self text :
  scene_content (generate_scene_from_text self (lower text)).1
  = scene_content (generate_scene_from_text self text).1.
Proof.
  unfold generate_scene_from_text. rewrite lower_idemp.
  case_decide; simpl; [done|].
  by destruct (blend_sounds _ _ _).
Qed.

(** X5. With no learned sound, or with a prompt of white space only,
    generate_scene_from_text returns None and leaves the engine unchanged. *)
Theorem generate_scene_nothing_to_match {SO : SetOrder} self text :
  atomic_sounds self = ∅ ∨
  Forall (λ c, is_whitespace c = true) (chars text) →
  generate_scene_from_text self text = (Some None, self).
Proof.
  intros H. unfold generate_scene_from_text.
  rewrite decide_True; [done|]. destruct H as [->|H].
  - apply match_words_empty_atomic.
  - unfold split. by rewrite split_from_blank by by apply chars_lower_blank.
Qed.

Lemma generate_scene_nothing_to_match_witness :
  generate_scene_from_text (SO:=elements_order) demo_engine blank_prompt
  = (Some None, demo_engine).
Proof.
  apply (generate_scene_nothing_to_match (SO:=elements_order)
           demo_engine blank_prompt).
  right. repeat constructor.
Defined.

(** X6. Adding words to a prompt never loses a component: if every word of
    the first prompt occurs in the second and the first prompt gives a
    scene, the second does not give None, and a scene it gives contains
    every component of the first. *)
Theorem generate_scene_monotone_in_words
    {SO : SetOrder} {SOL : SetOrderLaw SO} self text1 text2 sc1 :
  (∀ word, word ∈ split (lower text1) → word ∈ split (lower text2)) →
  (generate_scene_from_text self text1).1 = Some (Some sc1) →
  (generate_scene_from_text self text2).1 ≠ Some None ∧
  ∀ sc2, (generate_scene_from_text self text2).1 = Some (Some sc2) →
         ∀ sound, sound ∈ components sc1 → sound ∈ components sc2.
Proof.
  intros Hsub H1. apply generate_scene_from_text_Some in H1 as (Hne & Hc1 & _ & _).
  assert (match_words (atomic_sounds self) (split (lower text1)) ⊆
          match_words (atomic_sounds self) (split (lower text2))) as Hincl.
  { intros sound. rewrite !elem_of_match_words.
    intros (w & Hw & Hm). exists w. split; [by apply Hsub|done]. }
  split.
  - rewrite generate_scene_from_text_None. intros Hnil. apply Hne.
    rewrite Hnil in Hincl. set_solver.
  - intros sc2 H2. apply generate_scene_from_text_Some in H2 as (_ & Hc2 & _ & _).
    intros sound. rewrite Hc1, Hc2, !elem_of_list_of_set. apply Hincl.
Qed.

Lemma generate_scene_monotone_in_words_witness :
  (generate_scene_from_text (SO:=elements_order) demo_engine
     "loud WHALE thunder").1 ≠ Some None ∧
  ∀ sc2, (generate_scene_from_text (SO:=elements_order) demo_engine
            "loud WHALE thunder").1 = Some (Some sc2) →
         ∀ sound, sound ∈ components demo_scene → sound ∈ components sc2.
Proof.
  apply (generate_scene_monotone_in_words (SOL:=elements_order_law)
           demo_engine "Whale  THUNDER" "loud WHALE thunder" demo_scene).
  - intros word Hw. vm_compute in Hw. vm_compute.
    apply elem_of_cons in Hw as [->|Hw]; [set_solver|].
    apply elem_of_cons in Hw as [->|Hw]; [set_solver|].
    by apply elem_of_nil in Hw.
  - vm_compute. reflexivity.
Defined.

#[local] Arguments vec_sum : simpl never.
#[local] Arguments column : simpl never.



(** *** Explicit weights on prototypes of one schema *)

Lemma blend_dict_key_aligned (ds : list dict) (ws : list Qc) key res :
  length ds = length ws →
  length (values_of key ds) = length ds →
  key ∈ all_keys ds →
  blend_dict_key ds ws key = Some res →
  ∃ v, res = Some v ∧ weighted_mean (select_key key ds ws) v.
Proof.
  intros Hlen Hall Hkey. unfold blend_dict_key.
  set (sel := select_key key ds ws).
  assert (sel.*1 = values_of key ds) as Hfst by by apply select_key_fst.
  assert (sel.*2 = ws) as Hsnd.
  { assert (length sel = length ws) as Hsl.
    { rewrite <-(length_fmap fst sel), Hfst. lia. }
    unfold sel, select_key in *. clear Hfst Hkey sel. revert ws Hlen Hsl.
    unfold values_of in Hall.
    induction ds as [|d ds IH]; intros [|w ws] Hlen Hsl; simplify_eq/=; [done|].
    destruct (d !! key) as [v|] eqn:Hv; simpl in *.
    - f_equal. apply IH; lia.
    - pose proof (length_omap_le (λ d : dict, d !! key) ds). lia. }
  assert (take (length (values_of key ds)) ws = sel.*2) as Ht.
  { rewrite Hall, Hlen, firstn_all. by rewrite Hsnd. }
  rewrite Ht, <-Hfst.
  destruct (sel.*1) as [|v0 vs] eqn:Hv.
  { symmetry in Hfst. by apply values_nil_iff in Hfst. }
  rewrite <-Hv. intros H. destruct v0.
  - bind_inv H. injection H as <-. eexists. split; [done|].
    by apply np_average_weighted.
  - bind_inv H. injection H as <-. eexists. split; [done|].
    by apply np_average_axis0_weighted.
  - bind_inv H. injection H as <-. eexists. split; [done|].
    by apply np_average_weighted.
Qed.

Lemma blend_dict_values_aligned fields (sel : list (value * Qc)) (ds : list dict) r :
  sel ≠ [] → sel.*1 = VDict <$> ds → Forall (conforms has_kind fields) ds →
  blend_dict_values (sel.*1) (sel.*2) = Some r →
  weighted_mean sel (VDict r).
Proof.
  intros Hne Hds Hconf. unfold blend_dict_values. rewrite Hds at 1.
  rewrite mapM_fmap_Some by done. simpl. intros H.
  assert (length ds = length sel) as Hlen
    by (rewrite <-(length_fmap fst sel), Hds; by rewrite length_fmap).
  assert (ds ≠ []) as Hdne by (intros ->; by destruct sel).
  rewrite (tagged_zip VDict ds sel Hds).
  assert ((zip ds (sel.*2)).*1 = ds) as Hz1
    by (apply fst_zip; rewrite length_fmap; lia).
  assert ((zip ds (sel.*2)).*2 = sel.*2) as Hz2
    by (apply snd_zip; rewrite length_fmap; lia).
  apply wmean_dicts.
  - intros Hnil. apply (f_equal length) in Hnil.
    rewrite length_zip_with, length_fmap in Hnil. destruct sel; simpl in *; [done|lia].
  - intros key Hkey. rewrite Hz1 in Hkey.
    by apply (for_keys_Some_inv _ _ _ H key).
  - intros key Hkey. rewrite Hz1 in Hkey. rewrite Hz1, Hz2.
    destruct (proj2 (for_keys_Some_inv _ _ _ H key) Hkey) as (res & Hres & Hr).
    apply (conforms_all_keys has_kind fields) in Hkey as Hs; [|done..].
    destruct Hs as [k Hk].
    destruct (conforms_values _ _ _ _ _ Hconf Hk) as [_ Hvlen].
    destruct (blend_dict_key_aligned ds (sel.*2) key res) as (v & -> & Hv);
      [by rewrite length_fmap|done..|]. eauto.
Qed.

Lemma blend_key_aligned S (latents : list dict) (ws : list Qc) key f res :
  Forall (conforms has_field S) latents → S !! key = Some f →
  length latents = length ws → latents ≠ [] →
  blend_key latents ws key = Some res →
  ∃ v, res = Some v ∧ weighted_mean (select_key key latents ws) v.
Proof.
  intros Hl Hf Hlen Hne.
  destruct (conforms_values _ _ _ _ _ Hl Hf) as [Hall Hvlen].
  destruct (select_key_all _ _ _ ws _ _ Hl Hf Hlen) as [H1 H2].
  unfold blend_key.
  set (sel := select_key key latents ws) in *.
  assert (sel ≠ []) as Hsne.
  { intros Hnil. rewrite Hnil in H1. simpl in H1. rewrite <-H1 in Hvlen.
    by destruct latents. }
  destruct (sel.*1) as [|v0 vs] eqn:Hv; [by destruct sel|].
  rewrite <-Hv. intros H. destruct v0 as [x|a|d].
  - bind_inv H. injection H as <-. eexists. split; [done|].
    by apply np_average_weighted.
  - bind_inv H. injection H as <-. eexists. split; [done|].
    by apply np_average_axis0_weighted.
  - bind_inv H. injection H as <-. eexists. split; [done|].
    destruct f as [k|fields].
    + rewrite <-H1 in Hall. apply Forall_cons_1 in Hall as [Hk _].
      by destruct k.
    + rewrite <-H1 in Hall. destruct (all_dict _ _ Hall) as (ds & Hds & Hconf).
      apply (blend_dict_values_aligned fields _ ds); try done.
      by rewrite Hv.
Qed.

(** X7. When the named prototypes share one layout, _blend_sounds with
    explicit weights (one per name, of non-zero sum) returns a dictionary
    of that layout which is their weighted mean with these weights, each
    prototype entering with its own weight also inside nested
    dictionaries. *)
Theorem blend_sounds_weights_aligned S (atomic : gmap string dict)
    names (ws : list Qc) latents :
  mapM (λ name, atomic !! name) names = Some latents →
  Forall (conforms has_field S) latents →
  names ≠ [] → length ws = length names → np_sum ws ≠ 0 →
  ∃ r, blend_sounds atomic names (Some ws) = Some r ∧
       conforms has_field S r ∧
       weighted_mean (zip (VDict <$> latents) ws) (VDict r).
Proof.
  intros Hl Hconf Hne Hlen Hsum.
  pose proof (length_mapM _ _ _ Hl) as Hll.
  assert (latents ≠ []) as Hlne by (intros ->; by destruct names).
  unfold blend_sounds. simpl. rewrite Hl. simpl.
  destruct (for_keys_conforms has_field S latents (blend_key latents ws))
    as (r & Hr & Hc); [done..| |].
  { intros key f Hf. apply (blend_key_conforms S); try done. lia. }
  exists r. split; [done|]. split; [done|].
  replace (zip (VDict <$> latents) ws)
    with (prod_map VDict id <$> zip latents ws)
    by (by rewrite prod_map_zip, list_fmap_id).
  assert ((zip latents ws).*1 = latents) as Hz1 by (apply fst_zip; lia).
  assert ((zip latents ws).*2 = ws) as Hz2 by (apply snd_zip; lia).
  apply wmean_dicts.
  - intros Hnil. apply (f_equal length) in Hnil.
    rewrite length_zip_with in Hnil.
    destruct latents as [|l0 ls]; [done|].
    simpl length in Hnil, Hll. lia.
  - intros key Hkey. rewrite Hz1 in Hkey.
    by apply (for_keys_Some_inv _ _ _ Hr key).
  - intros key Hkey. rewrite Hz1 in Hkey. rewrite Hz1, Hz2.
    destruct (proj2 (for_keys_Some_inv _ _ _ Hr key) Hkey) as (res & Hres & Hrk).
    apply (conforms_all_keys has_field S) in Hkey as Hs; [|done..].
    destruct Hs as [f Hf].
    destruct (blend_key_aligned S latents ws key f res) as (v & -> & Hv);
      try done; [lia|]. eauto.
Qed.

(** *** When blending returns *)

(** X8. Over prototypes that share one layout, _blend_sounds with the
    default weights returns exactly when the list of names is non-empty
    and every name is a learned sound; otherwise it raises. *)
Theorem blend_sounds_returns_iff S (atomic : gmap string dict) names :
  map_Forall (λ _ prototype, conforms has_field S prototype) atomic →
  is_Some (blend_sounds atomic names None) ↔
  names ≠ [] ∧ ∀ name, name ∈ names → is_Some (atomic !! name).
Proof.
  intros Hatomic. split.
  - intros [r Hr]. unfold blend_sounds, default_weights in Hr.
    destruct names as [|n0 names0] eqn:Hn; [done|]. rewrite <-Hn in *.
    split; [by rewrite Hn|]. simpl in Hr.
    destruct (mapM _ names) as [latents|] eqn:Hl; [|done].
    intros name Hname.
    assert (is_Some (mapM (λ name, atomic !! name) names)) as Hsome
      by (rewrite Hl; eauto).
    apply mapM_is_Some_1 in Hsome. rewrite list.Forall_forall in Hsome.
    by apply (Hsome name).
  - intros [Hne Hnames].
    destruct (blend_sounds_schema S atomic names) as (r & -> & _); [done| |eauto].
    intros name Hname. destruct (Hnames name Hname) as [p Hp].
    exists p. split; [done|]. by apply (Hatomic name).
Qed.

(** X9. _blend_sounds raises when one of the names is not a learned sound,
    whatever the weights. *)
Theorem blend_sounds_unknown_name (atomic : gmap string dict) names weights name :
  name ∈ names → atomic !! name = None →
  blend_sounds atomic names weights = None.
Proof.
  intros Hin Hnone. unfold blend_sounds.
  assert (mapM (λ name, atomic !! name) names = None) as Hl.
  { apply mapM_None, list.Exists_exists. by exists name. }
  destruct weights as [w|]; simpl.
  - by rewrite Hl.
  - destruct (default_weights names); simpl; [by rewrite Hl|done].
Qed.

Lemma average_features_nil : average_features [] = Some ∅.
Proof. by rewrite average_features_unfold. Qed.

Lemma all_keys_nil : all_keys [] = ∅.
Proof. done. Qed.

(** X10. The keys of the average are exactly the keys that occur in some
    sample. *)
Theorem average_features_keys fl r :
  average_features fl = Some r → dom r = all_keys fl.
Proof.
  intros Hr. destruct (decide (fl = [])) as [->|Hne].
  { rewrite average_features_nil in Hr. injection Hr as <-.
    by rewrite dom_empty_L. }
  apply set_eq. intros key. rewrite elem_of_dom.
  destruct (average_features_Some _ _ Hne Hr key) as [Hout Hin].
  destruct (decide (key ∈ all_keys fl)) as [Hk|Hk].
  - destruct (Hin Hk) as (v & -> & _). split; eauto.
  - rewrite (Hout Hk). split; [by intros []|done].
Qed.

Lemma average_features_keys_witness :
  dom (default ∅ (average_features partial_samples))
  = all_keys partial_samples.
Proof.
  apply (average_features_keys partial_samples).
  apply default_is_Some. by_evaluation.
Defined.

(** X11. _average_features returns only if, for every key, the values of
    the samples that have the key are all numbers, or all arrays of one
    length, or all dictionaries; on mixed values it raises. *)
Theorem average_features_one_kind_per_key fl r key :
  average_features fl = Some r → homogeneous (values_of key fl).
Proof.
  intros Hr. destruct (decide (key ∈ all_keys fl)) as [Hk|Hk]; last first.
  { apply values_nil_iff in Hk. rewrite Hk. left. by exists []. }
  assert (fl ≠ []) as Hne.
  { intros ->. rewrite all_keys_nil in Hk. set_solver. }
  destruct (proj2 (average_features_Some _ _ Hne Hr key) Hk) as (v & _ & Hres).
  unfold average_key, average_values in Hres.
  destruct (values_of key fl) as [|v0 vs] eqn:Hvals; [left; by exists []|].
  rewrite <-Hvals in *. clear Hvals. destruct v0.
  - bind_inv Hres.
    match goal with E : np_mean_scalars _ = Some _ |- _ =>
      unfold np_mean_scalars in E; bind_inv E end.
    match goal with E : mapM as_num _ = Some _ |- _ =>
      apply mapM_as_num_inv in E end.
    left. eauto.
  - bind_inv Hres. right; left.
    match goal with E : np_mean_axis0 _ = Some _ |- _ =>
      destruct (np_mean_axis0_Some _ _ E) as (arrs & m & -> & _ & Hs & _) end.
    eauto.
  - bind_inv Hres.
    match goal with E : mapM as_dict _ = Some _ |- _ =>
      apply mapM_as_dict_inv in E end.
    right; right. eauto.
Qed.

(** X12. On a non-empty list of samples that share one layout,
    _average_features returns, and the average has that layout. *)
Theorem average_features_keeps_layout S fl :
  fl ≠ [] → Forall (conforms has_field S) fl →
  ∃ r, average_features fl = Some r ∧ conforms has_field S r.
Proof. apply average_schema. Qed.

(** *** Signs of sums, means and variances *)

Lemma Qc_div_nonneg x y : 0 ≤ x → 0 ≤ y → 0 ≤ x / y.
Proof.
  intros Hx Hy. unfold Qcdiv. apply Qcmult_nonneg_nonneg; [done|].
  destruct (Qcle_lt_or_eq _ _ Hy) as [Hpos|<-].
  - by apply Qclt_le_weak, Qcinv_pos.
  - done.
Qed.

Lemma Qc_div_pos x y : 0 < x → 0 < y → 0 < x / y.
Proof. intros Hx Hy. unfold Qcdiv. by apply Qcmult_pos_pos, Qcinv_pos. Qed.

Lemma Qc_square_nonneg x : 0 ≤ x * x.
Proof.
  destruct (Qclt_le_dec x 0) as [Hneg|Hpos].
  - replace (x * x) with ((- x) * (- x)) by ring.
    assert (0 ≤ - x).
    { apply Qclt_le_weak in Hneg. apply Qcopp_le_compat in Hneg.
      by replace (- 0) with (Q2Qc 0) in Hneg by ring. }
    by apply Qcmult_nonneg_nonneg.
  - by apply Qcmult_nonneg_nonneg.
Qed.

Lemma Qc_of_nat_0 : Qc_of_nat 0 = 0.
Proof. by apply Qc_is_canon. Qed.

Lemma Qc_of_nat_nonneg n : 0 ≤ Qc_of_nat n.
Proof. unfold Qcle, Qc_of_nat, Qc_of_Z, Qle. simpl. lia. Qed.

Lemma Qc_of_nat_pos n : 0 < Qc_of_nat (S n).
Proof. unfold Qclt, Qc_of_nat, Qc_of_Z, Qlt. simpl. lia. Qed.

Lemma np_sum_nonneg xs : Forall (λ x, 0 ≤ x) xs → 0 ≤ np_sum xs.
Proof.
  induction 1 as [|x xs Hx _ IH]; simpl; [done|].
  by apply Qcplus_nonneg_nonneg.
Qed.

Lemma np_sum_pos x xs : Forall (λ x, 0 < x) (x :: xs) → 0 < np_sum (x :: xs).
Proof.
  intros H. apply Forall_cons_1 in H as [Hx Hxs]. simpl.
  apply Qcplus_pos_nonneg; [done|]. apply np_sum_nonneg.
  apply (list.Forall_impl _ _ _ Hxs). intros y. apply Qclt_le_weak.
Qed.

Lemma np_mean_nonneg xs : Forall (λ x, 0 ≤ x) xs → 0 ≤ np_mean xs.
Proof.
  intros H. apply Qc_div_nonneg; [by apply np_sum_nonneg|apply Qc_of_nat_nonneg].
Qed.

Lemma np_var_nonneg xs : 0 ≤ np_var xs.
Proof.
  apply np_mean_nonneg, Forall_fmap, Forall_true. intros x. apply Qc_square_nonneg.
Qed.

Lemma sum_squares_nonneg xs : 0 ≤ sum_squares xs.
Proof.
  apply np_sum_nonneg, Forall_fmap, Forall_true. intros x. apply Qc_square_nonneg.
Qed.

Lemma eps_pos : 0 < eps.
Proof. done. Qed.

Lemma foldl_Qc_max_ge x xs : x ≤ foldl Qc_max x xs.
Proof.
  revert x. induction xs as [|y xs IH]; intros x; simpl; [apply Qcle_refl|].
  eapply Qcle_trans; [|apply IH]. apply Qc_max_ge.
Qed.

Lemma Qc_min_le x y : Qc_min x y ≤ x.
Proof.
  unfold Qc_min. case_decide; [by apply Qclt_le_weak|apply Qcle_refl].
Qed.

Lemma foldl_Qc_min_le x xs : foldl Qc_min x xs ≤ x.
Proof.
  revert x. induction xs as [|y xs IH]; intros x; simpl; [apply Qcle_refl|].
  eapply Qcle_trans; [apply IH|]. apply Qc_min_le.
Qed.

Lemma np_max_min_range xs hi lo :
  np_max xs = Some hi → np_min xs = Some lo → 0 ≤ hi - lo.
Proof.
  destruct xs as [|x xs]; [done|]. simpl. intros [= <-] [= <-].
  unfold Qcminus. apply (proj1 (Qcle_minus_iff _ _)). eapply Qcle_trans;
    [apply foldl_Qc_min_le|apply foldl_Qc_max_ge].
Qed.

Section ExtractorExtras.
Context {L : Librosa}.

Lemma pitch_at_positive pitches magnitudes t p :
  pitch_at pitches magnitudes t = Some (Some p) → 0 < p.
Proof.
  unfold pitch_at. intros H. bind_inv H. case_decide; by simplify_eq.
Qed.

Lemma pitch_track_positive pitches magnitudes frames picked :
  mapM (pitch_at pitches magnitudes) frames = Some picked →
  Forall (λ p, 0 < p) (omap id picked).
Proof.
  intros H. apply list.Forall_forall. intros p Hp.
  apply list_elem_of_omap in Hp as (o & Ho & Hop). simpl in Hop. subst o.
  destruct (mapM_Some_elem _ _ _ _ H Ho) as (t & _ & Ht).
  by eapply pitch_at_positive.
Qed.

(** X13. The onset pattern of an extracted sample never reports exactly
    one onset, its variance is not negative, and with a count of zero the
    mean interval and the variance are zero. *)
Theorem onset_pattern_counts audio sr f :
  extract_semantic_features audio sr = Some f →
  ∃ d mean_ioi ioi_variance n,
    f !! "onset_pattern" = Some (VDict d) ∧
    d !! "mean_ioi" = Some (VNum mean_ioi) ∧
    d !! "ioi_variance" = Some (VNum ioi_variance) ∧
    d !! "num_onsets" = Some (VNum (Qc_of_nat n)) ∧
    n ≠ 1%nat ∧ 0 ≤ ioi_variance ∧
    (n = 0%nat → mean_ioi = 0 ∧ ioi_variance = 0).
Proof.
  intros H. apply extract_semantic_features_inv in H
    as (ev & el & tc & hr & st & td & tv & op & pp & so
        & _ & _ & _ & _ & _ & _ & _ & Hop & _ & _ & ->).
  exists op. unfold compute_onset_structure in Hop. bind_inv Hop.
  case_decide as Hn; injection Hop as <-.
  - eexists _, _, (length _). split_and!; try done.
    + lia.
    + apply np_var_nonneg.
    + intros H0. rewrite H0 in Hn. lia.
  - exists 0, 0, 0%nat. rewrite Qc_of_nat_0. split_and!; done.
Qed.

(** X14. The pitch profile of an extracted sample has no negative entry,
    and when the mean pitch is zero the range and the variance are zero
    too. *)
Theorem pitch_profile_signs audio sr f :
  extract_semantic_features audio sr = Some f →
  ∃ d mean_pitch pitch_range pitch_variance,
    f !! "pitch_profile" = Some (VDict d) ∧
    d !! "mean_pitch" = Some (VNum mean_pitch) ∧
    d !! "pitch_range" = Some (VNum pitch_range) ∧
    d !! "pitch_variance" = Some (VNum pitch_variance) ∧
    0 ≤ mean_pitch ∧ 0 ≤ pitch_range ∧ 0 ≤ pitch_variance ∧
    (mean_pitch = 0 → pitch_range = 0 ∧ pitch_variance = 0).
Proof.
  intros H. apply extract_semantic_features_inv in H
    as (ev & el & tc & hr & st & td & tv & op & pp & so
        & _ & _ & _ & _ & _ & _ & _ & _ & Hpp & _ & ->).
  exists pp. unfold compute_pitch_profile in Hpp.
  destruct (piptrack audio sr) as [[pitches magnitudes]|]; [|done]. simpl in Hpp.
  destruct (mapM _ _) as [picked|] eqn:Hpicked; [|done]. simpl in Hpp.
  pose proof (pitch_track_positive _ _ _ _ Hpicked) as Hpos.
  destruct (omap id picked) as [|p0 track] eqn:Htrack.
  - simpl in Hpp. injection Hpp as <-. exists 0, 0, 0. split_and!; done.
  - rewrite <-Htrack in *.
    destruct (np_max _) as [hi|] eqn:Hhi; [|by rewrite Htrack in Hhi].
    destruct (np_min _) as [lo|] eqn:Hlo; [|by rewrite Htrack in Hlo].
    injection Hpp as <-. eexists _, _, _. split_and!; try done.
    + apply np_mean_nonneg. apply (list.Forall_impl _ _ _ Hpos).
      intros y. apply Qclt_le_weak.
    + by eapply np_max_min_range.
    + apply np_var_nonneg.
    + intros Hzero. exfalso.
      assert (0 < np_mean (omap id picked)) as Hm.
      { unfold np_mean. rewrite Htrack in *. apply Qc_div_pos.
        - by apply np_sum_pos.
        - apply Qc_of_nat_pos. }
      rewrite Hzero in Hm. by apply Qclt_not_eq in Hm.
Qed.

(** X15. The harmonic richness of an extracted sample is a number that is
    not negative. *)
Theorem harmonic_richness_nonneg audio sr f :
  extract_semantic_features audio sr = Some f →
  ∃ share, f !! "harmonic_richness" = Some (VNum share) ∧ 0 ≤ share.
Proof.
  intros H. apply extract_semantic_features_inv in H
    as (ev & el & tc & hr & st & td & tv & op & pp & so
        & _ & _ & _ & Hhr & _ & _ & _ & _ & _ & _ & ->).
  exists hr. split; [done|]. unfold compute_harmonic_content in Hhr.
  destruct (hpss audio) as [[harmonic percussive]|]; [|done].
  injection Hhr as <-. apply Qc_div_nonneg; [apply sum_squares_nonneg|].
  apply Qcplus_nonneg_nonneg; [apply sum_squares_nonneg|done].
Qed.

End ExtractorExtras.

Lemma map_order_law : DictOrderLaw map_order.
Proof. split. done. Qed.

Lemma exceeds_num x t : exceeds (VNum x) t = Some (bool_decide (t < x)).
Proof. done. Qed.

Lemma three_levels_num x hi lo a b c :
  is_Some (three_levels (VNum x) hi lo a b c).
Proof. unfold three_levels. simpl. case_bool_decide; eauto. Qed.

Lemma two_sided_num x hi lo a b c :
  is_Some (two_sided (VNum x) hi lo a b c).
Proof. unfold two_sided. simpl. case_bool_decide; eauto. Qed.

Lemma scalar_descriptor (latent : dict) key :
  conforms has_field feature_schema latent →
  key ∈ seven_descriptors →
  ∃ x, get_or_zero latent key = VNum x.
Proof.
  intros Hc Hkey.
  assert (feature_schema !! key = Some (FLeaf KNum)) as Hf.
  { unfold seven_descriptors in Hkey.
    repeat (apply elem_of_cons in Hkey as [->|Hkey]; [done|]).
    by apply elem_of_nil in Hkey. }
  destruct (proj1 (conforms_key _ _ _ key Hc) _ Hf) as (v & Hv & Hk).
  unfold get_or_zero. rewrite Hv. simpl. destruct v; try done. eauto.
Qed.

Section ListeningFacts.
Context {O : DictOrder} {OL : DictOrderLaw O}.

Lemma items_lookup (d : dict) k v : (k, v) ∈ items d → d !! k = Some v.
Proof. rewrite items_perm. apply elem_of_map_to_list. Qed.

Lemma items_nonempty (d : dict) k v : d !! k = Some v → items d ≠ [].
Proof.
  intros Hk Hnil. apply elem_of_map_to_list in Hk.
  rewrite <-items_perm, Hnil in Hk. by apply elem_of_nil in Hk.
Qed.

Lemma excerpt_line_flat fields (d : dict) :
  conforms has_kind fields d →
  map_Forall (λ _ k, k = KNum) fields → fields ≠ ∅ →
  excerpt_line (VDict d) = Some ().
Proof.
  intros Hc Hnum Hne. simpl.
  destruct (items d) as [|[k v] rest] eqn:Hitems.
  - exfalso. apply Hne. apply map_empty. intros key.
    destruct (fields !! key) as [kind|] eqn:Hk; [|done].
    destruct (proj1 (conforms_key _ _ _ key Hc) _ Hk) as (v & Hv & _).
    by apply items_nonempty in Hv.
  - assert (d !! k = Some v) as Hv by (apply items_lookup; rewrite Hitems; left).
    destruct (proj2 (conforms_key _ _ _ k Hc)) as [kind Hk]; [eauto|].
    destruct (proj1 (conforms_key _ _ _ k Hc) _ Hk) as (v' & Hv' & Hkind).
    rewrite Hv in Hv'. injection Hv' as <-.
    rewrite (Hnum _ _ Hk) in Hkind. by destruct v.
Qed.

Lemma excerpt_line_schema (latent : dict) k v :
  conforms has_field feature_schema latent → latent !! k = Some v →
  excerpt_line v = Some ().
Proof.
  intros Hc Hv.
  destruct (proj2 (conforms_key _ _ _ k Hc)) as [f Hf]; [eauto|].
  destruct (proj1 (conforms_key _ _ _ k Hc) _ Hf) as (v' & Hv' & Hfield).
  rewrite Hv in Hv'. injection Hv' as <-.
  unfold feature_schema in Hf. rewrite !lookup_insert, lookup_empty in Hf.
  repeat case_decide; simplify_eq; destruct v as [x|a|d]; try done.
  - simpl in Hfield. apply bool_decide_eq_true in Hfield.
    apply (excerpt_line_flat _ _ Hfield).
    + intros key kind. rewrite !lookup_insert, lookup_singleton.
      repeat case_decide; naive_solver.
    + intros Hnil. apply (f_equal (lookup "mean_pitch")) in Hnil. done.
  - simpl in Hfield. apply bool_decide_eq_true in Hfield.
    apply (excerpt_line_flat _ _ Hfield).
    + intros key kind. rewrite !lookup_insert, lookup_singleton.
      repeat case_decide; naive_solver.
    + intros Hnil. apply (f_equal (lookup "mean_ioi")) in Hnil. done.
  - simpl in Hfield. apply bool_decide_eq_true in Hfield. simpl.
    rewrite decide_True; [done|lia].
Qed.

Lemma print_excerpt_schema (latent : dict) :
  conforms has_field feature_schema latent → is_Some (print_excerpt latent).
Proof.
  intros Hc. unfold print_excerpt. apply mapM_is_Some, list.Forall_forall.
  intros v Hv. apply list_elem_of_fmap in Hv as ([k v'] & -> & Hkv).
  apply elem_of_take in Hkv as (i & Hi & _).
  apply list_elem_of_lookup_2, items_lookup in Hi.
  simpl. rewrite (excerpt_line_schema _ _ _ Hc Hi). eauto.
Qed.

Lemma listen_internal_schema sc :
  conforms has_field feature_schema (latent sc) →
  ∃ interpretation,
    listen_internal (Some sc) = Some (Some interpretation) ∧
    dom interpretation = seven_labels.
Proof.
  intros Hc. unfold listen_internal.
  unfold mood_of, energy_of, pattern_of, character_of, evolution_of,
    texture_of, space_of.
  destruct (scalar_descriptor _ "emotional_valence" Hc) as [x1 ->];
    [set_solver|].
  destruct (scalar_descriptor _ "energy_level" Hc) as [x2 ->]; [set_solver|].
  destruct (scalar_descriptor _ "temporal_complexity" Hc) as [x3 ->];
    [set_solver|].
  destruct (scalar_descriptor _ "harmonic_richness" Hc) as [x4 ->];
    [set_solver|].
  destruct (scalar_descriptor _ "spectral_trajectory" Hc) as [x5 ->];
    [set_solver|].
  destruct (scalar_descriptor _ "textural_density" Hc) as [x6 ->];
    [set_solver|].
  destruct (scalar_descriptor _ "spatial_openness" Hc) as [x7 ->];
    [set_solver|].
  destruct (two_sided_num x1 (q 3 10) (- q 3 10) "positive/uplifting"
              "negative/melancholic" "neutral/ambient") as [l1 ->].
  destruct (three_levels_num x2 (q 15 100) (q 5 100) "high (active/intense)"
              "medium (moderate)" "low (calm/quiet)") as [l2 ->].
  destruct (three_levels_num x4 (q 6 10) (q 3 10) "tonal/melodic"
              "mixed (tonal + noise)" "noisy/percussive") as [l4 ->].
  destruct (two_sided_num x5 (q 1 10) (- q 1 10) "brightening (rising energy)"
              "darkening (falling energy)" "stable (unchanging)") as [l5 ->].
  destruct (three_levels_num x6 (q 6 10) (q 3 10) "dense/rich (many layers)"
              "moderate" "sparse/simple (few elements)") as [l6 ->].
  destruct (three_levels_num x7 (q 6 10) (q 3 10)
              "open/expansive (outdoor feeling)" "medium"
              "enclosed/intimate (indoor feeling)") as [l7 ->].
  destruct (print_excerpt_schema _ Hc) as [u ->].
  simpl. eexists. split; [done|].
  rewrite !dom_insert_L, dom_empty_L. unfold seven_labels. set_solver.
Qed.

End ListeningFacts.

Lemma demo_prototypes_found :
  mapM (λ name, atomic_sounds demo_engine !! name) ["thunder"; "whale_song"]
  = Some demo_prototypes.
Proof. apply default_is_Some. by_evaluation. Qed.

Lemma demo_prototypes_layout :
  Forall (conforms has_field feature_schema) demo_prototypes.
Proof.
  apply list.Forall_forall. intros p Hp.
  pose proof demo_prototypes_found as Hfound.
  destruct (mapM_Some_elem _ _ _ _ Hfound Hp) as (name & _ & Hname).
  exact (demo_engine_learned _ _ Hname).
Qed.

Lemma demo_scene_generated :
  (generate_scene_from_text (SO:=elements_order) demo_engine
     "Whale  THUNDER").1 = Some (Some demo_scene).
Proof. vm_compute. reflexivity. Qed.

Lemma generated_latent_schema {SO : SetOrder} {SOL : SetOrderLaw SO}
    self text sc :
  learned self →
  (generate_scene_from_text self text).1 = Some (Some sc) →
  conforms has_field feature_schema (latent sc).
Proof.
  intros Hl Hg.
  apply generate_scene_from_text_Some in Hg as (Hne & Hc & _ & Hb).
  destruct (blend_sounds_schema feature_schema (atomic_sounds self)
              (components sc)) as (r & Hr & Hconf).
  - rewrite Hc. intros Hnil. by apply list_of_set_nil in Hnil.
  - intros name Hname.
    rewrite Hc, elem_of_list_of_set, elem_of_match_words in Hname.
    destruct Hname as (w & _ & [p Hp] & _).
    exists p. split; [done|]. exact (Hl _ _ Hp).
  - rewrite Hb in Hr. by injection Hr as ->.
Qed.

(** X16. A scene generated by an engine whose prototypes have the
    extractor's layout has that layout too: its latent has exactly the ten
    keys, each with a value of the extractor's shape. *)
Theorem generated_scene_layout {SO : SetOrder} {SOL : SetOrderLaw SO}
    self text sc :
  learned self →
  (generate_scene_from_text self text).1 = Some (Some sc) →
  dom (latent sc) = ten_keys ∧
  conforms has_field feature_schema (latent sc).
Proof.
  intros Hl Hg. pose proof (generated_latent_schema _ _ _ Hl Hg) as Hc.
  split; [|done]. by rewrite (conforms_dom _ _ _ Hc), dom_feature_schema.
Qed.

Lemma generated_scene_layout_witness :
  dom (latent demo_scene) = ten_keys ∧
  conforms has_field feature_schema (latent demo_scene).
Proof.
  apply (generated_scene_layout (SOL:=elements_order_law)
           demo_engine "Whale  THUNDER" demo_scene).
  - apply demo_engine_learned.
  - apply demo_scene_generated.
Defined.

Lemma three_levels_dict d hi lo a b c :
  three_levels (VDict d) hi lo a b c = None.
Proof. done. Qed.

Lemma two_sided_dict d hi lo a b c : two_sided (VDict d) hi lo a b c = None.
Proof. done. Qed.

Section ListeningTheorems.
Context {O : DictOrder} {OL : DictOrderLaw O}.
Context {SO : SetOrder} {SOL : SetOrderLaw SO}.

(** X17. What the callers do never raises: on an engine whose prototypes
    have the extractor's layout, generate_scene_from_text returns None or
    a scene, and listen_internal returns None for the former and an
    interpretation with exactly the labels mood, energy, pattern,
    character, evolution, texture and space for the latter. *)
Theorem listen_hears_generated_scene self text :
  learned self →
  match (generate_scene_from_text self text).1 with
  | None => False
  | Some None => listen_internal None = Some None
  | Some (Some sc) =>
      ∃ interpretation,
        listen_internal (Some sc) = Some (Some interpretation) ∧
        dom interpretation = seven_labels
  end.
Proof.
  intros Hl.
  destruct (generate_scene_from_text self text).1 as [[sc|]|] eqn:Hg.
  - apply listen_internal_schema. by eapply generated_latent_schema.
  - done.
  - destruct (generate_scene_from_text_returns self text Hl) as [r Hr].
    by rewrite Hg in Hr.
Qed.

End ListeningTheorems.

Section ListeningAnyOrder.
Context {O : DictOrder}.

(** X18. The interpretation is a function of the seven scalar descriptors:
    a second scene that agrees with the first on them, and whose excerpt
    can be printed, gets the same interpretation. *)
Theorem listen_internal_reads_seven_descriptors sc sc' interpretation :
  (∀ key, key ∈ seven_descriptors → latent sc !! key = latent sc' !! key) →
  is_Some (print_excerpt (latent sc')) →
  listen_internal (Some sc) = Some (Some interpretation) →
  listen_internal (Some sc') = Some (Some interpretation).
Proof.
  intros Hagree [u Hu] H. unfold listen_internal in *.
  unfold mood_of, energy_of, pattern_of, character_of, evolution_of,
    texture_of, space_of, get_or_zero in *.
  rewrite <-!Hagree by (unfold seven_descriptors; set_solver).
  bind_inv H. rewrite Hu. simpl. done.
Qed.

(** X19. listen_internal raises on a scene in which one of the seven
    descriptors is a dictionary, which cannot be compared with a
    threshold. *)
Theorem listen_internal_rejects_nested_descriptor sc key d :
  key ∈ seven_descriptors → latent sc !! key = Some (VDict d) →
  listen_internal (Some sc) = None.
Proof.
  intros Hkey Hd. unfold listen_internal.
  unfold mood_of, energy_of, pattern_of, character_of, evolution_of,
    texture_of, space_of, get_or_zero.
  unfold seven_descriptors in Hkey.
  repeat (apply elem_of_cons in Hkey as [->|Hkey];
          [rewrite Hd; simpl;
           rewrite ?three_levels_dict, ?two_sided_dict; simpl;
           repeat (match goal with
                   | |- context [?m ≫= _] =>
                       lazymatch m with
                       | three_levels _ _ _ _ _ _ => destruct m
                       | two_sided _ _ _ _ _ _ => destruct m
                       | exceeds _ _ => destruct m
                       end
                   end; simpl); done|]).
  by apply elem_of_nil in Hkey.
Qed.

End ListeningAnyOrder.

Lemma listen_hears_generated_scene_witness :
  match (generate_scene_from_text (SO:=elements_order) demo_engine
           "Whale  THUNDER").1 with
  | None => False
  | Some None => listen_internal (O:=map_order) None = Some None
  | Some (Some sc) =>
      ∃ interpretation,
        listen_internal (O:=map_order) (Some sc) = Some (Some interpretation) ∧
        dom interpretation = seven_labels
  end.
Proof.
  exact (listen_hears_generated_scene (OL:=map_order_law)
           (SOL:=elements_order_law) demo_engine "Whale  THUNDER"
           demo_engine_learned).
Defined.

Lemma listen_internal_reads_seven_descriptors_witness :
  listen_internal (O:=map_order) (Some scalar_scene)
  = Some (Some demo_interpretation).
Proof.
  apply (listen_internal_reads_seven_descriptors (O:=map_order)
           demo_scene scalar_scene demo_interpretation).
  - intros key Hkey. unfold seven_descriptors in Hkey.
    repeat (apply elem_of_cons in Hkey as [->|Hkey];
            [vm_compute; reflexivity|]).
    by apply elem_of_nil in Hkey.
  - by_evaluation.
  - vm_compute. reflexivity.
Defined.

Lemma listen_internal_rejects_nested_descriptor_witness :
  listen_internal (O:=map_order) (Some nested_scene) = None.
Proof.
  apply (listen_internal_rejects_nested_descriptor (O:=map_order)
           nested_scene "energy_level" ∅).
  - unfold seven_descriptors. set_solver.
  - reflexivity.
Defined.

Lemma demo_prototypes_nonempty : demo_prototypes ≠ [].
Proof.
  intros Hnil. pose proof demo_prototypes_found as H.
  rewrite Hnil in H. by apply length_mapM in H.
Qed.

Lemma blend_sounds_weights_aligned_witness :
  ∃ r, blend_sounds (atomic_sounds demo_engine) ["thunder"; "whale_song"]
         (Some [q 1 4; q 3 4]) = Some r ∧
       conforms has_field feature_schema r ∧
       weighted_mean (zip (VDict <$> demo_prototypes) [q 1 4; q 3 4]) (VDict r).
Proof.
  apply (blend_sounds_weights_aligned feature_schema (atomic_sounds demo_engine)
           ["thunder"; "whale_song"] [q 1 4; q 3 4] demo_prototypes).
  - apply demo_prototypes_found.
  - apply demo_prototypes_layout.
  - done.
  - reflexivity.
  - by_evaluation.
Defined.

Lemma blend_sounds_returns_iff_witness :
  is_Some (blend_sounds (atomic_sounds demo_engine) ["thunder"; "rain"] None) ↔
  ["thunder"; "rain"] ≠ [] ∧
  ∀ name, name ∈ ["thunder"; "rain"] →
          is_Some (atomic_sounds demo_engine !! name).
Proof.
  apply (blend_sounds_returns_iff feature_schema (atomic_sounds demo_engine)
           ["thunder"; "rain"]).
  apply demo_engine_learned.
Defined.

Lemma blend_sounds_unknown_name_witness :
  blend_sounds (atomic_sounds demo_engine) ["thunder"; "rain"]
    (Some [q 1 2; q 1 2]) = None.
Proof.
  apply (blend_sounds_unknown_name (atomic_sounds demo_engine)
           ["thunder"; "rain"] (Some [q 1 2; q 1 2]) "rain").
  - set_solver.
  - vm_compute. reflexivity.
Defined.

Lemma average_features_one_kind_per_key_witness :
  homogeneous (values_of "timbre_vector" [demo_features; demo_features]).
Proof.
  apply (average_features_one_kind_per_key [demo_features; demo_features]
           (default ∅ (average_features [demo_features; demo_features]))).
  apply default_is_Some. by_evaluation.
Defined.

Lemma average_features_keeps_layout_witness :
  ∃ r, average_features demo_prototypes = Some r ∧
       conforms has_field feature_schema r.
Proof.
  apply (average_features_keeps_layout feature_schema demo_prototypes).
  - apply demo_prototypes_nonempty.
  - apply demo_prototypes_layout.
Defined.

Lemma onset_pattern_counts_witness :
  ∃ d mean_ioi ioi_variance n,
    demo_features !! "onset_pattern" = Some (VDict d) ∧
    d !! "mean_ioi" = Some (VNum mean_ioi) ∧
    d !! "ioi_variance" = Some (VNum ioi_variance) ∧
    d !! "num_onsets" = Some (VNum (Qc_of_nat n)) ∧
    n ≠ 1%nat ∧ 0 ≤ ioi_variance ∧
    (n = 0%nat → mean_ioi = 0 ∧ ioi_variance = 0).
Proof.
  exact (onset_pattern_counts (L:=toy_librosa) [q 3 1; q 4 1] 22050
           demo_features demo_features_extracted).
Defined.

Lemma pitch_profile_signs_witness :
  ∃ d mean_pitch pitch_range pitch_variance,
    demo_features !! "pitch_profile" = Some (VDict d) ∧
    d !! "mean_pitch" = Some (VNum mean_pitch) ∧
    d !! "pitch_range" = Some (VNum pitch_range) ∧
    d !! "pitch_variance" = Some (VNum pitch_variance) ∧
    0 ≤ mean_pitch ∧ 0 ≤ pitch_range ∧ 0 ≤ pitch_variance ∧
    (mean_pitch = 0 → pitch_range = 0 ∧ pitch_variance = 0).
Proof.
  exact (pitch_profile_signs (L:=toy_librosa) [q 3 1; q 4 1] 22050
           demo_features demo_features_extracted).
Defined.

Lemma harmonic_richness_nonneg_witness :
  ∃ share, demo_features !! "harmonic_richness" = Some (VNum share) ∧
           0 ≤ share.
Proof.
  exact (harmonic_richness_nonneg (L:=toy_librosa) [q 3 1; q 4 1] 22050
           demo_features demo_features_extracted).
Defined.
